(** * The inode tracer of the standalone Linux I/O tracer

    A shallow embedding of [source/kernel/trace_inode.c]: the identity cache
    (hash table with collision chains plus an LRU list over a fixed arena of
    entries), the fsnotify marks and event handler, the walk that traces
    an inode's name and the names of its ancestors, and the life of the
    tracers with the monitor they share.

    Conventions of the embedding.
    - The target is an LP64 kernel: [i_ino], [s_dev] and the two fields of a
      [timespec] are stored in the cache entry without truncation, so they
      are plain [Z] values and comparisons are comparisons in [Z].
    - Intrusive lists become lists of arena indices: [lru_list] is the LRU
      list read from [head->next] to [head->prev], a bucket of [hash_table]
      is its chain read from [first].
    - One CPU is modelled for the cache and the trace: one trace buffer and
      one inode tracer. The life of the tracers is modelled over the slots of
      all the cpus, one call after the other. *)

From Stdlib Require Import ZArith Lia Bool String.
From stdpp Require Import base tactics option numbers list gmap.

Local Open Scope Z_scope.

(** ** Constants *)

Definition u64 (z : Z) : Z := z mod 2 ^ 64.

Definition CACHE_HASH_BITS : Z := 10.
Definition CACHE_HASH_SIZE : Z := u64 (Z.shiftl 2 CACHE_HASH_BITS).
Definition CACHE_SIZE : Z := u64 (CACHE_HASH_SIZE * 4).

(** [DECLARE_HASHTABLE(name, bits)] of [linux/hashtable.h] declares
    [struct hlist_head name[1 << (bits)]]; [HASH_SIZE(name)] is the number of
    elements of that array. *)
Definition DECLARE_HASHTABLE (bits : Z) : Z := Z.shiftl 1 bits.
Definition HASH_SIZE_hash_table : Z := DECLARE_HASHTABLE CACHE_HASH_BITS.

(** Event bits of [linux/fsnotify_backend.h]. *)
Definition FS_OPEN : Z := 0x20.
Definition FS_MOVED_FROM : Z := 0x40.
Definition FS_MOVED_TO : Z := 0x80.
Definition FS_CREATE : Z := 0x100.
Definition FS_DELETE : Z := 0x200.
Definition FS_DELETE_SELF : Z := 0x400.

Definition IOTRACE_FSNOTIFY_EVENTS : Z :=
  Z.lor (Z.lor (Z.lor FS_MOVED_FROM FS_MOVED_TO) FS_CREATE) FS_DELETE_SELF.

(** [S_ISDIR] of [linux/stat.h]. *)
Definition S_IFMT : Z := 0xF000.      (* 0170000 *)
Definition S_IFDIR : Z := 0x4000.     (* 0040000 *)
Definition S_ISDIR (m : Z) : bool := Z.land m S_IFMT =? S_IFDIR.

Definition ENOSPC : Z := 28.

(** ** Data model *)

Record timespec := { tv_sec : Z; tv_nsec : Z }.

Record inode := {
  i_ino : Z;
  s_dev : Z;          (* i_sb->s_dev *)
  i_mode : Z;
  i_ctime : timespec
}.

Record cache_entry := {
  inode_id : Z;
  ctime : timespec;
  device_id : Z
}.

Global Instance timespec_eq_dec : EqDecision timespec.
Proof. solve_decision. Defined.
Global Instance inode_eq_dec : EqDecision inode.
Proof. solve_decision. Defined.
Global Instance cache_entry_eq_dec : EqDecision cache_entry.
Proof. solve_decision. Defined.

(** The arena is obtained with [vzalloc_node]: every field is zero. *)
Definition zero_timespec : timespec := {| tv_sec := 0; tv_nsec := 0 |}.
Definition zero_entry : cache_entry :=
  {| inode_id := 0; ctime := zero_timespec; device_id := 0 |}.

Global Instance cache_entry_inhabited : Inhabited cache_entry :=
  populate zero_entry.

Record fs_monitor := {
  refcnt : Z;
  group : nat
}.

Record iotrace_inode_tracer := {
  hash_table : list (list nat);
  lru_list : list nat;
  entries : list cache_entry;
  fsm : option fs_monitor
}.

(** ** The kernel's list primitives on index lists *)

(** An entry is on the LRU list once and on at most one chain (the
    invariant [cache_wf] below), so unlinking a node is removing its
    index. *)
Definition list_del (e : nat) (l : list nat) : list nat :=
  filter (λ x, x ≠ e) l.
Definition list_add (e : nat) (l : list nat) : list nat := e :: l.
Definition list_add_tail (e : nat) (l : list nat) : list nat := l ++ [e].
Definition list_last_entry (l : list nat) : option nat := last l.

(** [hash_del] is [hlist_del_init]: the node leaves the chain it is on, and
    nothing happens when it is on none. *)
Definition hash_del (e : nat) (ht : list (list nat)) : list (list nat) :=
  list_del e <$> ht.

Definition bucket (ht : list (list nat)) (b : nat) : list nat :=
  default [] (ht !! b).

Section Cache.

(** [hash_min(key, HASH_BITS(hash_table))]: the bucket of a key. Its
    definition is the kernel's and changed between the supported versions. *)
Variable hash_min : Z → nat.

Definition hash_add (ht : list (list nat)) (e : nat) (key : Z)
  : list (list nat) :=
  alter (cons e) (hash_min key) ht.

Definition _set_hot (t : iotrace_inode_tracer) (entry : nat)
  : iotrace_inode_tracer :=
  {| hash_table := hash_table t;
     lru_list := list_add entry (list_del entry (lru_list t));
     entries := entries t;
     fsm := fsm t |}.

(** [list_last_entry] on an empty list would yield a pointer that is no
    entry: [None]. *)
Definition _get_entry (t : iotrace_inode_tracer)
  : option (nat * iotrace_inode_tracer) :=
  entry ← list_last_entry (lru_list t);
  Some (entry,
        {| hash_table := hash_del entry (hash_table t);
           lru_list := list_del entry (lru_list t);
           entries := entries t;
           fsm := fsm t |}).

Definition entry_of (i : inode) : cache_entry :=
  {| inode_id := i_ino i; ctime := i_ctime i; device_id := s_dev i |}.

Definition _map (t : iotrace_inode_tracer) (i : inode)
  : option iotrace_inode_tracer :=
  '(entry, t1) ← _get_entry t;
  Some {| hash_table := hash_add (hash_table t1) entry (i_ino i);
          lru_list := list_add entry (lru_list t1);
          entries := <[entry := entry_of i]> (entries t1);
          fsm := fsm t1 |}.

Definition _remove_entry (t : iotrace_inode_tracer) (entry : nat)
  : iotrace_inode_tracer :=
  {| hash_table := hash_del entry (hash_table t);
     lru_list := list_add_tail entry (list_del entry (lru_list t));
     entries := entries t;
     fsm := fsm t |}.

Definition same_identity (i : inode) (e : cache_entry) : bool :=
  (i_ino i =? inode_id e) && (s_dev i =? device_id e).

Definition same_ctime (i : inode) (e : cache_entry) : bool :=
  (tv_sec (i_ctime i) =? tv_sec (ctime e)) &&
  (tv_nsec (i_ctime i) =? tv_nsec (ctime e)).

(** The body of [hash_for_each_possible_safe]: the chain is walked through
    the saved [next] pointers, so removing the current entry does not
    disturb the walk. *)
Fixpoint _lookup_chain (t : iotrace_inode_tracer) (i : inode)
    (chain : list nat) : iotrace_inode_tracer * option nat :=
  match chain with
  | [] => (t, None)
  | entry :: next =>
      if same_identity i (entries t !!! entry) then
        if same_ctime i (entries t !!! entry) then
          (_set_hot t entry, Some entry)
        else
          _lookup_chain (_remove_entry t entry) i next
      else
        _lookup_chain t i next
  end.

Definition _lookup (t : iotrace_inode_tracer) (i : inode)
  : iotrace_inode_tracer * option nat :=
  _lookup_chain t i (bucket (hash_table t) (hash_min (i_ino i))).

End Cache.

(** [iotrace_create_inode_tracer] once [vzalloc_node] has returned the
    zeroed tracer, with the sizes of the two arrays and the outcome of
    [_fsm_init] given: the loop adds entry [0], [1], ... at the head of the
    LRU list. *)
Definition create_inode_tracer (nbuckets nentries : nat)
    (m : option fs_monitor) : iotrace_inode_tracer :=
  {| hash_table := replicate nbuckets [];
     lru_list := fold_left (λ l i, list_add i l) (seq 0 nentries) [];
     entries := replicate nentries zero_entry;
     fsm := m |}.

Definition iotrace_create_inode_tracer (m : option fs_monitor)
  : iotrace_inode_tracer :=
  create_inode_tracer (Z.to_nat HASH_SIZE_hash_table) (Z.to_nat CACHE_SIZE) m.

(** ** Trace events and the trace buffer *)

Inductive iotrace_fs_event_type :=
  | iotrace_fs_event_create
  | iotrace_fs_event_delete
  | iotrace_fs_event_move_to
  | iotrace_fs_event_move_from.

Record iotrace_event_file_id := { id : Z; id_ctime : timespec }.

(** The header of an event keeps its sequence number; its timestamp is the
    clock's and is left out. *)
Record iotrace_event_fs_file_event := {
  fe_sid : Z;
  fe_partition_id : Z;
  fe_file_id : iotrace_event_file_id;
  fs_event_type : iotrace_fs_event_type
}.

Record iotrace_event_fs_file_name := {
  fn_sid : Z;
  fn_partition_id : Z;
  fn_file_id : iotrace_event_file_id;
  file_parent_id : iotrace_event_file_id;
  file_name : string
}.

Inductive iotrace_event :=
  | fs_file_event (ev : iotrace_event_fs_file_event)
  | fs_file_name (ev : iotrace_event_fs_file_name).

(** The trace buffer belongs to the octf library. What the tracer sees of it
    is the result of each reservation, which depends on how far the consumer
    has drained the ring: [wr_results] holds the results the coming
    reservations will get ([0] grants the buffer), and a reservation beyond
    them finds the ring full. [written] are the committed events, oldest
    first. A commit of a granted buffer returns [0]. *)
Record octf_trace := {
  wr_results : list Z;
  written : list iotrace_event
}.

Definition octf_trace_get_wr_buffer (tr : octf_trace) : Z * octf_trace :=
  match wr_results tr with
  | [] => (- ENOSPC, tr)
  | r :: rs => (r, {| wr_results := rs; written := written tr |})
  end.

Definition octf_trace_commit_wr_buffer (tr : octf_trace) (ev : iotrace_event)
  : Z * octf_trace :=
  (0, {| wr_results := wr_results tr; written := written tr ++ [ev] |}).

(** ** Marks *)

(** A mark attached to an inode; the in-core inode is named by its device
    and its number. *)
Record fsnotify_mark := {
  mark_group : nat;
  mark_inode : Z * Z;
  mask : Z
}.

Definition fsnotify_find_mark (marks : list fsnotify_mark) (i : inode)
    (g : nat) : option fsnotify_mark :=
  List.find (λ m, bool_decide (mark_group m = g ∧
                               mark_inode m = (s_dev i, i_ino i))) marks.

(** ** The state the tracer works on *)

Record kernel := {
  sid : Z;                          (* trace_state.sid *)
  trace : octf_trace;
  inode_tracer : iotrace_inode_tracer;
  marks : list fsnotify_mark;
  fsnotify_ops_inited : bool
}.

Definition set_inode_tracer (k : kernel) (t : iotrace_inode_tracer) : kernel :=
  {| sid := sid k; trace := trace k; inode_tracer := t; marks := marks k;
     fsnotify_ops_inited := fsnotify_ops_inited k |}.

Definition set_trace (k : kernel) (s : Z) (tr : octf_trace) : kernel :=
  {| sid := s; trace := tr; inode_tracer := inode_tracer k; marks := marks k;
     fsnotify_ops_inited := fsnotify_ops_inited k |}.

Definition set_marks (k : kernel) (ms : list fsnotify_mark) : kernel :=
  {| sid := sid k; trace := trace k; inode_tracer := inode_tracer k;
     marks := ms; fsnotify_ops_inited := fsnotify_ops_inited k |}.

(** The dentry cache as the walk reads it. [dget_parent] is [None] where the
    source finds a null [parent_dentry]; [d_inode] is total because the
    source dereferences the parent's inode unchecked. *)
Record dcache := {
  d_find_alias : inode → option nat;
  dget_parent : nat → option nat;
  d_inode : nat → inode;
  d_name : nat → string
}.

Inductive fsnotify_data :=
  | FSNOTIFY_EVENT_NONE
  | FSNOTIFY_EVENT_PATH (child : inode)     (* data->dentry->d_inode *)
  | FSNOTIFY_EVENT_INODE (child : inode)
  | FSNOTIFY_EVENT_unknown (data_type : Z).

Section Tracer.

Variable hash_min : Z → nat.

(** [ALL_FSNOTIFY_EVENTS] of the running kernel's [fsnotify_backend.h]. *)
Variable ALL_FSNOTIFY_EVENTS : Z.

(** The result of [IOTRACE_FSNOTIFY_ADD_MARK] on an inode: [0], or the
    backend's error (the inode is going away). *)
Variable add_mark_result : inode → Z.

(** [sizeof(ev->file_name)] of [iotrace_event.h], at least [1]. *)
Variable sizeof_file_name : nat.

Variable vfs : dcache.

(** A mark found is a reference taken and put back; a mark whose attachment
    fails is freed by its last [put_mark]; a mark attached stays on the
    inode. *)
Definition _fs_add_mark (k : kernel) (g : nat) (i : inode) : kernel :=
  match fsnotify_find_mark (marks k) i g with
  | Some _ => k
  | None =>
      let mark := {| mark_group := g; mark_inode := (s_dev i, i_ino i);
                     mask := ALL_FSNOTIFY_EVENTS |} in
      if add_mark_result i =? 0 then set_marks k (mark :: marks k) else k
  end.

Definition _trace_file_event (k : kernel) (i : inode)
    (eventType : iotrace_fs_event_type) : kernel :=
  let sid' := u64 (sid k + 1) in
  let '(result, tr) := octf_trace_get_wr_buffer (trace k) in
  if result =? 0 then
    let ev := {| fe_sid := sid';
                 fe_partition_id := s_dev i;
                 fe_file_id := {| id := i_ino i; id_ctime := i_ctime i |};
                 fs_event_type := eventType |} in
    set_trace k sid' (snd (octf_trace_commit_wr_buffer tr (fs_file_event ev)))
  else set_trace k sid' tr.

Definition bits_set (m : Z) : bool := negb (m =? 0).

(** [None] is [BUG()]. The watched inode itself is not used. *)
Definition _fs_handle_event (k : kernel) (g : nat) (dir : inode) (mask : Z)
    (data : fsnotify_data) : option (kernel * Z) :=
  match data with
  | FSNOTIFY_EVENT_NONE => Some (k, 0)
  | FSNOTIFY_EVENT_unknown _ => None
  | FSNOTIFY_EVENT_PATH child_inode | FSNOTIFY_EVENT_INODE child_inode =>
      let k1 :=
        if bits_set (Z.land (Z.land mask FS_MOVED_FROM) IOTRACE_FSNOTIFY_EVENTS)
        then _trace_file_event k child_inode iotrace_fs_event_move_from
        else k in
      let k2 :=
        if bits_set (Z.land (Z.land mask FS_MOVED_TO) IOTRACE_FSNOTIFY_EVENTS)
        then _trace_file_event k1 child_inode iotrace_fs_event_move_to
        else k1 in
      let k3 :=
        if bits_set (Z.land mask FS_CREATE) then
          let k' := _fs_add_mark k2 g child_inode in
          if bits_set (Z.land mask IOTRACE_FSNOTIFY_EVENTS)
          then _trace_file_event k' child_inode iotrace_fs_event_create
          else k'
        else k2 in
      let k4 :=
        if bits_set (Z.land (Z.land mask FS_DELETE_SELF) IOTRACE_FSNOTIFY_EVENTS)
        then _trace_file_event k3 child_inode iotrace_fs_event_delete
        else k3 in
      let k5 :=
        if bits_set (Z.land mask FS_OPEN)
        then _fs_add_mark k4 g child_inode
        else k4 in
      Some (k5, 0)
  end.

Definition _trace_filename (k : kernel) (part_id file_id parent_id : Z)
    (ctime parentctime : timespec) (dname : string) : Z * kernel :=
  let sid' := u64 (sid k + 1) in
  let '(result, tr) := octf_trace_get_wr_buffer (trace k) in
  if result =? 0 then
    let smax := String.length dname in
    let dmax := (sizeof_file_name - 1)%nat in
    let to_copy := Nat.min smax dmax in
    let ev := {| fn_sid := sid';
                 fn_partition_id := part_id;
                 fn_file_id := {| id := file_id; id_ctime := ctime |};
                 file_parent_id := {| id := parent_id;
                                      id_ctime := parentctime |};
                 file_name := String.substring 0 to_copy dname |} in
    let '(r, tr') := octf_trace_commit_wr_buffer tr (fs_file_name ev) in
    (r, set_trace k sid' tr')
  else (result, set_trace k sid' tr).

(** The [do ... while (this_inode && this_dentry)] loop of
    [iotrace_trace_inode]; [fuel] bounds the number of times its body runs,
    and [None] is a run that needs more, or one that reached
    [_get_entry] with an empty LRU list. *)
Fixpoint trace_inode_loop (fuel : nat) (k : kernel) (this_inode : inode)
    (this_dentry : nat) : option kernel :=
  match fuel with
  | O => None
  | S fuel' =>
      let '(t1, entry) := _lookup hash_min (inode_tracer k) this_inode in
      let k1 := set_inode_tracer k t1 in
      match entry with
      | Some _ => Some k1
      | None =>
          let parent_dentry := dget_parent vfs this_dentry in
          let parent_inode := d_inode vfs <$> parent_dentry in
          let k2 :=
            match parent_inode with
            | Some p =>
                if S_ISDIR (i_mode p) then
                  match fsm (inode_tracer k1) with
                  | Some m =>
                      if fsnotify_ops_inited k1
                      then _fs_add_mark k1 (group m) p
                      else k1
                  | None => k1
                  end
                else k1
            | None => k1
            end in
          let '(result, k3) :=
            _trace_filename k2 (s_dev this_inode) (i_ino this_inode)
              (from_option i_ino 0 parent_inode)
              (i_ctime this_inode)
              (from_option i_ctime zero_timespec parent_inode)
              (d_name vfs this_dentry) in
          k4 ← (if result =? 0
                then set_inode_tracer k3 <$>
                       _map hash_min (inode_tracer k3) this_inode
                else Some k3);
          match parent_inode, parent_dentry with
          | Some pi, Some pd => trace_inode_loop fuel' k4 pi pd
          | _, _ => Some k4
          end
      end
  end.

Definition iotrace_trace_inode (fuel : nat) (k : kernel) (this_inode : inode)
  : option kernel :=
  match d_find_alias vfs this_inode with
  | None => Some k
  | Some this_dentry => trace_inode_loop fuel k this_inode this_dentry
  end.

End Tracer.

(** * Properties of the marks *)

(** The group and the inode of a mark. *)
Definition mark_key (m : fsnotify_mark) : nat * (Z * Z) :=
  (mark_group m, mark_inode m).

(** No inode carries two marks of one group. *)
Definition marks_uniq (ms : list fsnotify_mark) : Prop :=
  NoDup (mark_key <$> ms).

Lemma find_mark_None ms i g :
  fsnotify_find_mark ms i g = None ↔
  (g, (s_dev i, i_ino i)) ∉ mark_key <$> ms.
Proof.
  unfold fsnotify_find_mark. induction ms as [|m ms IH]; simpl.
  - split; [|done]. intros _ H. by apply elem_of_nil in H.
  - rewrite not_elem_of_cons. case_bool_decide as Hd.
    + split; [done|]. intros [Hne _]. destruct Hne.
      unfold mark_key. destruct Hd as [-> ->]. done.
    + rewrite IH. split; [|tauto]. intros Hn. split; [|done].
      intros Hk. apply Hd. unfold mark_key in Hk.
      by injection Hk as <- <-.
Qed.

Lemma fs_add_mark_uniq AFE amr k g i :
  marks_uniq (marks k) → marks_uniq (marks (_fs_add_mark AFE amr k g i)).
Proof.
  intros Hu. unfold _fs_add_mark.
  destruct (fsnotify_find_mark (marks k) i g) eqn:Ef; [done|].
  destruct (amr i =? 0); [|done]. simpl.
  unfold marks_uniq. rewrite fmap_cons. apply NoDup_cons. split; [|done].
  by apply find_mark_None.
Qed.

Lemma fs_add_mark_grows AFE amr k g i :
  marks (_fs_add_mark AFE amr k g i) = marks k ∨
  (amr i = 0 ∧
   marks (_fs_add_mark AFE amr k g i) =
     {| mark_group := g; mark_inode := (s_dev i, i_ino i); mask := AFE |}
     :: marks k).
Proof.
  unfold _fs_add_mark. destruct (fsnotify_find_mark (marks k) i g); [by left|].
  destruct (amr i =? 0) eqn:E; [|by left].
  right. split; [by apply Z.eqb_eq|done].
Qed.

(** * Properties of the cache *)

(** ** Index lists *)

Lemma elem_of_list_del x e l : x ∈ list_del e l ↔ x ∈ l ∧ x ≠ e.
Proof. unfold list_del. rewrite list_elem_of_filter. tauto. Qed.

Lemma NoDup_list_del e l : NoDup l → NoDup (list_del e l).
Proof. apply NoDup_filter. Qed.

Lemma list_del_not_elem e l : e ∉ l → list_del e l = l.
Proof.
  unfold list_del. induction l as [|y l IH]; intros Hn; [done|].
  rewrite not_elem_of_cons in Hn. destruct Hn as [Hne Hn].
  rewrite filter_cons_True by congruence. by rewrite IH.
Qed.

Lemma list_del_snoc e l : e ∉ l → list_del e (l ++ [e]) = l.
Proof.
  intros Hn. unfold list_del. rewrite filter_app.
  fold (list_del e l). rewrite (list_del_not_elem _ _ Hn).
  rewrite filter_cons_False by tauto. by rewrite filter_nil, app_nil_r.
Qed.

Lemma elem_of_concat (x : nat) (ls : list (list nat)) :
  x ∈ concat ls ↔ ∃ l, x ∈ l ∧ l ∈ ls.
Proof.
  induction ls as [|l ls IH]; simpl.
  - split; [by intros ?%elem_of_nil|]. intros (l & _ & ?%elem_of_nil). done.
  - rewrite elem_of_app, IH. split.
    + intros [H|(l' & H1 & H2)]; [exists l|exists l']; split; auto;
        [left|by right].
    + intros (l' & H1 & H2). apply elem_of_cons in H2 as [->|H2]; [by left|].
      right. eauto.
Qed.

Lemma concat_hash_del e ht : concat (hash_del e ht) = list_del e (concat ht).
Proof.
  unfold hash_del, list_del. induction ht as [|l ht IH]; simpl; [done|].
  rewrite filter_app. by f_equal.
Qed.

Lemma elem_of_bucket ht b x : x ∈ bucket ht b → x ∈ concat ht.
Proof.
  unfold bucket. destruct (ht !! b) as [l|] eqn:E; simpl.
  - intros Hx. apply elem_of_concat. exists l. split; [done|].
    by eapply list_elem_of_lookup_2.
  - by intros ?%elem_of_nil.
Qed.

Lemma elem_of_concat_bucket ht x : x ∈ concat ht → ∃ b, x ∈ bucket ht b.
Proof.
  intros (l & Hx & Hl)%elem_of_concat.
  apply list_elem_of_lookup_1 in Hl as [b Hb].
  exists b. unfold bucket. by rewrite Hb.
Qed.

Lemma bucket_hash_del e ht b : bucket (hash_del e ht) b = list_del e (bucket ht b).
Proof.
  unfold bucket, hash_del. rewrite list_lookup_fmap.
  by destruct (ht !! b).
Qed.

Lemma bucket_alter_cons e h ht b :
  bucket (alter (cons e) h ht) b =
  if decide (b = h ∧ (h < length ht)%nat) then e :: bucket ht b
  else bucket ht b.
Proof.
  unfold bucket. destruct (decide (h = b)) as [->|Hne].
  - rewrite list_lookup_alter_eq. destruct (ht !! b) as [l|] eqn:E; simpl.
    + apply lookup_lt_Some in E. by rewrite decide_True.
    + apply lookup_ge_None in E. rewrite decide_False; [done|lia].
  - rewrite list_lookup_alter_ne by done. rewrite decide_False; [done|].
    intros [-> _]. done.
Qed.

Lemma concat_alter_cons e h (ht : list (list nat)) :
  (h < length ht)%nat → concat (alter (cons e) h ht) ≡ₚ e :: concat ht.
Proof.
  revert h. induction ht as [|l ht IH]; intros h Hh; simpl in *; [lia|].
  destruct h as [|h]; simpl; [done|].
  change (list_alter (cons e) h ht) with (alter (cons e) h ht).
  rewrite IH by lia. by rewrite Permutation_middle.
Qed.

Lemma NoDup_bounded_length (l : list nat) n :
  NoDup l → (∀ x, x ∈ l → (x < n)%nat) → (length l ≤ n)%nat.
Proof.
  intros Hnd Hb.
  assert (l ⊆+ seq 0 n) as Hs.
  { apply NoDup_submseteq; [done|]. intros x Hx. apply elem_of_seq.
    specialize (Hb x Hx). lia. }
  apply submseteq_length in Hs. by rewrite length_seq in Hs.
Qed.

Lemma alter_ge {A} (f : A → A) h (l : list A) :
  (length l ≤ h)%nat → alter f h l = l.
Proof.
  revert h. induction l as [|x l IH]; intros h Hh; [done|].
  destruct h as [|h]; simpl in *; [lia|].
  change (list_alter f h l) with (alter f h l). rewrite IH; [done|lia].
Qed.

Lemma create_lru_list (xs acc : list nat) :
  fold_left (λ l i, list_add i l) xs acc = reverse xs ++ acc.
Proof.
  revert acc. induction xs as [|x xs IH]; intros acc; simpl; [done|].
  rewrite IH, reverse_cons, <- app_assoc. done.
Qed.

Lemma concat_replicate_nil nb : concat (replicate nb (@nil nat)) = [].
Proof. induction nb; simpl; auto. Qed.

(** ** An LRU cache *)

(** The device and the inode number an entry stores. *)
Definition entry_identity (e : cache_entry) : Z * Z :=
  (device_id e, inode_id e).

(** What an LRU cache of [n] entries does, on the list of what it holds,
    the most recently used first: a lookup that finds number, device and
    ctime moves what it found to the front; a lookup that does not drops
    whatever has this number and device; an insertion puts the new entry in
    front and keeps the first [n]. *)
Definition lru_lookup (r : list cache_entry) (i : inode)
  : list cache_entry * bool :=
  if decide (entry_of i ∈ r)
  then (entry_of i :: filter (λ e, e ≠ entry_of i) r, true)
  else (filter (λ e, same_identity i e = false) r, false).

Definition lru_insert (n : nat) (r : list cache_entry) (i : inode)
  : list cache_entry :=
  take n (entry_of i :: r).

Lemma NoDup_fmap_elem_inj {A B} (f : A → B) (l : list A) x y :
  NoDup (f <$> l) → x ∈ l → y ∈ l → f x = f y → x = y.
Proof.
  induction l as [|a l IH]; intros Hnd Hx Hy E.
  - by apply elem_of_nil in Hx.
  - rewrite fmap_cons in Hnd. apply NoDup_cons in Hnd as [Hn Hnd].
    apply elem_of_cons in Hx as [->|Hx], Hy as [->|Hy].
    + done.
    + destruct Hn. rewrite E. by apply list_elem_of_fmap_2.
    + destruct Hn. rewrite <- E. by apply list_elem_of_fmap_2.
    + by apply IH.
Qed.

Lemma fmap_filter_iff {A B} (f : A → B) (P : A → Prop) (Q : B → Prop)
    `{!∀ x, Decision (P x)} `{!∀ y, Decision (Q y)} (l : list A) :
  (∀ x, x ∈ l → (P x ↔ Q (f x))) → f <$> filter P l = filter Q (f <$> l).
Proof.
  induction l as [|a l IH]; intros Hpq; [done|].
  rewrite fmap_cons, !filter_cons.
  assert (P a ↔ Q (f a)) as Ha by (apply Hpq; by left).
  assert (f <$> filter P l = filter Q (f <$> l)) as IH'
    by (apply IH; intros x Hx; apply Hpq; by right).
  destruct (decide (P a)), (decide (Q (f a))); try tauto.
  by rewrite fmap_cons, IH'.
Qed.

Lemma NoDup_fmap_filter {A B} (f : A → B) (P : A → Prop)
    `{!∀ x, Decision (P x)} (l : list A) :
  NoDup (f <$> l) → NoDup (f <$> filter P l).
Proof.
  induction l as [|a l IH]; [done|].
  rewrite fmap_cons, filter_cons. intros [Hn Hnd]%NoDup_cons.
  destruct (decide (P a)); [|by apply IH].
  rewrite fmap_cons. apply NoDup_cons. split; [|by apply IH].
  intros (y & E & Hy%list_elem_of_filter)%list_elem_of_fmap.
  apply Hn. rewrite E. apply list_elem_of_fmap_2. tauto.
Qed.

Lemma filter_all {A} (P : A → Prop) `{!∀ x, Decision (P x)} (l : list A) :
  (∀ x, x ∈ l → P x) → filter P l = l.
Proof.
  induction l as [|a l IH]; intros Hall; [done|].
  rewrite filter_cons_True by (apply Hall; by left).
  f_equal. apply IH. intros x Hx. apply Hall. by right.
Qed.

Lemma fmap_ext_in {A B} (f g : A → B) (l : list A) :
  (∀ x, x ∈ l → f x = g x) → f <$> l = g <$> l.
Proof.
  induction l as [|a l IH]; intros H; [done|].
  rewrite !fmap_cons. f_equal; [apply H; by left|].
  apply IH. intros x Hx. apply H. by right.
Qed.

Lemma same_identity_iff i e :
  same_identity i e = true ↔ entry_identity (entry_of i) = entry_identity e.
Proof.
  unfold same_identity, entry_identity, entry_of. simpl.
  rewrite andb_true_iff, !Z.eqb_eq. split.
  - by intros [-> ->].
  - by intros [= -> ->].
Qed.

(** ** The representation invariant *)

Definition live_mappings (t : iotrace_inode_tracer) : list nat :=
  concat (hash_table t).

Definition hashed (t : iotrace_inode_tracer) (x : nat) : Prop :=
  x ∈ live_mappings t.

Section CacheAndWalk.

Variable hash_min : Z → nat.

(** The number of entries of the arena. *)
Variable n : nat.

(** Every entry is on the LRU list once; the chains hold entries of the
    arena, each at most once, and each in the bucket of the inode number it
    stores. *)
Record cache_wf (t : iotrace_inode_tracer) : Prop := {
  wf_entries : length (entries t) = n;
  wf_lru_nodup : NoDup (lru_list t);
  wf_lru_all : ∀ i, i ∈ lru_list t ↔ (i < n)%nat;
  wf_hash_nodup : NoDup (live_mappings t);
  wf_hash_bound : ∀ x, hashed t x → (x < n)%nat;
  wf_hash_key : ∀ b x, x ∈ bucket (hash_table t) b →
                       hash_min (inode_id (entries t !!! x)) = b;
  wf_hash_range : ∀ key, (hash_min key < length (hash_table t))%nat
}.

Lemma wf_create nb m :
  (∀ key, (hash_min key < nb)%nat) → cache_wf (create_inode_tracer nb n m).
Proof.
  intros Hrange. unfold create_inode_tracer. split; simpl.
  - apply length_replicate.
  - rewrite create_lru_list, app_nil_r.
    eapply NoDup_Permutation_proper; [apply reverse_Permutation|apply NoDup_seq].
  - intros i. rewrite create_lru_list, app_nil_r, elem_of_reverse, elem_of_seq.
    lia.
  - unfold live_mappings; simpl. rewrite concat_replicate_nil. constructor.
  - unfold hashed, live_mappings; simpl. rewrite concat_replicate_nil.
    by intros x ?%elem_of_nil.
  - intros b x Hx. apply elem_of_bucket in Hx.
    rewrite concat_replicate_nil in Hx. by apply elem_of_nil in Hx.
  - intros key. by rewrite length_replicate.
Qed.

Lemma wf_set_hot t e : cache_wf t → (e < n)%nat → cache_wf (_set_hot t e).
Proof.
  intros [H1 H2 H3 H4 H5 H6 H7] He. split; simpl; auto.
  - unfold list_add. apply NoDup_cons. split.
    + rewrite elem_of_list_del. tauto.
    + by apply NoDup_list_del.
  - intros i. unfold list_add. rewrite elem_of_cons, elem_of_list_del, H3.
    destruct (decide (i = e)); subst; intuition lia.
Qed.

Lemma wf_remove_entry t e :
  cache_wf t → (e < n)%nat → cache_wf (_remove_entry t e).
Proof.
  intros [H1 H2 H3 H4 H5 H6 H7] He. split; simpl; auto.
  - unfold list_add_tail. apply NoDup_app. split_and!.
    + by apply NoDup_list_del.
    + intros x Hx%elem_of_list_del ?%list_elem_of_singleton. tauto.
    + apply NoDup_singleton.
  - intros i. unfold list_add_tail.
    rewrite elem_of_app, elem_of_list_del, list_elem_of_singleton, H3.
    destruct (decide (i = e)); subst; intuition lia.
  - unfold live_mappings; simpl. rewrite concat_hash_del.
    by apply NoDup_list_del.
  - unfold hashed, live_mappings; simpl. intros x.
    rewrite concat_hash_del, elem_of_list_del. intros [Hx _]. by apply H5.
  - intros b x. rewrite bucket_hash_del, elem_of_list_del.
    intros [Hx _]. by apply H6.
  - intros key. unfold hash_del. by rewrite length_fmap.
Qed.

Lemma wf_lru_last t :
  cache_wf t → (0 < n)%nat →
  ∃ l v, lru_list t = l ++ [v] ∧ (v ∉ l) ∧ (v < n)%nat.
Proof.
  intros Hwf Hn.
  destruct (last (lru_list t)) as [v|] eqn:E.
  - apply last_Some in E as [l E]. exists l, v. split; [done|].
    pose proof (wf_lru_nodup _ Hwf) as Hnd. rewrite E in Hnd.
    apply NoDup_app in Hnd as (_ & Hd & _). split.
    + intros Hv. apply (Hd v Hv). by apply list_elem_of_singleton.
    + apply (wf_lru_all _ Hwf). rewrite E, elem_of_app.
      right. by apply list_elem_of_singleton.
  - apply last_None in E. pose proof (proj2 (wf_lru_all _ Hwf 0%nat) Hn) as H0.
    rewrite E in H0. by apply elem_of_nil in H0.
Qed.

(** [_map] on a list that ends in [v]: [v] is the victim. *)
Lemma _map_victim t i l v :
  lru_list t = l ++ [v] → v ∉ l →
  _map hash_min t i =
  Some {| hash_table := hash_add hash_min (hash_del v (hash_table t)) v (i_ino i);
          lru_list := v :: l;
          entries := <[v := entry_of i]> (entries t);
          fsm := fsm t |}.
Proof.
  intros E Hv. unfold _map, _get_entry, list_last_entry.
  rewrite E, last_snoc. simpl. by rewrite list_del_snoc.
Qed.

Lemma wf_map_victim t i l v :
  cache_wf t → lru_list t = l ++ [v] →
  cache_wf {| hash_table := hash_add hash_min (hash_del v (hash_table t)) v (i_ino i);
              lru_list := v :: l;
              entries := <[v := entry_of i]> (entries t);
              fsm := fsm t |}.
Proof.
  intros [H1 H2 H3 H4 H5 H6 H7] E.
  assert ((v ∉ l) ∧ NoDup l) as [Hvl Hl].
  { rewrite E in H2. apply NoDup_app in H2 as (? & Hd & _). split; [|done].
    intros Hv. apply (Hd v Hv). by apply list_elem_of_singleton. }
  assert (v < n)%nat as Hv.
  { apply H3. rewrite E, elem_of_app. right. by apply list_elem_of_singleton. }
  assert (∀ x, x ∈ concat (hash_add hash_min (hash_del v (hash_table t)) v (i_ino i)) →
               x = v ∨ (x ≠ v ∧ hashed t x)) as Hmem.
  { intros x. unfold hash_add.
    destruct (decide (hash_min (i_ino i) < length (hash_del v (hash_table t)))%nat).
    - rewrite concat_alter_cons by done.
      rewrite elem_of_cons, concat_hash_del, elem_of_list_del. tauto.
    - rewrite alter_ge by lia. rewrite concat_hash_del, elem_of_list_del. tauto. }
  split; simpl.
  - by rewrite length_insert.
  - apply NoDup_cons. done.
  - intros i0. rewrite <- H3, E, elem_of_cons, elem_of_app, list_elem_of_singleton.
    tauto.
  - unfold live_mappings; simpl. unfold hash_add.
    destruct (decide (hash_min (i_ino i) < length (hash_del v (hash_table t)))%nat).
    + rewrite concat_alter_cons by done. apply NoDup_cons. split.
      * rewrite concat_hash_del, elem_of_list_del. tauto.
      * rewrite concat_hash_del. by apply NoDup_list_del.
    + rewrite alter_ge by lia. rewrite concat_hash_del. by apply NoDup_list_del.
  - intros x Hx. apply Hmem in Hx as [->|[_ Hx]]; auto.
  - intros b x. unfold hash_add. rewrite bucket_alter_cons.
    assert (x ∈ bucket (hash_del v (hash_table t)) b →
            hash_min (inode_id (<[v:=entry_of i]> (entries t) !!! x)) = b) as Hold.
    { rewrite bucket_hash_del, elem_of_list_del. intros [Hx Hne].
      rewrite list_lookup_total_insert_ne by done. by apply H6. }
    case_decide as Hd; [|done].
    intros [->|Hx]%elem_of_cons; [|by apply Hold].
    rewrite list_lookup_total_insert_eq by lia. simpl. by destruct Hd as [-> _].
  - intros key. unfold hash_add, hash_del. by rewrite length_alter, length_fmap.
Qed.

Lemma wf_map t i t' : cache_wf t → _map hash_min t i = Some t' → cache_wf t'.
Proof.
  intros Hwf Hm.
  destruct (last (lru_list t)) as [v|] eqn:E.
  - apply last_Some in E as [l E].
    assert (v ∉ l) as Hvl.
    { pose proof (wf_lru_nodup _ Hwf) as Hnd. rewrite E in Hnd.
      apply NoDup_app in Hnd as (_ & Hd & _).
      intros Hv. apply (Hd v Hv). by apply list_elem_of_singleton. }
    rewrite (_map_victim _ _ _ _ E Hvl) in Hm. injection Hm as <-.
    by apply wf_map_victim.
  - unfold _map, _get_entry, list_last_entry in Hm. by rewrite E in Hm.
Qed.

Lemma map_is_Some t i :
  cache_wf t → (0 < n)%nat → is_Some (_map hash_min t i).
Proof.
  intros Hwf Hn. destruct (wf_lru_last _ Hwf Hn) as (l & v & E & Hv & _).
  rewrite (_map_victim _ _ _ _ E Hv). eauto.
Qed.

(** ** Lookups *)

Definition full_match (i : inode) (e : cache_entry) : bool :=
  same_identity i e && same_ctime i e.

(** The entries of a chain that a lookup of [i] would find stale or hit. *)
Definition identity_in (t : iotrace_inode_tracer) (i : inode) (c : list nat)
  : list nat :=
  filter (λ x, same_identity i (entries t !!! x) = true) c.

Definition evict (stale : list nat) (t : iotrace_inode_tracer)
  : iotrace_inode_tracer :=
  fold_left _remove_entry stale t.

Lemma full_match_entry_of i e : full_match i e = true ↔ e = entry_of i.
Proof.
  unfold full_match, same_identity, same_ctime, entry_of.
  destruct e as [ino [s ns] dev], i as [iino idev imode [s' ns']]; simpl.
  rewrite !andb_true_iff, !Z.eqb_eq. split.
  - intros [[-> ->] [-> ->]]. done.
  - intros H. injection H as -> -> -> ->. done.
Qed.

Lemma same_identity_entry_of i j :
  same_identity i (entry_of j) = true ↔ i_ino i = i_ino j ∧ s_dev i = s_dev j.
Proof.
  unfold same_identity, entry_of; simpl.
  by rewrite andb_true_iff, !Z.eqb_eq.
Qed.

Lemma same_identity_hash i e :
  same_identity i e = true → inode_id e = i_ino i.
Proof.
  unfold same_identity. rewrite andb_true_iff, !Z.eqb_eq. by intros [-> _].
Qed.

Lemma evict_hashed S t x : hashed (evict S t) x ↔ hashed t x ∧ x ∉ S.
Proof.
  unfold evict, hashed, live_mappings. revert t.
  induction S as [|e S IH]; intros t; simpl.
  - rewrite elem_of_nil. tauto.
  - rewrite IH. simpl. rewrite concat_hash_del, elem_of_list_del.
    rewrite not_elem_of_cons. tauto.
Qed.

Lemma wf_lru_length t : cache_wf t → length (lru_list t) = n.
Proof.
  intros Hwf.
  assert (lru_list t ≡ₚ seq 0 n) as Hp.
  { apply NoDup_Permutation.
    - apply (wf_lru_nodup _ Hwf).
    - apply NoDup_seq.
    - intros x. rewrite (wf_lru_all _ Hwf), elem_of_seq. lia. }
  by rewrite Hp, length_seq.
Qed.

(** Entries ahead of the stale ones on the LRU list stay where they are. *)
Lemma evict_lru_prefix S t pre rest :
  lru_list t = pre ++ rest → (∀ x, x ∈ pre → x ∉ S) →
  ∃ rest', lru_list (evict S t) = pre ++ rest'.
Proof.
  unfold evict. revert t rest. induction S as [|e S IH]; intros t rest E Hp; simpl.
  - eauto.
  - assert (e ∉ pre) as He.
    { intros He. apply (Hp e He). by left. }
    apply (IH (_remove_entry t e) (list_add_tail e (list_del e rest))).
    + simpl. rewrite E. unfold list_add_tail, list_del.
      rewrite filter_app. fold (list_del e pre).
      rewrite (list_del_not_elem _ _ He). by rewrite app_assoc.
    + intros x Hx Hx'. apply (Hp x Hx). by right.
Qed.

Lemma lookup_chain_miss t i c :
  (∀ x, x ∈ c → full_match i (entries t !!! x) = false) →
  _lookup_chain t i c = (evict (identity_in t i c) t, None).
Proof.
  unfold evict, identity_in. revert t.
  induction c as [|e c IH]; intros t Hc; simpl; [done|].
  pose proof (Hc e ltac:(by left)) as He. unfold full_match in He.
  destruct (same_identity i (entries t !!! e)) eqn:Hid; simpl in He.
  - rewrite He. rewrite filter_cons_True by done. simpl.
    apply (IH (_remove_entry t e)). intros x Hx. simpl. apply Hc. by right.
  - rewrite filter_cons_False by congruence.
    apply IH. intros x Hx. apply Hc. by right.
Qed.

Lemma lookup_chain_Some t i c t' e :
  _lookup_chain t i c = (t', Some e) →
  e ∈ c ∧ full_match i (entries t !!! e) = true.
Proof.
  revert t. induction c as [|x c IH]; intros t; simpl; [done|].
  destruct (same_identity i (entries t !!! x)) eqn:Hid.
  - destruct (same_ctime i (entries t !!! x)) eqn:Hct.
    + intros [= <- <-]. split; [by left|]. unfold full_match. by rewrite Hid, Hct.
    + intros [H1 H2]%IH. split; [by right|done].
  - intros [H1 H2]%IH. split; [by right|done].
Qed.

Lemma lookup_chain_None t i c :
  snd (_lookup_chain t i c) = None ↔
  ∀ x, x ∈ c → full_match i (entries t !!! x) = false.
Proof.
  split.
  - revert t. induction c as [|e c IH]; intros t; simpl.
    + by intros _ x ?%elem_of_nil.
    + unfold full_match.
      destruct (same_identity i (entries t !!! e)) eqn:Hid.
      * destruct (same_ctime i (entries t !!! e)) eqn:Hct; [done|].
        intros H x [->|Hx]%elem_of_cons.
        -- by rewrite Hid, Hct.
        -- apply (IH _ H x Hx).
      * intros H x [->|Hx]%elem_of_cons.
        -- by rewrite Hid.
        -- apply (IH _ H x Hx).
  - intros H. by rewrite lookup_chain_miss.
Qed.

Lemma lookup_chain_entries t i c :
  entries (fst (_lookup_chain t i c)) = entries t.
Proof.
  revert t. induction c as [|e c IH]; intros t; simpl; [done|].
  destruct (same_identity i (entries t !!! e)); [|apply IH].
  destruct (same_ctime i (entries t !!! e)); [done|].
  by rewrite IH.
Qed.

Lemma lookup_chain_fsm t i c : fsm (fst (_lookup_chain t i c)) = fsm t.
Proof.
  revert t. induction c as [|e c IH]; intros t; simpl; [done|].
  destruct (same_identity i (entries t !!! e)); [|apply IH].
  destruct (same_ctime i (entries t !!! e)); [done|].
  by rewrite IH.
Qed.

Lemma lookup_chain_wf t i c :
  cache_wf t → (∀ x, x ∈ c → (x < n)%nat) →
  cache_wf (fst (_lookup_chain t i c)).
Proof.
  revert t. induction c as [|e c IH]; intros t Hwf Hc; simpl; [done|].
  assert (e < n)%nat as He by (apply Hc; by left).
  assert (∀ x, x ∈ c → (x < n)%nat) as Hc' by (intros x Hx; apply Hc; by right).
  destruct (same_identity i (entries t !!! e)); [|by apply IH].
  destruct (same_ctime i (entries t !!! e)); simpl.
  - by apply wf_set_hot.
  - apply IH; [|done]. by apply wf_remove_entry.
Qed.

(** A lookup removes chain members only. *)
Lemma lookup_chain_bucket t i c b x :
  x ∈ bucket (hash_table (fst (_lookup_chain t i c))) b →
  x ∈ bucket (hash_table t) b.
Proof.
  revert t. induction c as [|e c IH]; intros t; simpl; [done|].
  destruct (same_identity i (entries t !!! e)); [|apply IH].
  destruct (same_ctime i (entries t !!! e)); simpl; [done|].
  intros Hx%IH. simpl in Hx. rewrite bucket_hash_del, elem_of_list_del in Hx.
  tauto.
Qed.

Lemma bucket_bound t b x :
  cache_wf t → x ∈ bucket (hash_table t) b → (x < n)%nat.
Proof. intros Hwf Hx. apply (wf_hash_bound _ Hwf). by eapply elem_of_bucket. Qed.

Lemma hashed_bucket t x :
  cache_wf t → hashed t x →
  x ∈ bucket (hash_table t) (hash_min (inode_id (entries t !!! x))).
Proof.
  intros Hwf [b Hb]%elem_of_concat_bucket.
  by rewrite (wf_hash_key _ Hwf b x Hb).
Qed.

Lemma hashed_identity_chain t i x :
  cache_wf t → hashed t x → same_identity i (entries t !!! x) = true →
  x ∈ bucket (hash_table t) (hash_min (i_ino i)).
Proof.
  intros Hwf Hx Hid. rewrite <- (same_identity_hash _ _ Hid).
  by apply hashed_bucket.
Qed.

Lemma lookup_wf t i : cache_wf t → cache_wf (fst (_lookup hash_min t i)).
Proof.
  intros Hwf. apply lookup_chain_wf; [done|].
  intros x Hx. by eapply bucket_bound.
Qed.

Lemma lookup_entries t i : entries (fst (_lookup hash_min t i)) = entries t.
Proof. apply lookup_chain_entries. Qed.

Lemma lookup_fsm t i : fsm (fst (_lookup hash_min t i)) = fsm t.
Proof. apply lookup_chain_fsm. Qed.

(** The cache holds inode [i]: some chained entry stores its number, device
    and ctime. *)
Definition cached (t : iotrace_inode_tracer) (i : inode) : Prop :=
  ∃ x, hashed t x ∧ entries t !!! x = entry_of i.

(** A lookup is a hit exactly for the inodes the cache holds. *)
Lemma lookup_None_iff t i :
  cache_wf t → snd (_lookup hash_min t i) = None ↔ ¬ cached t i.
Proof.
  intros Hwf. unfold _lookup. rewrite lookup_chain_None. split.
  - intros H (x & Hx & Ex).
    assert (full_match i (entries t !!! x) = true) as Hm
      by by apply full_match_entry_of.
    rewrite H in Hm; [done|]. apply hashed_identity_chain; [done..|].
    unfold full_match in Hm. by apply andb_true_iff in Hm as [? _].
  - intros H x Hx. destruct (full_match i (entries t !!! x)) eqn:Hm; [|done].
    destruct H. exists x. split.
    + by eapply elem_of_bucket.
    + by apply full_match_entry_of.
Qed.

Lemma lookup_hit_iff t i :
  cache_wf t → is_Some (snd (_lookup hash_min t i)) ↔ cached t i.
Proof.
  intros Hwf. split.
  - intros [e He]. unfold _lookup in He.
    destruct (_lookup_chain t i _) as [t' r] eqn:E. simpl in He. subst r.
    apply lookup_chain_Some in E as [Hc Hm]. exists e. split.
    + by eapply elem_of_bucket.
    + by apply full_match_entry_of.
  - intros Hc. destruct (snd (_lookup hash_min t i)) eqn:E; [eauto|].
    by apply lookup_None_iff in E.
Qed.

Lemma lookup_hashed_sub t i x :
  hashed (fst (_lookup hash_min t i)) x → hashed t x.
Proof.
  intros [b Hb]%elem_of_concat_bucket. apply lookup_chain_bucket in Hb.
  by eapply elem_of_bucket.
Qed.

Lemma lookup_miss_eq t i :
  cache_wf t → ¬ cached t i →
  _lookup hash_min t i =
  (evict (identity_in t i (bucket (hash_table t) (hash_min (i_ino i)))) t, None).
Proof.
  intros Hwf Hc. apply lookup_None_iff in Hc; [|done].
  unfold _lookup in *. by apply lookup_chain_miss, lookup_chain_None.
Qed.

(** After a miss no chained entry has the identity looked up, and the other
    chained entries are the ones chained before. *)
Lemma lookup_miss_hashed t i x :
  cache_wf t → ¬ cached t i →
  hashed (fst (_lookup hash_min t i)) x ↔
  hashed t x ∧ same_identity i (entries t !!! x) = false.
Proof.
  intros Hwf Hc. rewrite lookup_miss_eq by done. simpl.
  rewrite evict_hashed. unfold identity_in. rewrite list_elem_of_filter. split.
  - intros [Hx Hn]. split; [done|].
    destruct (same_identity i (entries t !!! x)) eqn:Hid; [|done].
    destruct Hn. split; [done|]. by apply hashed_identity_chain.
  - intros [Hx Hid]. split; [done|]. rewrite Hid. by intros [? _].
Qed.

Lemma lookup_miss_lru_prefix t i pre rest :
  cache_wf t → ¬ cached t i → lru_list t = pre ++ rest →
  (∀ x, x ∈ pre → same_identity i (entries t !!! x) = false) →
  ∃ rest', lru_list (fst (_lookup hash_min t i)) = pre ++ rest'.
Proof.
  intros Hwf Hc E Hp. rewrite lookup_miss_eq by done. simpl.
  apply (evict_lru_prefix _ _ _ _ E). intros x Hx. unfold identity_in.
  rewrite list_elem_of_filter. rewrite (Hp x Hx). by intros [? _].
Qed.

(** A lookup of an identity no chained entry has leaves the cache as it
    is. *)
Lemma lookup_clean_miss t i :
  (∀ x, hashed t x → same_identity i (entries t !!! x) = false) →
  _lookup hash_min t i = (t, None).
Proof.
  intros H. unfold _lookup.
  assert (∀ c, (∀ x, x ∈ c → hashed t x) → _lookup_chain t i c = (t, None)) as Hc.
  { induction c as [|e c IH]; intros Hin; simpl; [done|].
    rewrite (H e) by (apply Hin; by left). apply IH.
    intros x Hx. apply Hin. by right. }
  apply Hc. intros x Hx. by eapply elem_of_bucket.
Qed.

(** A lookup whose only candidate is a full match promotes it and changes
    nothing else. *)
Lemma lookup_clean_hit t i e :
  cache_wf t → hashed t e → entries t !!! e = entry_of i →
  (∀ x, hashed t x → same_identity i (entries t !!! x) = true → x = e) →
  _lookup hash_min t i = (_set_hot t e, Some e).
Proof.
  intros Hwf He Ee Hu. unfold _lookup.
  assert (full_match i (entries t !!! e) = true) as Hm
    by by apply full_match_entry_of.
  unfold full_match in Hm. apply andb_true_iff in Hm as [Hid Hct].
  assert (e ∈ bucket (hash_table t) (hash_min (i_ino i))) as Hin
    by by apply hashed_identity_chain.
  assert (∀ x, x ∈ bucket (hash_table t) (hash_min (i_ino i)) → hashed t x) as Hsub
    by (intros x Hx; by eapply elem_of_bucket).
  revert Hin Hsub. generalize (bucket (hash_table t) (hash_min (i_ino i))).
  induction l as [|x c IH]; intros Hin Hsub; simpl.
  - by apply elem_of_nil in Hin.
  - destruct (same_identity i (entries t !!! x)) eqn:Hx.
    + assert (x = e) as -> by (apply Hu; [apply Hsub; by left|done]).
      by rewrite Hct.
    + apply IH.
      * apply elem_of_cons in Hin as [->|Hin]; [congruence|done].
      * intros y Hy. apply Hsub. by right.
Qed.

Lemma NoDup_bucket (ht : list (list nat)) b :
  NoDup (concat ht) → NoDup (bucket ht b).
Proof.
  unfold bucket. revert b. induction ht as [|l ht IH]; intros b Hnd; simpl.
  - constructor.
  - simpl in Hnd. apply NoDup_app in Hnd as (Hl & _ & Hr).
    destruct b as [|b]; simpl; [done|]. by apply IH.
Qed.

Lemma filter_none (P : nat → Prop) `{∀ x, Decision (P x)} (c : list nat) :
  (∀ x, x ∈ c → ¬ P x) → filter P c = [].
Proof.
  induction c as [|x c IH]; intros Hn; [done|].
  rewrite filter_cons_False by (apply Hn; by left).
  apply IH. intros y Hy. apply Hn. by right.
Qed.

Lemma filter_unique (P : nat → Prop) `{∀ x, Decision (P x)} (c : list nat) e :
  NoDup c → e ∈ c → P e → (∀ x, x ∈ c → P x → x = e) → filter P c = [e].
Proof.
  induction c as [|x c IH]; intros Hnd Hin He Hu.
  - by apply elem_of_nil in Hin.
  - apply NoDup_cons in Hnd as [Hx Hnd].
    destruct (decide (x = e)) as [->|Hne].
    + rewrite filter_cons_True by done. f_equal. apply filter_none.
      intros y Hy Py. assert (y = e) as -> by (apply Hu; [by right|done]). done.
    + rewrite filter_cons_False.
      * apply IH; [done| |done|].
        -- apply elem_of_cons in Hin as [->|Hin]; [done|done].
        -- intros y Hy. apply Hu. by right.
      * intros Px. apply Hne, Hu; [by left|done].
Qed.

(** A lookup whose only candidate has another ctime removes it. *)
Lemma lookup_stale t i e :
  cache_wf t → hashed t e →
  same_identity i (entries t !!! e) = true →
  same_ctime i (entries t !!! e) = false →
  (∀ x, hashed t x → same_identity i (entries t !!! x) = true → x = e) →
  _lookup hash_min t i = (_remove_entry t e, None).
Proof.
  intros Hwf He Hid Hct Hu.
  assert (¬ cached t i) as Hc.
  { intros (x & Hx & Ex).
    assert (full_match i (entries t !!! x) = true) as Hm
      by by apply full_match_entry_of.
    unfold full_match in Hm. apply andb_true_iff in Hm as [Hid' Hct'].
    assert (x = e) as -> by by apply Hu. congruence. }
  rewrite lookup_miss_eq by done. unfold identity_in.
  rewrite (filter_unique _ _ e); [done| | | |].
  - apply NoDup_bucket, (wf_hash_nodup _ Hwf).
  - by apply hashed_identity_chain.
  - done.
  - intros x Hx. apply Hu. by eapply elem_of_bucket.
Qed.

Lemma map_victim_hashed t i l v x :
  cache_wf t → lru_list t = l ++ [v] →
  x ∈ concat (hash_add hash_min (hash_del v (hash_table t)) v (i_ino i)) ↔
  x = v ∨ (hashed t x ∧ x ≠ v).
Proof.
  intros Hwf E. unfold hash_add. rewrite concat_alter_cons.
  - rewrite elem_of_cons, concat_hash_del, elem_of_list_del. done.
  - unfold hash_del. rewrite length_fmap. apply (wf_hash_range _ Hwf).
Qed.

(** What an insertion does to a well-formed cache. *)
Lemma map_spec t i :
  cache_wf t → (0 < n)%nat →
  ∃ l v t', lru_list t = l ++ [v] ∧ (v < n)%nat ∧ (v ∉ l) ∧
    _map hash_min t i = Some t' ∧
    cache_wf t' ∧
    lru_list t' = v :: l ∧
    entries t' = <[v := entry_of i]> (entries t) ∧
    fsm t' = fsm t ∧
    (∀ x, hashed t' x ↔ x = v ∨ (hashed t x ∧ x ≠ v)).
Proof.
  intros Hwf Hn. destruct (wf_lru_last _ Hwf Hn) as (l & v & E & Hv & Hvn).
  exists l, v. eexists. split_and!; [done|done|done| |..].
  - by apply _map_victim.
  - by apply wf_map_victim.
  - done.
  - done.
  - done.
  - intros x. unfold hashed, live_mappings; simpl. by eapply map_victim_hashed.
Qed.

(** ** One entry per identity *)

Definition cache_uniq (t : iotrace_inode_tracer) : Prop :=
  ∀ x y, hashed t x → hashed t y →
         inode_id (entries t !!! x) = inode_id (entries t !!! y) →
         device_id (entries t !!! x) = device_id (entries t !!! y) →
         x = y.

Lemma uniq_create nb m : cache_uniq (create_inode_tracer nb n m).
Proof.
  intros x y Hx. unfold hashed, live_mappings in Hx; simpl in Hx.
  rewrite concat_replicate_nil in Hx. by apply elem_of_nil in Hx.
Qed.

Lemma uniq_lookup t i : cache_uniq t → cache_uniq (fst (_lookup hash_min t i)).
Proof.
  intros Hu x y Hx%lookup_hashed_sub Hy%lookup_hashed_sub.
  rewrite lookup_entries. by apply Hu.
Qed.

Lemma uniq_map_after_miss t i t1 t2 :
  cache_wf t → (0 < n)%nat → cache_uniq t →
  _lookup hash_min t i = (t1, None) → _map hash_min t1 i = Some t2 →
  cache_uniq t2.
Proof.
  intros Hwf Hn Hu Hl Hm.
  assert (¬ cached t i) as Hc.
  { apply lookup_None_iff; [done|]. by rewrite Hl. }
  assert (t1 = fst (_lookup hash_min t i)) as Ht1 by by rewrite Hl.
  assert (cache_wf t1) as Hwf1 by (subst t1; by apply lookup_wf).
  assert (cache_uniq t1) as Hu1 by (subst t1; by apply uniq_lookup).
  assert (∀ x, hashed t1 x → same_identity i (entries t1 !!! x) = false) as Hfree.
  { intros x Hx. subst t1. rewrite lookup_entries.
    by apply lookup_miss_hashed in Hx as [_ ?]. }
  destruct (map_spec t1 i Hwf1 Hn) as (l & v & t' & E & Hv & Hvl & Hm' & Hwf' & El & Ee & _ & Hh).
  rewrite Hm in Hm'. injection Hm' as <-.
  assert (∀ y, hashed t1 y → y ≠ v →
               inode_id (entries t2 !!! v) = inode_id (entries t2 !!! y) →
               device_id (entries t2 !!! v) = device_id (entries t2 !!! y) →
               False) as Hnew.
  { intros y Hy Hne. rewrite Ee.
    rewrite list_lookup_total_insert_eq by (rewrite (wf_entries _ Hwf1); lia).
    rewrite list_lookup_total_insert_ne by done. simpl. intros H1 H2.
    specialize (Hfree y Hy). unfold same_identity in Hfree.
    rewrite H1, H2, !Z.eqb_refl in Hfree. done. }
  intros x y [->|[Hx Hxv]]%Hh [->|[Hy Hyv]]%Hh; [done|..].
  - intros H1 H2. exfalso. by eapply Hnew.
  - intros H1 H2. exfalso. by eapply (Hnew x).
  - rewrite Ee, !list_lookup_total_insert_ne by done. by apply Hu1.
Qed.

(** ** Insertions into a new cache *)

(** The identity of an inode: its device and its number. *)
Definition identity (i : inode) : Z * Z := (s_dev i, i_ino i).

(** Insertions one after the other, with no lookup in between. *)
Fixpoint map_all (t : iotrace_inode_tracer) (ks : list inode)
  : option iotrace_inode_tracer :=
  match ks with
  | [] => Some t
  | k :: ks => t' ← _map hash_min t k; map_all t' ks
  end.

Lemma map_all_snoc t ks k :
  map_all t (ks ++ [k]) = t' ← map_all t ks; _map hash_min t' k.
Proof.
  revert t. induction ks as [|k0 ks IH]; intros t; simpl.
  - by destruct (_map hash_min t k).
  - destruct (_map hash_min t k0); simpl; [apply IH|done].
Qed.

Lemma map_all_one t k : map_all t [k] = _map hash_min t k.
Proof. simpl. by destruct (_map hash_min t k). Qed.

Lemma entry_of_identity a b : entry_of a = entry_of b → identity a = identity b.
Proof. unfold entry_of, identity. intros [= -> _ ->]. done. Qed.

(** The first [length ks] insertions fill the entries [0], [1], ... in this
    order, and the LRU list keeps the unused entries behind them. *)
Lemma fresh_inserts nb m ks :
  (∀ key, (hash_min key < nb)%nat) → (length ks ≤ n)%nat →
  ∃ t, map_all (create_inode_tracer nb n m) ks = Some t ∧
       cache_wf t ∧
       lru_list t = reverse (seq 0 (length ks)) ++
                    reverse (seq (length ks) (n - length ks)) ∧
       entries t = (entry_of <$> ks) ++ replicate (n - length ks) zero_entry ∧
       (∀ x, hashed t x ↔ (x < length ks)%nat).
Proof.
  intros Hrange. induction ks as [|k ks IH] using rev_ind; intros Hlen.
  - eexists. split; [done|]. split; [by apply wf_create|]. simpl. split_and!.
    + by rewrite create_lru_list, app_nil_r, Nat.sub_0_r.
    + by rewrite Nat.sub_0_r.
    + intros x. unfold hashed, live_mappings; simpl.
      rewrite concat_replicate_nil, elem_of_nil. lia.
  - rewrite length_app in *. simpl in *.
    destruct IH as (t & Hm & Hwf & El & Ee & Hh); [lia|].
    set (m' := length ks) in *.
    set (l := reverse (seq 0 m') ++ reverse (seq (S m') (n - S m'))).
    assert (lru_list t = l ++ [m']) as E.
    { rewrite El. unfold l. replace (n - m')%nat with (S (n - S m')) by lia.
      simpl. by rewrite reverse_cons, app_assoc. }
    assert (m' ∉ l) as Hv.
    { unfold l. rewrite elem_of_app, !elem_of_reverse, !elem_of_seq. lia. }
    eexists. split; [|split_and!].
    + rewrite map_all_snoc, Hm. simpl. by apply _map_victim.
    + by apply wf_map_victim.
    + simpl. replace (m' + 1)%nat with (S m') by lia.
      rewrite seq_S, reverse_snoc. done.
    + simpl. rewrite Ee. replace (n - m')%nat with (S (n - S m')) by lia.
      replace (n - (m' + 1))%nat with (n - S m')%nat by lia.
      rewrite insert_app_r_alt by (rewrite length_fmap; fold m'; lia).
      rewrite length_fmap. fold m'. rewrite Nat.sub_diag. simpl.
      rewrite fmap_app, <- app_assoc. done.
    + intros x. unfold hashed at 1, live_mappings; simpl.
      rewrite (map_victim_hashed _ _ _ _ _ Hwf E), Hh. lia.
Qed.

(** One insertion more than the arena has entries evicts the first key and
    no other. *)
Lemma overflow_evicts_first nb m k0 rest :
  (∀ key, (hash_min key < nb)%nat) → (0 < n)%nat →
  length (k0 :: rest) = S n → NoDup (identity <$> k0 :: rest) →
  ∃ t, map_all (create_inode_tracer nb n m) (k0 :: rest) = Some t ∧
       cache_wf t ∧
       snd (_lookup hash_min t k0) = None ∧
       ∀ k, k ∈ rest → is_Some (snd (_lookup hash_min t k)).
Proof.
  intros Hrange Hn Hlen Hnd.
  destruct (last (k0 :: rest)) as [kl|] eqn:Hlast; [|by apply last_None in Hlast].
  apply last_Some in Hlast as [ks' Eks].
  assert (length ks' = n) as Hlen'.
  { rewrite Eks, length_app in Hlen. simpl in Hlen. lia. }
  destruct (fresh_inserts nb m ks' Hrange ltac:(lia))
    as (t & Hm & Hwf & El & Ee & Hh).
  rewrite Hlen', Nat.sub_diag in El, Ee. simpl in El, Ee.
  rewrite app_nil_r in El, Ee.
  assert (lru_list t = reverse (seq 1 (n - 1)) ++ [0%nat]) as E.
  { rewrite El. replace n with (S (n - 1)) at 1 by lia. simpl.
    by rewrite reverse_cons. }
  assert (0%nat ∉ reverse (seq 1 (n - 1))) as Hv.
  { rewrite elem_of_reverse, elem_of_seq. lia. }
  set (t' := {| hash_table := hash_add hash_min (hash_del 0 (hash_table t)) 0 (i_ino kl);
                lru_list := 0%nat :: reverse (seq 1 (n - 1));
                entries := <[0%nat := entry_of kl]> (entries t);
                fsm := fsm t |}).
  assert (cache_wf t') as Hwf' by by apply wf_map_victim.
  assert (∀ x, hashed t' x ↔ (x < n)%nat) as Hh'.
  { intros x. unfold hashed at 1, live_mappings; simpl.
    rewrite (map_victim_hashed _ _ _ _ _ Hwf E), Hh, Hlen'.
    destruct (decide (x = 0%nat)); subst; intuition lia. }
  (* the key each entry holds, as an index into the keys inserted *)
  assert (∀ x, (x < n)%nat →
               ∃ j k, (j ≠ 0)%nat ∧ (j = n ↔ x = 0%nat) ∧ (x ≠ 0%nat → j = x) ∧
                      (k0 :: rest) !! j = Some k ∧
                      entries t' !!! x = entry_of k) as Hslot.
  { intros x Hx. destruct (decide (x = 0%nat)) as [->|Hx0].
    - exists n, kl. split_and!; [lia|done|done| |].
      + rewrite Eks, lookup_app_r by lia. by rewrite Hlen', Nat.sub_diag.
      + simpl. rewrite list_lookup_total_insert_eq; [done|].
        rewrite (wf_entries _ Hwf). lia.
    - destruct (lookup_lt_is_Some_2 ks' x ltac:(lia)) as [k Hk].
      exists x, k. split_and!; [done|lia|done| |].
      + rewrite Eks. by apply lookup_app_l_Some.
      + simpl. rewrite list_lookup_total_insert_ne by done.
        apply list_lookup_total_correct. by rewrite Ee, list_lookup_fmap, Hk. }
  exists t'. split_and!.
  - rewrite Eks, map_all_snoc, Hm. simpl. by apply _map_victim.
  - done.
  - apply lookup_None_iff; [done|]. intros (x & Hx%Hh' & Ex).
    destruct (Hslot x Hx) as (j & k & Hj & _ & _ & Hk & Ek).
    rewrite Ek in Ex. apply entry_of_identity in Ex.
    apply Hj. eapply (NoDup_lookup _ j 0%nat (identity k0) Hnd).
    + rewrite list_lookup_fmap, Hk. simpl. by rewrite Ex.
    + done.
  - intros k [j' Hj']%list_elem_of_lookup_1. apply lookup_hit_iff; [done|].
    assert (S j' < S n)%nat as Hjn.
    { apply lookup_lt_Some in Hj'. simpl in Hlen. lia. }
    set (x := if decide (S j' = n) then 0%nat else S j').
    assert (x < n)%nat as Hx by (unfold x; case_decide; lia).
    exists x. split; [by apply Hh'|].
    destruct (Hslot x Hx) as (j & k' & Hj & Hjx & Hjx' & Hk & Ek).
    rewrite Ek. f_equal.
    assert (j = S j') as ->.
    { unfold x in *. case_decide as Hd.
      - rewrite Hd. by apply Hjx.
      - by apply Hjx'. }
    simpl in Hk. congruence.
Qed.

(** Entry [x] is chained and stores inode [j]. *)
Definition holds (t : iotrace_inode_tracer) (x : nat) (j : inode) : Prop :=
  hashed t x ∧ entries t !!! x = entry_of j.

(** C3. In a cache with one entry per identity, a lookup that finds the
    identity with another ctime is a miss; it takes the stale entry [e] off
    its chain and puts it last on the LRU list, so the insertion that follows
    takes [e] as its victim: every other entry stays chained and keeps what
    it stores. *)
Theorem stale_entry_is_reused t i e :
  cache_wf t → cache_uniq t → hashed t e →
  same_identity i (entries t !!! e) = true →
  same_ctime i (entries t !!! e) = false →
  ∃ t1 t2,
    _lookup hash_min t i = (t1, None) ∧
    hash_table t1 = hash_del e (hash_table t) ∧
    ¬ hashed t1 e ∧
    lru_list t1 = list_del e (lru_list t) ++ [e] ∧
    _map hash_min t1 i = Some t2 ∧
    lru_list t2 = e :: list_del e (lru_list t) ∧
    entries t2 = <[e := entry_of i]> (entries t) ∧
    holds t2 e i ∧
    (∀ x, x ≠ e → (hashed t2 x ↔ hashed t x)).
Proof.
  intros Hwf Hu He Hid Hct.
  assert (e < n)%nat as Hen by by apply (wf_hash_bound _ Hwf).
  assert (∀ x, hashed t x → same_identity i (entries t !!! x) = true → x = e)
    as Hone.
  { intros x Hx Hidx. apply Hu; [done..| |].
    - apply same_identity_hash in Hid, Hidx. congruence.
    - unfold same_identity in Hid, Hidx.
      apply andb_true_iff in Hid as [_ Hid%Z.eqb_eq].
      apply andb_true_iff in Hidx as [_ Hidx%Z.eqb_eq]. congruence. }
  pose proof (wf_remove_entry _ _ Hwf Hen) as Hwf1.
  assert (e ∉ list_del e (lru_list t)) as Hnot.
  { rewrite elem_of_list_del. tauto. }
  assert (∀ x, hashed (_remove_entry t e) x ↔ hashed t x ∧ x ≠ e) as Hh1.
  { intros x. unfold hashed, live_mappings; simpl.
    by rewrite concat_hash_del, elem_of_list_del. }
  exists (_remove_entry t e). eexists. split_and!.
  - by apply lookup_stale.
  - done.
  - rewrite Hh1. tauto.
  - done.
  - by apply (_map_victim _ _ (list_del e (lru_list t)) e).
  - done.
  - done.
  - split; simpl.
    + unfold hashed, live_mappings; simpl.
      apply (map_victim_hashed _ i (list_del e (lru_list t)) e e Hwf1 eq_refl).
      by left.
    + rewrite list_lookup_total_insert_eq; [done|].
      by rewrite (wf_entries _ Hwf).
  - intros x Hx. unfold hashed at 1, live_mappings; simpl.
    rewrite (map_victim_hashed _ i (list_del e (lru_list t)) e x Hwf1 eq_refl).
    rewrite Hh1. tauto.
Qed.

(** The states of the cache: the new one, and what insertions and lookups
    make of it. *)
Inductive cache_reachable (nb : nat) (m : option fs_monitor)
  : iotrace_inode_tracer → Prop :=
  | reach_create : cache_reachable nb m (create_inode_tracer nb n m)
  | reach_map t i t' :
      cache_reachable nb m t → _map hash_min t i = Some t' →
      cache_reachable nb m t'
  | reach_lookup t i :
      cache_reachable nb m t →
      cache_reachable nb m (fst (_lookup hash_min t i)).

Lemma reachable_wf nb m t :
  (∀ key, (hash_min key < nb)%nat) → cache_reachable nb m t → cache_wf t.
Proof.
  intros Hrange. induction 1 as [|t i t' _ IH Hm|t i _ IH].
  - by apply wf_create.
  - by eapply wf_map.
  - by apply lookup_wf.
Qed.

Lemma wf_live_bound t : cache_wf t → (length (live_mappings t) ≤ n)%nat.
Proof.
  intros Hwf. apply NoDup_bounded_length.
  - apply (wf_hash_nodup _ Hwf).
  - apply (wf_hash_bound _ Hwf).
Qed.

(** ** What lookups and insertions keep *)

Lemma lookup_chain_Some_head t i c t' e :
  _lookup_chain t i c = (t', Some e) → head (lru_list t') = Some e.
Proof.
  revert t. induction c as [|x c IH]; intros t; simpl; [done|].
  destruct (same_identity i (entries t !!! x)); [|apply IH].
  destruct (same_ctime i (entries t !!! x)); [|apply IH].
  by intros [= <- <-].
Qed.

(** The entry a lookup returns is still on its chain afterwards. *)
Lemma lookup_chain_Some_kept t i c t' e b :
  _lookup_chain t i c = (t', Some e) →
  e ∈ bucket (hash_table t) b → e ∈ bucket (hash_table t') b.
Proof.
  revert t. induction c as [|x c IH]; intros t; simpl; [done|].
  destruct (same_identity i (entries t !!! x)) eqn:Hid; [|apply IH].
  destruct (same_ctime i (entries t !!! x)) eqn:Hct.
  - by intros [= <- <-].
  - intros Hl He. apply (IH _ Hl). simpl.
    rewrite bucket_hash_del, elem_of_list_del. split; [done|].
    intros ->. apply lookup_chain_Some in Hl as [_ Hm]. simpl in Hm.
    unfold full_match in Hm. rewrite Hid, Hct in Hm. done.
Qed.

(** A lookup takes from the chains only entries of the identity it looks
    up. *)
Lemma lookup_chain_keeps t i c b x :
  x ∈ bucket (hash_table t) b →
  same_identity i (entries t !!! x) = false →
  x ∈ bucket (hash_table (fst (_lookup_chain t i c))) b.
Proof.
  revert t. induction c as [|e c IH]; intros t Hx Hid; simpl; [done|].
  destruct (same_identity i (entries t !!! e)) eqn:He; [|by apply IH].
  destruct (same_ctime i (entries t !!! e)); simpl; [done|].
  apply IH; simpl; [|done].
  rewrite bucket_hash_del, elem_of_list_del. split; [done|].
  intros ->. congruence.
Qed.

(** X1. In a well-formed cache a lookup is a hit exactly when some chained
    entry stores the inode's number, device and ctime; the entry it returns
    is such an entry, it stays chained, and it is the head of the LRU list
    afterwards. *)
Theorem lookup_hits_exactly_the_cached t i :
  cache_wf t →
  (is_Some (snd (_lookup hash_min t i)) ↔ cached t i) ∧
  (∀ t' e, _lookup hash_min t i = (t', Some e) →
     holds t e i ∧ holds t' e i ∧ head (lru_list t') = Some e).
Proof.
  intros Hwf. split; [by apply lookup_hit_iff|].
  intros t' e Hl.
  assert (entries t' = entries t) as He.
  { replace t' with (fst (_lookup hash_min t i)) by by rewrite Hl.
    apply lookup_entries. }
  unfold _lookup in Hl.
  pose proof (lookup_chain_Some _ _ _ _ _ Hl) as [Hin Hm].
  apply full_match_entry_of in Hm.
  split_and!.
  - split; [by eapply elem_of_bucket|done].
  - split; [|by rewrite He].
    eapply elem_of_bucket. by eapply lookup_chain_Some_kept.
  - by eapply lookup_chain_Some_head.
Qed.

(** X2. An insertion into a well-formed cache succeeds, and the lookup of
    the inserted inode that follows is a hit. *)
Theorem insert_then_lookup_hits t i :
  cache_wf t → (0 < n)%nat →
  ∃ t', _map hash_min t i = Some t' ∧
        cache_wf t' ∧
        is_Some (snd (_lookup hash_min t' i)).
Proof.
  intros Hwf Hn.
  destruct (map_spec t i Hwf Hn)
    as (l & v & t' & E & Hv & _ & Hm & Hwf' & _ & Ee & _ & Hh).
  exists t'. split_and!; [done..|].
  apply lookup_hit_iff; [done|]. exists v. split.
  - apply Hh. by left.
  - rewrite Ee, list_lookup_total_insert_eq; [done|].
    by rewrite (wf_entries _ Hwf).
Qed.

(** X3. A lookup, hit or miss, writes no entry of the arena, keeps the LRU
    list a list of the same entries, chains no entry that was not chained,
    and leaves chained every entry that stores another device or inode
    number. *)
Theorem lookup_spares_other_identities t i :
  cache_wf t →
  entries (fst (_lookup hash_min t i)) = entries t ∧
  lru_list (fst (_lookup hash_min t i)) ≡ₚ lru_list t ∧
  (∀ x, hashed (fst (_lookup hash_min t i)) x → hashed t x) ∧
  (∀ x, hashed t x → same_identity i (entries t !!! x) = false →
        hashed (fst (_lookup hash_min t i)) x).
Proof.
  intros Hwf. pose proof (lookup_wf _ i Hwf) as Hwf'. split_and!.
  - apply lookup_entries.
  - apply NoDup_Permutation.
    + apply (wf_lru_nodup _ Hwf').
    + apply (wf_lru_nodup _ Hwf).
    + intros x. by rewrite (wf_lru_all _ Hwf'), (wf_lru_all _ Hwf).
  - intros x. apply lookup_hashed_sub.
  - intros x [b Hb]%elem_of_concat_bucket Hid.
    eapply elem_of_bucket. unfold _lookup. by apply lookup_chain_keeps.
Qed.

(** X4. After a miss no chained entry stores the device and inode number
    that were looked up, whatever ctime it has: every stale entry of that
    identity has left its chain. *)
Theorem miss_leaves_no_entry_of_identity t i x :
  cache_wf t → snd (_lookup hash_min t i) = None →
  hashed (fst (_lookup hash_min t i)) x →
  same_identity i (entries (fst (_lookup hash_min t i)) !!! x) = false.
Proof.
  intros Hwf Hnone Hx. rewrite lookup_entries.
  apply lookup_None_iff in Hnone; [|done].
  by apply lookup_miss_hashed in Hx as [_ ?].
Qed.

(** X5. An insertion takes the last entry of the LRU list and no other:
    every other entry keeps what it stores and stays chained or unchained
    as it was, and the chains hold at most one entry more than before. *)
Theorem insert_spares_all_but_the_victim t i :
  cache_wf t → (0 < n)%nat →
  ∃ v t', last (lru_list t) = Some v ∧
          _map hash_min t i = Some t' ∧
          holds t' v i ∧
          (∀ x, x ≠ v → (hashed t' x ↔ hashed t x) ∧
                        entries t' !!! x = entries t !!! x) ∧
          (length (live_mappings t') ≤ S (length (live_mappings t)))%nat.
Proof.
  intros Hwf Hn.
  destruct (wf_lru_last _ Hwf Hn) as (l & v & E & Hv & Hvn).
  exists v. eexists. split_and!.
  - rewrite E. apply last_snoc.
  - by apply _map_victim.
  - split; simpl.
    + unfold hashed, live_mappings; simpl.
      apply (map_victim_hashed _ i l v v Hwf E). by left.
    + rewrite list_lookup_total_insert_eq; [done|].
      by rewrite (wf_entries _ Hwf).
  - intros x Hx. split.
    + unfold hashed at 1, live_mappings; simpl.
      rewrite (map_victim_hashed _ i l v x Hwf E). tauto.
    + simpl. by rewrite list_lookup_total_insert_ne.
  - unfold live_mappings; simpl. unfold hash_add.
    rewrite concat_alter_cons.
    + simpl. rewrite concat_hash_del. unfold list_del.
      pose proof (length_filter (λ x, x ≠ v) (concat (hash_table t))). lia.
    + unfold hash_del. rewrite length_fmap. apply (wf_hash_range _ Hwf).
Qed.

Lemma lookup_hit_holds t i t' e :
  _lookup hash_min t i = (t', Some e) → holds t' e i.
Proof.
  intros Hl.
  assert (entries t' = entries t) as He.
  { replace t' with (fst (_lookup hash_min t i)) by by rewrite Hl.
    apply lookup_entries. }
  unfold _lookup in Hl.
  pose proof (lookup_chain_Some _ _ _ _ _ Hl) as [Hin Hm].
  apply full_match_entry_of in Hm.
  split; [|by rewrite He].
  eapply elem_of_bucket. by eapply lookup_chain_Some_kept.
Qed.

Lemma lookup_keeps_holds t i x j :
  holds t x j → same_identity i (entries t !!! x) = false →
  holds (fst (_lookup hash_min t i)) x j.
Proof.
  intros [[b Hb]%elem_of_concat_bucket He] Hid. split.
  - eapply elem_of_bucket. unfold _lookup. by apply lookup_chain_keeps.
  - by rewrite lookup_entries.
Qed.

Lemma map_fsm t i t' : _map hash_min t i = Some t' → fsm t' = fsm t.
Proof.
  unfold _map, _get_entry. destruct (list_last_entry (lru_list t)); [|done].
  simpl. by intros [= <-].
Qed.

(** ** The cache is an LRU cache *)

(** The cache [t] holds the list [r]: the first entries of its LRU list are
    the chained ones, and what they store is [r], in this order. *)
Definition lru_abs (t : iotrace_inode_tracer) (r : list cache_entry) : Prop :=
  cache_wf t ∧ NoDup (entry_identity <$> r) ∧
  ∃ used free, lru_list t = used ++ free ∧
               (λ x, entries t !!! x) <$> used = r ∧
               (∀ x, hashed t x ↔ x ∈ used).

Lemma abs_create nb m :
  (∀ key, (hash_min key < nb)%nat) → lru_abs (create_inode_tracer nb n m) [].
Proof.
  intros Hrange. split_and!.
  - by apply wf_create.
  - constructor.
  - exists [], (lru_list (create_inode_tracer nb n m)). split_and!; [done..|].
    intros x. unfold hashed, live_mappings. simpl.
    by rewrite concat_replicate_nil.
Qed.

Lemma abs_uniq t used free :
  lru_list t = used ++ free →
  NoDup (entry_identity <$> ((λ x, entries t !!! x) <$> used)) →
  ∀ x y, x ∈ used → y ∈ used →
         entry_identity (entries t !!! x) = entry_identity (entries t !!! y) →
         x = y.
Proof.
  intros El Hnd x y Hx Hy E. rewrite <- list_fmap_compose in Hnd.
  by apply (NoDup_fmap_elem_inj _ _ _ _ Hnd Hx Hy).
Qed.

Lemma abs_lookup t r i :
  lru_abs t r →
  lru_abs (fst (_lookup hash_min t i)) (fst (lru_lookup r i)) ∧
  (is_Some (snd (_lookup hash_min t i)) ↔ snd (lru_lookup r i) = true).
Proof.
  intros (Hwf & Hnd & used & free & El & Er & Hh).
  pose proof (wf_lru_nodup _ Hwf) as Hlnd. rewrite El in Hlnd.
  apply NoDup_app in Hlnd as (Hund & Huf & Hfnd).
  assert (∀ x y, x ∈ used → y ∈ used →
            entry_identity (entries t !!! x) =
            entry_identity (entries t !!! y) → x = y) as Huniq.
  { apply (abs_uniq t used free El). by rewrite Er. }
  unfold lru_lookup. destruct (decide (entry_of i ∈ r)) as [Hin|Hnin]; simpl.
  - (* a hit *)
    rewrite <- Er in Hin. apply list_elem_of_fmap in Hin as (e & Ee & He).
    symmetry in Ee.
    assert (_lookup hash_min t i = (_set_hot t e, Some e)) as ->.
    { apply lookup_clean_hit; [done|by apply Hh|done|].
      intros x Hx Hid. apply Huniq; [by apply Hh|done|].
      apply same_identity_iff in Hid. by rewrite <- Hid, Ee. }
    simpl. split; [|done]. split_and!.
    + apply wf_set_hot; [done|]. by apply (wf_hash_bound _ Hwf), Hh.
    + rewrite fmap_cons. apply NoDup_cons. split; [|by apply NoDup_fmap_filter].
      intros (y & E & Hy%list_elem_of_filter)%list_elem_of_fmap.
      destruct Hy as [Hne Hy]. apply Hne.
      rewrite <- Er in Hy. apply list_elem_of_fmap in Hy as (x & -> & Hx).
      rewrite <- Ee. f_equal. apply Huniq; [done..|]. by rewrite Ee.
    + exists (e :: list_del e used), free. split_and!.
      * simpl. unfold list_add. rewrite El. unfold list_del at 1.
        rewrite filter_app. fold (list_del e used). fold (list_del e free).
        rewrite (list_del_not_elem e free); [done|]. by apply Huf.
      * simpl. rewrite Ee. f_equal. rewrite <- Er. unfold list_del.
        apply (fmap_filter_iff (λ x, entries t !!! x)).
        intros x Hx. split.
        -- intros Hne E. apply Hne. apply Huniq; [done..|].
           by rewrite E, Ee.
        -- intros Hne ->. by apply Hne.
      * intros x. unfold hashed, live_mappings. simpl.
        fold (live_mappings t). fold (hashed t x).
        rewrite Hh, elem_of_cons, elem_of_list_del.
        destruct (decide (x = e)) as [->|]; tauto.
  - (* a miss *)
    assert (¬ cached t i) as Hc.
    { intros (x & Hx & Ex). apply Hnin. rewrite <- Er, <- Ex.
      apply (list_elem_of_fmap_2 (λ y, entries t !!! y) used x).
      by apply Hh. }
    assert (snd (_lookup hash_min t i) = None) as Hnone
      by by apply lookup_None_iff.
    split; [|rewrite Hnone; split; [by intros [? ?]|done]].
    destruct (decide (Exists (λ e, same_identity i (entries t !!! e) = true)
                        used)) as [(e & He & Hid)%Exists_exists|Hno].
    + (* a stale entry *)
      assert (same_ctime i (entries t !!! e) = false) as Hct.
      { destruct (same_ctime i (entries t !!! e)) eqn:E; [|done].
        destruct Hc. exists e. split; [by apply Hh|].
        apply full_match_entry_of. unfold full_match. by rewrite Hid, E. }
      assert (_lookup hash_min t i = (_remove_entry t e, None)) as ->.
      { apply lookup_stale; [done|by apply Hh|done|done|].
        intros x Hx Hidx. apply Huniq; [by apply Hh|done|].
        apply same_identity_iff in Hid, Hidx. congruence. }
      simpl. split_and!.
      * apply wf_remove_entry; [done|]. by apply (wf_hash_bound _ Hwf), Hh.
      * by apply NoDup_fmap_filter.
      * exists (list_del e used), (free ++ [e]). split_and!.
        -- simpl. unfold list_add_tail. rewrite El. unfold list_del at 1.
           rewrite filter_app. fold (list_del e used). fold (list_del e free).
           rewrite (list_del_not_elem e free) by by apply Huf.
           by rewrite app_assoc.
        -- simpl. rewrite <- Er. unfold list_del.
           apply (fmap_filter_iff (λ x, entries t !!! x)).
           intros x Hx. split.
           ++ intros Hne.
              destruct (same_identity i (entries t !!! x)) eqn:E; [|done].
              destruct Hne. apply Huniq; [done..|].
              apply same_identity_iff in Hid, E. congruence.
           ++ intros E ->. congruence.
        -- intros x. unfold hashed, live_mappings. simpl.
           rewrite concat_hash_del, !elem_of_list_del.
           fold (live_mappings t). fold (hashed t x). by rewrite Hh.
    + (* no entry of this identity *)
      assert (∀ x, x ∈ used → same_identity i (entries t !!! x) = false)
        as Hall.
      { intros x Hx.
        destruct (same_identity i (entries t !!! x)) eqn:E; [|done].
        destruct Hno. apply Exists_exists. by exists x. }
      rewrite lookup_clean_miss by (intros x Hx; by apply Hall, Hh). simpl.
      rewrite filter_all.
      * split_and!; [done..|]. by exists used, free.
      * intros v Hv. rewrite <- Er in Hv.
        apply list_elem_of_fmap in Hv as (x & -> & Hx). by apply Hall.
Qed.

Lemma abs_map t r i :
  lru_abs t r → (0 < n)%nat →
  (∀ e, e ∈ r → same_identity i e = false) →
  ∃ t', _map hash_min t i = Some t' ∧ lru_abs t' (lru_insert n r i).
Proof.
  intros (Hwf & Hnd & used & free & El & Er & Hh) Hn Hfresh.
  destruct (map_spec t i Hwf Hn)
    as (l & v & t' & E & Hv & Hvl & Hm & Hwf' & E' & Ee & _ & Hh').
  pose proof (wf_lru_length _ Hwf) as Hlen.
  exists t'. split; [done|].
  assert (length (entries t) = n) as Hle by apply (wf_entries _ Hwf).
  assert (∀ us, (v ∉ us) →
            (λ x, entries t' !!! x) <$> (v :: us) =
            entry_of i :: ((λ x, entries t !!! x) <$> us)) as Hval.
  { intros us Hus. rewrite fmap_cons, Ee.
    rewrite list_lookup_total_insert_eq by lia. f_equal.
    apply fmap_ext_in. intros x Hx.
    rewrite list_lookup_total_insert_ne; [done|]. by intros ->. }
  assert (entry_identity (entry_of i) ∉ entry_identity <$> r) as Hid.
  { intros (e & E0 & He)%list_elem_of_fmap.
    apply same_identity_iff in E0. by rewrite (Hfresh e He) in E0. }
  unfold lru_insert.
  destruct free as [|f free0 _] using rev_ind.
  - (* every entry is in use: the oldest goes *)
    rewrite app_nil_r in El. rewrite E in Hlen.
    assert (used = l ++ [v]) as -> by congruence.
    rewrite fmap_app in Er. simpl in Er.
    rewrite length_app in Hlen. simpl in Hlen.
    assert (take n (entry_of i :: r) =
            entry_of i :: ((λ x, entries t !!! x) <$> l)) as ->.
    { replace n with (S (length l)) by lia. simpl. f_equal.
      rewrite <- Er. rewrite take_app_length'; [done|].
      by rewrite length_fmap. }
    split_and!; [done| |].
    + rewrite fmap_cons. apply NoDup_cons. split.
      * intros Hin. apply Hid. rewrite <- Er, fmap_app.
        apply elem_of_app. by left.
      * rewrite <- Er, fmap_app in Hnd. by apply NoDup_app in Hnd as [? _].
    + exists (v :: l), []. split_and!.
      * by rewrite app_nil_r.
      * by apply Hval.
      * intros x. rewrite Hh', Hh, elem_of_cons, elem_of_app,
          list_elem_of_singleton.
        destruct (decide (x = v)); tauto.
  - (* an entry is free: it is taken *)
    rewrite El, app_assoc in E. apply app_inj_tail in E as [<- ->].
    rewrite El, !length_app in Hlen. simpl in Hlen.
    assert (take n (entry_of i :: r) = entry_of i :: r) as ->.
    { apply take_ge. simpl. rewrite <- Er, length_fmap. lia. }
    rewrite not_elem_of_app in Hvl. destruct Hvl as [Hvu Hvf].
    split_and!; [done| |].
    + rewrite fmap_cons. by apply NoDup_cons.
    + exists (v :: used), free0. split_and!.
      * done.
      * rewrite <- Er. by apply Hval.
      * intros x. rewrite Hh', Hh, elem_of_cons.
        destruct (decide (x = v)) as [->|]; tauto.
Qed.

(** X23. The cache is an LRU cache of [n] entries. A new cache holds
    nothing. A lookup is a hit exactly when what the cache holds has the
    inode's number, device and ctime, and the hit makes it the most recently
    used; a miss drops what the cache held under this number and device.
    An insertion of an inode whose number and device the cache does not
    hold, as after a miss, makes it the most recently used and, when the
    cache is full, drops the least recently used. *)
Theorem cache_is_an_lru_cache :
  (∀ nb m, (∀ key, (hash_min key < nb)%nat) →
           lru_abs (create_inode_tracer nb n m) []) ∧
  (∀ t r i, lru_abs t r →
     lru_abs (fst (_lookup hash_min t i)) (fst (lru_lookup r i)) ∧
     (is_Some (snd (_lookup hash_min t i)) ↔ entry_of i ∈ r) ∧
     (∀ j, cached t j ↔ entry_of j ∈ r)) ∧
  (∀ t r i, lru_abs t r → (0 < n)%nat →
     (∀ e, e ∈ r → same_identity i e = false) →
     ∃ t', _map hash_min t i = Some t' ∧ lru_abs t' (lru_insert n r i)).
Proof.
  split_and!.
  - apply abs_create.
  - intros t r i Habs. destruct (abs_lookup t r i Habs) as [Ha Hhit].
    split_and!; [done| |].
    + rewrite Hhit. unfold lru_lookup.
      by destruct (decide (entry_of i ∈ r)).
    + destruct Habs as (_ & _ & used & free & _ & <- & Hh).
      intros j. rewrite list_elem_of_fmap. split.
      * intros (x & Hx & Ex). exists x. split; [done|]. by apply Hh.
      * intros (x & Ex & Hx). exists x. split; [by apply Hh|done].
  - apply abs_map.
Qed.

(** * Properties of the walk *)

Variable ALL_FSNOTIFY_EVENTS : Z.
Variable add_mark_result : inode → Z.
Variable sizeof_file_name : nat.
Variable vfs : dcache.

Abbreviation add_mark := (_fs_add_mark ALL_FSNOTIFY_EVENTS add_mark_result).
Abbreviation loop :=
  (trace_inode_loop hash_min ALL_FSNOTIFY_EVENTS add_mark_result
     sizeof_file_name vfs).
Abbreviation walk :=
  (iotrace_trace_inode hash_min ALL_FSNOTIFY_EVENTS add_mark_result
     sizeof_file_name vfs).

(** The marks after the walk has looked at the parent of the object it is
    about to name. *)
Definition marks_after_parent (k : kernel) (parent_inode : option inode)
  : list fsnotify_mark :=
  match parent_inode with
  | Some p =>
      if S_ISDIR (i_mode p) then
        match fsm (inode_tracer k) with
        | Some m =>
            if fsnotify_ops_inited k
            then marks (add_mark k (group m) p)
            else marks k
        | None => marks k
        end
      else marks k
  | None => marks k
  end.

(** The naming record of [this_inode] under [parent_inode]. *)
Definition name_event (s : Z) (this_inode : inode)
    (parent_inode : option inode) (dname : string) : iotrace_event :=
  fs_file_name
    {| fn_sid := s;
       fn_partition_id := s_dev this_inode;
       fn_file_id := {| id := i_ino this_inode;
                        id_ctime := i_ctime this_inode |};
       file_parent_id :=
         {| id := from_option i_ino 0 parent_inode;
            id_ctime := from_option i_ctime zero_timespec parent_inode |};
       file_name :=
         String.substring 0
           (Nat.min (String.length dname) (sizeof_file_name - 1)) dname |}.

(** The state after the body of the loop has run on a miss: [emitted] tells
    whether the record was written, [t] is the cache it leaves. *)
Definition after_body (k : kernel) (this_inode : inode) (this_dentry : nat)
    (emitted : bool) (t : iotrace_inode_tracer) : kernel :=
  let parent_inode := d_inode vfs <$> dget_parent vfs this_dentry in
  let tr := snd (octf_trace_get_wr_buffer (trace k)) in
  {| sid := u64 (sid k + 1);
     trace :=
       if emitted
       then {| wr_results := wr_results tr;
               written := written tr ++
                 [name_event (u64 (sid k + 1)) this_inode parent_inode
                    (d_name vfs this_dentry)] |}
       else tr;
     inode_tracer := t;
     marks := marks_after_parent
                (set_inode_tracer k (fst (_lookup hash_min (inode_tracer k)
                                            this_inode)))
                parent_inode;
     fsnotify_ops_inited := fsnotify_ops_inited k |}.

Definition to_parent (fuel : nat) (k : kernel) (this_dentry : nat)
  : option kernel :=
  match dget_parent vfs this_dentry with
  | Some pd => loop fuel k (d_inode vfs pd) pd
  | None => Some k
  end.

Lemma fs_add_mark_frame k g i :
  add_mark k g i = set_marks k (marks (add_mark k g i)).
Proof.
  unfold _fs_add_mark. destruct k; simpl.
  destruct (fsnotify_find_mark _ _ _); [done|].
  by destruct (add_mark_result i =? 0).
Qed.

Lemma loop_hit fuel k i d t1 e :
  _lookup hash_min (inode_tracer k) i = (t1, Some e) →
  loop (S fuel) k i d = Some (set_inode_tracer k t1).
Proof. intros H. simpl. by rewrite H. Qed.

Lemma loop_miss fuel k i d t1 :
  _lookup hash_min (inode_tracer k) i = (t1, None) →
  loop (S fuel) k i d =
  if fst (octf_trace_get_wr_buffer (trace k)) =? 0 then
    t2 ← _map hash_min t1 i;
    to_parent fuel (after_body k i d true t2) d
  else
    to_parent fuel (after_body k i d false t1) d.
Proof.
  intros H. simpl. rewrite H. unfold to_parent, after_body, marks_after_parent.
  rewrite H. simpl.
  set (p := d_inode vfs <$> dget_parent vfs d).
  set (k2 := match p with
             | Some p0 => if S_ISDIR (i_mode p0) then _ else _
             | None => _ end).
  assert (k2 = set_marks (set_inode_tracer k t1) (marks k2)) as Ek2.
  { unfold k2. destruct p as [p0|]; [|by destruct k].
    destruct (S_ISDIR (i_mode p0)); [|by destruct k].
    simpl. destruct (fsm t1); [|by destruct k].
    destruct (fsnotify_ops_inited k); [|by destruct k].
    apply fs_add_mark_frame. }
  assert (marks k2 =
          match p with
          | Some p0 =>
              if S_ISDIR (i_mode p0) then
                match fsm t1 with
                | Some m =>
                    if fsnotify_ops_inited k
                    then marks (add_mark (set_inode_tracer k t1) (group m) p0)
                    else marks k
                | None => marks k
                end
              else marks k
          | None => marks k
          end) as Em.
  { unfold k2. destruct p as [p0|]; [|done].
    destruct (S_ISDIR (i_mode p0)); [|done]. simpl.
    destruct (fsm t1); [|done]. by destruct (fsnotify_ops_inited k). }
  rewrite <- Em. clearbody k2. rewrite Ek2. clear Ek2 Em.
  unfold _trace_filename. simpl.
  destruct (octf_trace_get_wr_buffer (trace k)) as [r tr] eqn:Eb. simpl.
  destruct (r =? 0) eqn:Er; simpl.
  - destruct (_map hash_min t1 i) as [t2|]; simpl; [|done].
    unfold p. destruct (dget_parent vfs d); reflexivity.
  - rewrite Er. simpl. unfold p. destruct (dget_parent vfs d); reflexivity.
Qed.

(** The dentry [d] is a root. In Linux [dget_parent] never returns null and
    the root dentry is its own parent ([IS_ROOT]); the loop also provides
    for a dentry whose parent is null. *)
Definition is_root (d : nat) : bool :=
  match dget_parent vfs d with
  | Some pd => Nat.eqb pd d
  | None => true
  end.

(** The dentry [d] or one of its ancestors, at most [m] steps up, is a
    root. *)
Fixpoint reaches_root (m : nat) (d : nat) : bool :=
  is_root d ||
  match m, dget_parent vfs d with
  | S m', Some pd => reaches_root m' pd
  | _, _ => false
  end.

(** The walk keeps the representation invariant and leaves one entry per
    identity. *)
Lemma loop_inv fuel k i d k' :
  (0 < n)%nat →
  cache_wf (inode_tracer k) → cache_uniq (inode_tracer k) →
  loop fuel k i d = Some k' →
  cache_wf (inode_tracer k') ∧ cache_uniq (inode_tracer k').
Proof.
  intros Hn. revert k i d.
  induction fuel as [|fuel IH]; intros k i d Hwf Hu; [done|].
  destruct (_lookup hash_min (inode_tracer k) i) as [t1 [e|]] eqn:El.
  - rewrite (loop_hit _ _ _ _ _ _ El). intros [= <-]. simpl.
    replace t1 with (fst (_lookup hash_min (inode_tracer k) i)) by by rewrite El.
    split; [by apply lookup_wf|apply uniq_lookup; assumption].
  - rewrite (loop_miss _ _ _ _ _ El).
    assert (cache_wf t1 ∧ cache_uniq t1) as [Hwf1 Hu1].
    { replace t1 with (fst (_lookup hash_min (inode_tracer k) i)) by by rewrite El.
      split; [by apply lookup_wf|apply uniq_lookup; assumption]. }
    destruct (fst (octf_trace_get_wr_buffer (trace k)) =? 0).
    + destruct (_map hash_min t1 i) as [t2|] eqn:Em; simpl; [|done].
      assert (cache_wf t2) by by eapply wf_map.
      assert (cache_uniq t2)
        by (apply (uniq_map_after_miss (inode_tracer k) i t1 t2); assumption).
      unfold to_parent. destruct (dget_parent vfs d).
      * apply IH; assumption.
      * intros [= <-]. split; assumption.
    + unfold to_parent. destruct (dget_parent vfs d).
      * apply IH; assumption.
      * intros [= <-]. split; assumption.
Qed.

Lemma trace_inode_inv fuel k i k' :
  (0 < n)%nat →
  cache_wf (inode_tracer k) → cache_uniq (inode_tracer k) →
  walk fuel k i = Some k' →
  cache_wf (inode_tracer k') ∧ cache_uniq (inode_tracer k').
Proof.
  intros Hn Hwf Hu. unfold iotrace_trace_inode.
  destruct (d_find_alias vfs i) as [d|].
  - by apply loop_inv.
  - intros [= <-]. split; assumption.
Qed.

(** At a root whose inode the cache holds the loop is over: a null parent
    ends it at the test of its condition, and a root that is its own
    parent is looked up once more and found. Nothing but the order of the
    LRU list changes. *)
Lemma to_parent_root fuel k i d v :
  is_root d = true → d_inode vfs d = i →
  cache_wf (inode_tracer k) → holds (inode_tracer k) v i →
  ∃ k', to_parent (S fuel) k d = Some k' ∧
        sid k' = sid k ∧ trace k' = trace k ∧ marks k' = marks k ∧
        entries (inode_tracer k') = entries (inode_tracer k) ∧
        cache_wf (inode_tracer k') ∧
        cached (inode_tracer k') i ∧
        (∀ x j, holds (inode_tracer k) x j →
                same_identity i (entries (inode_tracer k) !!! x) = false →
                holds (inode_tracer k') x j).
Proof.
  intros Hr Hi Hwf Hv. unfold to_parent. unfold is_root in Hr.
  destruct (dget_parent vfs d) as [pd|].
  - apply Nat.eqb_eq in Hr as ->. rewrite Hi.
    assert (is_Some (snd (_lookup hash_min (inode_tracer k) i))) as [e He].
    { apply lookup_hit_iff; [done|]. by exists v. }
    destruct (_lookup hash_min (inode_tracer k) i) as [t1 r] eqn:El.
    simpl in He. subst r.
    assert (t1 = fst (_lookup hash_min (inode_tracer k) i)) as Et
      by by rewrite El.
    exists (set_inode_tracer k t1).
    rewrite (loop_hit _ _ _ _ _ _ El). split_and!; [done..| | | |].
    + simpl. rewrite Et. apply lookup_entries.
    + simpl. rewrite Et. by apply lookup_wf.
    + exists e. by apply (lookup_hit_holds _ _ _ _ El).
    + intros x j Hx Hid. simpl. rewrite Et. by apply lookup_keeps_holds.
  - exists k. split_and!; [done..| |done]. by exists v.
Qed.

(** While the trace buffer refuses, a walk among dentries that all have a
    parent finds nothing to stop at: no record is written, so nothing is
    inserted, so no lookup is a hit. *)
Lemma loop_full_sink fuel : ∀ k i d,
  cache_wf (inode_tracer k) →
  (∀ d', is_Some (dget_parent vfs d')) →
  ¬ cached (inode_tracer k) i →
  (∀ d', ¬ cached (inode_tracer k) (d_inode vfs d')) →
  Forall (λ r, r ≠ 0) (take fuel (wr_results (trace k))) →
  loop fuel k i d = None.
Proof.
  induction fuel as [|fuel IH]; intros k i d Hwf Hp Hi Hc Hrs; [done|].
  destruct (_lookup hash_min (inode_tracer k) i) as [t1 r] eqn:El.
  assert (t1 = fst (_lookup hash_min (inode_tracer k) i)) as Et
    by by rewrite El.
  assert (r = None) as ->.
  { apply (lookup_None_iff _ i Hwf) in Hi. by rewrite El in Hi. }
  rewrite (loop_miss _ _ _ _ _ El).
  assert (∀ j, ¬ cached (inode_tracer k) j → ¬ cached t1 j) as Hsub.
  { intros j Hj (x & Hx & Ex). apply Hj. exists x. rewrite Et in Hx, Ex.
    split; [by eapply lookup_hashed_sub|by rewrite lookup_entries in Ex]. }
  assert ((fst (octf_trace_get_wr_buffer (trace k)) =? 0) = false) as ->.
  { apply Z.eqb_neq. unfold octf_trace_get_wr_buffer.
    destruct (wr_results (trace k)) as [|r rs]; [done|].
    simpl. simpl in Hrs. by apply Forall_cons in Hrs as [? _]. }
  unfold to_parent. destruct (Hp d) as [pd ->].
  apply IH; simpl.
  - rewrite Et. by apply lookup_wf.
  - done.
  - by apply Hsub.
  - intros d'. by apply Hsub.
  - unfold octf_trace_get_wr_buffer.
    destruct (wr_results (trace k)) as [|r rs] eqn:Er; simpl.
    + rewrite Er, take_nil. apply Forall_nil_2.
    + simpl in Hrs. by apply Forall_cons in Hrs as [_ ?].
Qed.

(** A miss followed by the insertion: the victim is taken behind any
    prefix of the LRU list that holds other identities and is shorter than
    the arena. *)
Lemma insert_step t i pre rest :
  cache_wf t → ¬ cached t i → lru_list t = pre ++ rest →
  (length pre < n)%nat →
  (∀ x, x ∈ pre → same_identity i (entries t !!! x) = false) →
  ∃ t1 t2 v rest',
    _lookup hash_min t i = (t1, None) ∧
    _map hash_min t1 i = Some t2 ∧
    cache_wf t2 ∧
    lru_list t2 = v :: pre ++ rest' ∧
    (v ∉ pre) ∧ (v < n)%nat ∧
    entries t2 = <[v := entry_of i]> (entries t) ∧
    fsm t2 = fsm t ∧
    (∀ x, hashed t2 x ↔
          x = v ∨ (hashed t x ∧ same_identity i (entries t !!! x) = false ∧
                   x ≠ v)).
Proof.
  intros Hwf Hc E Hlen Hpre.
  pose proof (lookup_wf _ i Hwf) as Hwf1.
  destruct (lookup_miss_lru_prefix _ _ _ _ Hwf Hc E Hpre) as [rest1 E1].
  set (t1 := fst (_lookup hash_min t i)) in *.
  assert (_lookup hash_min t i = (t1, None)) as El.
  { unfold t1. rewrite lookup_miss_eq by done. done. }
  pose proof (wf_lru_length _ Hwf1) as Hl1. rewrite E1, length_app in Hl1.
  destruct (last rest1) as [v|] eqn:Elast.
  2:{ apply last_None in Elast. subst rest1. simpl in Hl1. lia. }
  apply last_Some in Elast as [rest' ->].
  assert (lru_list t1 = (pre ++ rest') ++ [v]) as E1' by by rewrite E1, app_assoc.
  assert (v ∉ pre ++ rest') as Hv.
  { pose proof (wf_lru_nodup _ Hwf1) as Hnd. rewrite E1' in Hnd.
    apply NoDup_app in Hnd as (_ & Hd & _).
    intros Hv. apply (Hd v Hv). by apply list_elem_of_singleton. }
  exists t1. eexists. exists v, rest'. split_and!.
  - done.
  - by apply _map_victim.
  - by apply wf_map_victim.
  - done.
  - intros Hv'. apply Hv. apply elem_of_app. by left.
  - apply (wf_lru_all _ Hwf1). rewrite E1', elem_of_app.
    right. by apply list_elem_of_singleton.
  - simpl. unfold t1. by rewrite lookup_entries.
  - simpl. unfold t1. by rewrite lookup_fsm.
  - intros x. unfold hashed at 1, live_mappings; simpl.
    rewrite (map_victim_hashed _ _ _ _ _ Hwf1 E1').
    unfold t1. rewrite lookup_miss_hashed by done. tauto.
Qed.

Lemma same_identity_other i j :
  identity i ≠ identity j → same_identity i (entry_of j) = false.
Proof.
  intros Hne. destruct (same_identity i (entry_of j)) eqn:E; [|done].
  apply same_identity_entry_of in E as [E1 E2]. destruct Hne.
  unfold identity. by rewrite E1, E2.
Qed.

(** One run of the loop body on an inode the cache does not hold, with room
    in the trace buffer: the record is written, the inode takes the victim's
    entry, and what the entries ahead of the victim hold stays cached. *)
Lemma loop_insert fuel k i d pre rest rs :
  cache_wf (inode_tracer k) → ¬ cached (inode_tracer k) i →
  lru_list (inode_tracer k) = pre ++ rest → (length pre < n)%nat →
  (∀ x, x ∈ pre → same_identity i (entries (inode_tracer k) !!! x) = false) →
  wr_results (trace k) = 0 :: rs →
  ∃ k1 v rest',
    loop (S fuel) k i d = to_parent fuel k1 d ∧
    sid k1 = u64 (sid k + 1) ∧
    trace k1 =
      {| wr_results := rs;
         written := written (trace k) ++
           [name_event (u64 (sid k + 1)) i
              (d_inode vfs <$> dget_parent vfs d) (d_name vfs d)] |} ∧
    cache_wf (inode_tracer k1) ∧
    lru_list (inode_tracer k1) = v :: pre ++ rest' ∧
    (v ∉ pre) ∧
    entries (inode_tracer k1) =
      <[v := entry_of i]> (entries (inode_tracer k)) ∧
    holds (inode_tracer k1) v i ∧
    (∀ x j, x ∈ pre → holds (inode_tracer k) x j →
            holds (inode_tracer k1) x j) ∧
    (∀ j, identity j ≠ identity i → ¬ cached (inode_tracer k) j →
          ¬ cached (inode_tracer k1) j).
Proof.
  intros Hwf Hc E Hlen Hpre Hwr.
  destruct (insert_step _ i pre rest Hwf Hc E Hlen Hpre)
    as (t1 & t2 & v & rest' & El & Em & Hwf2 & E2 & Hv & Hvn & Ee & _ & Hh).
  assert (v < length (entries (inode_tracer k)))%nat as Hvl
    by by rewrite (wf_entries _ Hwf).
  exists (after_body k i d true t2), v, rest'. split_and!.
  - rewrite (loop_miss _ _ _ _ _ El). unfold octf_trace_get_wr_buffer.
    rewrite Hwr. simpl. by rewrite Em.
  - done.
  - simpl. unfold octf_trace_get_wr_buffer. by rewrite Hwr.
  - done.
  - done.
  - done.
  - done.
  - split; simpl.
    + apply Hh. by left.
    + by rewrite Ee, list_lookup_total_insert_eq.
  - intros x j Hx [Hxh Hxe]. simpl.
    assert (x ≠ v) as Hne by (intros ->; done).
    split.
    + apply Hh. right. split_and!; [done| |done]. by apply Hpre.
    + by rewrite Ee, list_lookup_total_insert_ne.
  - intros j Hj Hcj (x & Hx & Ex). simpl in *. apply Hh in Hx as [->|(Hx & _ & Hne)].
    + rewrite Ee, list_lookup_total_insert_eq in Ex by done.
      apply entry_of_identity in Ex. congruence.
    + rewrite Ee, list_lookup_total_insert_ne in Ex by done.
      apply Hcj. by exists x.
Qed.

(** C1, as the code has it. Let O, its parent P and the parent G of P be
    three objects the cache does not hold, G being the root: in Linux its
    dentry is its own parent. With room in the trace buffer, one walk from O
    writes exactly three naming records, O under P, P under G, and G under
    the parent the dentry cache gives for the root, which is G itself; it
    stores exactly O, P and G, in three different entries of the arena; four
    runs of the loop body are enough, the fourth finding G; and a walk from
    O right after it writes no record. A dentry cache that gives the root a
    null parent is covered as well: the record of G then has parent id 0
    and a zero parent ctime. *)
Theorem walk_emits_root_too k O P G dO dP dG rs fuel :
  cache_wf (inode_tracer k) → (3 ≤ n)%nat →
  d_find_alias vfs O = Some dO →
  dget_parent vfs dO = Some dP → d_inode vfs dP = P →
  dget_parent vfs dP = Some dG → d_inode vfs dG = G →
  is_root dG = true →
  identity O ≠ identity P → identity O ≠ identity G →
  identity P ≠ identity G →
  ¬ cached (inode_tracer k) O → ¬ cached (inode_tracer k) P →
  ¬ cached (inode_tracer k) G →
  wr_results (trace k) = 0 :: 0 :: 0 :: rs →
  (4 ≤ fuel)%nat →
  ∃ k' vO vP vG,
    iotrace_trace_inode hash_min ALL_FSNOTIFY_EVENTS add_mark_result
      sizeof_file_name vfs fuel k O = Some k' ∧
    written (trace k') =
      written (trace k) ++
      [name_event (u64 (sid k + 1)) O (Some P) (d_name vfs dO);
       name_event (u64 (u64 (sid k + 1) + 1)) P (Some G) (d_name vfs dP);
       name_event (u64 (u64 (u64 (sid k + 1) + 1) + 1)) G
         (match dget_parent vfs dG with Some _ => Some G | None => None end)
         (d_name vfs dG)] ∧
    wr_results (trace k') = rs ∧
    vO ≠ vP ∧ vO ≠ vG ∧ vP ≠ vG ∧
    entries (inode_tracer k') =
      <[vG := entry_of G]>
        (<[vP := entry_of P]>
           (<[vO := entry_of O]> (entries (inode_tracer k)))) ∧
    cached (inode_tracer k') O ∧
    cached (inode_tracer k') P ∧
    cached (inode_tracer k') G ∧
    ∀ fuel', (1 ≤ fuel')%nat →
      ∃ k'',
        iotrace_trace_inode hash_min ALL_FSNOTIFY_EVENTS add_mark_result
          sizeof_file_name vfs fuel' k' O = Some k'' ∧
        written (trace k'') = written (trace k').
Proof.
  intros Hwf Hn HdO HdP HP HdG HG Hroot HOP HOG HPG HcO HcP HcG Hwr Hfuel.
  destruct fuel as [|[|[|[|fuel]]]]; [lia..|].
  (* O *)
  destruct (loop_insert (S (S (S fuel))) k O dO []
              (lru_list (inode_tracer k)) (0 :: 0 :: rs) Hwf HcO eq_refl
              ltac:(simpl; lia) ltac:(by intros x ?%elem_of_nil) Hwr)
    as (k1 & vO & r1 & Hl1 & Hs1 & Ht1 & Hwf1 & Hlru1 & _ & He1 & HhO & _ & Hn1).
  unfold to_parent in Hl1. rewrite HdP, HP in Hl1.
  (* P *)
  assert (same_identity P (entries (inode_tracer k1) !!! vO) = false) as HvO_P.
  { destruct HhO as [_ ->]. apply same_identity_other. congruence. }
  destruct (loop_insert (S (S fuel)) k1 P dP [vO] r1 (0 :: rs) Hwf1)
    as (k2 & vP & r2 & Hl2 & Hs2 & Ht2 & Hwf2 & Hlru2 & HvP & He2 & HhP & Hk2 & Hn2).
  { apply Hn1; [congruence|done]. }
  { done. }
  { simpl. lia. }
  { intros x Hx. by apply list_elem_of_singleton in Hx as ->. }
  { by rewrite Ht1. }
  unfold to_parent in Hl2. rewrite HdG, HG in Hl2.
  assert (holds (inode_tracer k2) vO O) as HhO2.
  { apply Hk2; [by apply list_elem_of_singleton|done]. }
  (* G *)
  assert (∀ x, x ∈ [vP; vO] →
               same_identity G (entries (inode_tracer k2) !!! x) = false) as Hpre.
  { intros x [->|Hx]%elem_of_cons; [|apply list_elem_of_singleton in Hx as ->].
    - destruct HhP as [_ ->]. apply same_identity_other. congruence.
    - destruct HhO2 as [_ ->]. apply same_identity_other. congruence. }
  destruct (loop_insert (S fuel) k2 G dG [vP; vO] r2 rs Hwf2)
    as (k3 & vG & r3 & Hl3 & Hs3 & Ht3 & Hwf3 & Hlru3 & HvG & He3 & HhG & Hk3 & _).
  { apply Hn2; [congruence|]. apply Hn1; [congruence|done]. }
  { done. }
  { simpl. lia. }
  { done. }
  { by rewrite Ht2. }
  assert (holds (inode_tracer k3) vO O) as HhO3.
  { apply Hk3; [|done]. apply elem_of_cons. right. by apply list_elem_of_singleton. }
  assert (holds (inode_tracer k3) vP P) as HhP3.
  { apply Hk3; [by left|done]. }
  (* the root, once more *)
  destruct (to_parent_root fuel k3 G dG vG Hroot HG Hwf3 HhG)
    as (k4 & Hl4 & Hs4 & Ht4 & _ & He4 & Hwf4 & HcG4 & Hk4).
  assert (holds (inode_tracer k4) vO O) as HhO4.
  { apply Hk4; [done|]. destruct HhO3 as [_ ->].
    apply same_identity_other. congruence. }
  assert (holds (inode_tracer k4) vP P) as HhP4.
  { apply Hk4; [done|]. destruct HhP3 as [_ ->].
    apply same_identity_other. congruence. }
  exists k4, vO, vP, vG. split_and!.
  - unfold iotrace_trace_inode. rewrite HdO, Hl1, Hl2, Hl3. done.
  - rewrite Ht4, Ht3, Ht2, Ht1. simpl. rewrite Hs2, Hs1, HdP, HdG. simpl.
    rewrite HP, HG, <- !app_assoc.
    destruct (dget_parent vfs dG) as [pd|] eqn:Ep; [|done].
    unfold is_root in Hroot. rewrite Ep in Hroot.
    apply Nat.eqb_eq in Hroot as ->. simpl. by rewrite HG.
  - by rewrite Ht4, Ht3.
  - intros ->. apply HvP. by apply list_elem_of_singleton.
  - intros ->. apply HvG. apply elem_of_cons. right.
    by apply list_elem_of_singleton.
  - intros ->. apply HvG. by left.
  - by rewrite He4, He3, He2, He1.
  - by exists vO.
  - by exists vP.
  - done.
  - intros [|fuel'] Hf; [lia|].
    assert (is_Some (snd (_lookup hash_min (inode_tracer k4) O))) as [e He].
    { apply lookup_hit_iff; [done|]. by exists vO. }
    destruct (_lookup hash_min (inode_tracer k4) O) as [t' r] eqn:El.
    simpl in He. subst r. eexists. split.
    + unfold iotrace_trace_inode. rewrite HdO. exact (loop_hit _ _ _ _ _ _ El).
    + done.
Qed.

(** C2, as the code has it. When the reservation for the naming record of
    the current object fails, the object is not inserted (the cache stays
    as the lookup left it) and no record is written for it; the walk is not
    aborted: it goes on with the parent when there is one. *)
Theorem failed_emission_skips_insert fuel k i d t1 :
  _lookup hash_min (inode_tracer k) i = (t1, None) →
  fst (octf_trace_get_wr_buffer (trace k)) ≠ 0 →
  ∃ k1,
    inode_tracer k1 = t1 ∧
    written (trace k1) = written (trace k) ∧
    trace_inode_loop hash_min ALL_FSNOTIFY_EVENTS add_mark_result
      sizeof_file_name vfs (S fuel) k i d =
    match dget_parent vfs d with
    | Some pd =>
        trace_inode_loop hash_min ALL_FSNOTIFY_EVENTS add_mark_result
          sizeof_file_name vfs fuel k1 (d_inode vfs pd) pd
    | None => Some k1
    end.
Proof.
  intros El Hr. exists (after_body k i d false t1). split_and!.
  - done.
  - simpl. unfold octf_trace_get_wr_buffer. by destruct (wr_results (trace k)).
  - rewrite (loop_miss _ _ _ _ _ El).
    apply Z.eqb_neq in Hr. by rewrite Hr.
Qed.

(** C9, on the code. Where every dentry has a parent, as in Linux, whose
    root dentry is its own parent, the walk has nothing to end on but a hit;
    the root is found once its record has been written. While the trace
    buffer refuses the reservations, starting from an inode the cache does
    not hold, the walk does not end: if the first [fuel] reservations are
    refused (one beyond those the buffer has an answer for is refused too),
    [fuel] runs of the loop body do not bring it to its end. *)
Theorem walk_goes_on_while_the_sink_is_full fuel k i d :
  cache_wf (inode_tracer k) →
  d_find_alias vfs i = Some d →
  (∀ d', is_Some (dget_parent vfs d')) →
  ¬ cached (inode_tracer k) i →
  (∀ d', ¬ cached (inode_tracer k) (d_inode vfs d')) →
  Forall (λ r, r ≠ 0) (take fuel (wr_results (trace k))) →
  iotrace_trace_inode hash_min ALL_FSNOTIFY_EVENTS add_mark_result
    sizeof_file_name vfs fuel k i = None.
Proof.
  intros Hwf Hd Hp Hi Hc Hrs. unfold iotrace_trace_inode. rewrite Hd.
  by apply loop_full_sink.
Qed.

(** ** What a walk leaves alone *)

Lemma get_wr_buffer_written tr :
  written (snd (octf_trace_get_wr_buffer tr)) = written tr.
Proof. unfold octf_trace_get_wr_buffer. by destruct (wr_results tr). Qed.

(** A property of a walk follows from the same property of its steps: a hit,
    a miss whose record is written, a miss whose record is not. *)
Lemma loop_steps (R : kernel → kernel → Prop) :
  (∀ k1 k2 k3, R k1 k2 → R k2 k3 → R k1 k3) →
  (∀ k i t1 e, _lookup hash_min (inode_tracer k) i = (t1, Some e) →
               R k (set_inode_tracer k t1)) →
  (∀ k i d t1 t2, _lookup hash_min (inode_tracer k) i = (t1, None) →
                  fst (octf_trace_get_wr_buffer (trace k)) = 0 →
                  _map hash_min t1 i = Some t2 →
                  R k (after_body k i d true t2)) →
  (∀ k i d t1, _lookup hash_min (inode_tracer k) i = (t1, None) →
               fst (octf_trace_get_wr_buffer (trace k)) ≠ 0 →
               R k (after_body k i d false t1)) →
  ∀ fuel k i d k', loop fuel k i d = Some k' → R k k'.
Proof.
  intros Htrans Hhit Hput Hskip.
  induction fuel as [|fuel IH]; intros k i d k'; [done|].
  destruct (_lookup hash_min (inode_tracer k) i) as [t1 [e|]] eqn:El.
  - rewrite (loop_hit _ _ _ _ _ _ El). intros [= <-]. by eapply Hhit.
  - rewrite (loop_miss _ _ _ _ _ El).
    destruct (fst (octf_trace_get_wr_buffer (trace k)) =? 0) eqn:Eg.
    + apply Z.eqb_eq in Eg.
      destruct (_map hash_min t1 i) as [t2|] eqn:Em; [|done].
      change (to_parent fuel (after_body k i d true t2) d = Some k' → R k k').
      unfold to_parent. destruct (dget_parent vfs d) as [pd|].
      * intros Hl. eapply Htrans; [by eapply Hput|by eapply IH].
      * intros [= <-]. by eapply Hput.
    + apply Z.eqb_neq in Eg.
      unfold to_parent. destruct (dget_parent vfs d) as [pd|].
      * intros Hl. eapply Htrans; [by eapply Hskip|by eapply IH].
      * intros [= <-]. by eapply Hskip.
Qed.

Lemma loop_frame fuel k i d k' :
  loop fuel k i d = Some k' →
  fsm (inode_tracer k') = fsm (inode_tracer k) ∧
  fsnotify_ops_inited k' = fsnotify_ops_inited k.
Proof.
  apply (loop_steps (λ k k',
    fsm (inode_tracer k') = fsm (inode_tracer k) ∧
    fsnotify_ops_inited k' = fsnotify_ops_inited k)).
  - intros k1 k2 k3 [-> ->] [-> ->]. done.
  - intros k0 i0 t1 e El. split; [|done]. simpl.
    replace t1 with (fst (_lookup hash_min (inode_tracer k0) i0))
      by by rewrite El.
    apply lookup_fsm.
  - intros k0 i0 d0 t1 t2 El _ Em. split; [|done]. simpl.
    rewrite (map_fsm _ _ _ Em).
    replace t1 with (fst (_lookup hash_min (inode_tracer k0) i0))
      by by rewrite El.
    apply lookup_fsm.
  - intros k0 i0 d0 t1 El _. split; [|done]. simpl.
    replace t1 with (fst (_lookup hash_min (inode_tracer k0) i0))
      by by rewrite El.
    apply lookup_fsm.
Qed.

(** X6. A walk that returns keeps the representation invariant of the cache
    and its one entry per identity, writes no entry of the arena beyond its
    bounds, and changes neither the monitor the tracer was created with nor
    the flag of the notification backend. *)
Theorem walk_keeps_the_cache_well_formed fuel k i k' :
  (0 < n)%nat →
  cache_wf (inode_tracer k) → cache_uniq (inode_tracer k) →
  iotrace_trace_inode hash_min ALL_FSNOTIFY_EVENTS add_mark_result
    sizeof_file_name vfs fuel k i = Some k' →
  cache_wf (inode_tracer k') ∧ cache_uniq (inode_tracer k') ∧
  length (entries (inode_tracer k')) = length (entries (inode_tracer k)) ∧
  fsm (inode_tracer k') = fsm (inode_tracer k) ∧
  fsnotify_ops_inited k' = fsnotify_ops_inited k.
Proof.
  intros Hn Hwf Hu Hw.
  destruct (trace_inode_inv _ _ _ _ Hn Hwf Hu Hw) as [Hwf' Hu'].
  split_and!; [done|done| |  |].
  - by rewrite (wf_entries _ Hwf'), (wf_entries _ Hwf).
  - unfold iotrace_trace_inode in Hw. destruct (d_find_alias vfs i).
    + by apply loop_frame in Hw as [? _].
    + by injection Hw as <-.
  - unfold iotrace_trace_inode in Hw. destruct (d_find_alias vfs i).
    + by apply loop_frame in Hw as [_ ?].
    + by injection Hw as <-.
Qed.

(** X7. A walk from an inode the cache holds ends at the first lookup: it
    reserves no buffer, writes no record, takes no sequence number, adds no
    mark and writes no entry of the arena, and the inode is still held
    afterwards, by the entry at the head of the LRU list. *)
Theorem walk_on_cached_inode_writes_nothing fuel k i :
  cache_wf (inode_tracer k) → cached (inode_tracer k) i →
  ∃ k', iotrace_trace_inode hash_min ALL_FSNOTIFY_EVENTS add_mark_result
          sizeof_file_name vfs (S fuel) k i = Some k' ∧
        trace k' = trace k ∧ sid k' = sid k ∧ marks k' = marks k ∧
        entries (inode_tracer k') = entries (inode_tracer k) ∧
        cached (inode_tracer k') i ∧
        (is_Some (d_find_alias vfs i) →
         ∃ e, head (lru_list (inode_tracer k')) = Some e ∧
              holds (inode_tracer k') e i).
Proof.
  intros Hwf Hc. unfold iotrace_trace_inode.
  destruct (d_find_alias vfs i) as [d|].
  - apply lookup_hit_iff in Hc as [e He]; [|done].
    destruct (_lookup hash_min (inode_tracer k) i) as [t1 r] eqn:El.
    simpl in He. subst r.
    exists (set_inode_tracer k t1). rewrite (loop_hit _ _ _ _ _ _ El).
    pose proof (lookup_hit_holds _ _ _ _ El) as Hh.
    split_and!; [done..| | |].
    + simpl. replace t1 with (fst (_lookup hash_min (inode_tracer k) i))
        by by rewrite El.
      apply lookup_entries.
    + by exists e.
    + intros _. exists e. split; [|done]. simpl.
      unfold _lookup in El. by eapply lookup_chain_Some_head.
  - exists k. split_and!; [done..|]. by intros [? ?].
Qed.

Definition is_name_event (ev : iotrace_event) : bool :=
  match ev with fs_file_name _ => true | fs_file_event _ => false end.

(** The reservations that were granted. *)
Definition granted_of (results : list Z) : list Z :=
  filter (λ r, r = 0) results.

(** X8. A walk only appends to the trace; what it appends are naming
    records, one for each reservation that was granted, and the
    reservations it made are the first of those the buffer had to give. *)
Theorem walk_appends_naming_records_only fuel k i k' :
  iotrace_trace_inode hash_min ALL_FSNOTIFY_EVENTS add_mark_result
    sizeof_file_name vfs fuel k i = Some k' →
  ∃ used evs,
    wr_results (trace k) = used ++ wr_results (trace k') ∧
    written (trace k') = written (trace k) ++ evs ∧
    Forall (λ ev, is_name_event ev = true) evs ∧
    length evs = length (granted_of used).
Proof.
  set (R := λ k k' : kernel, ∃ used evs,
    wr_results (trace k) = used ++ wr_results (trace k') ∧
    written (trace k') = written (trace k) ++ evs ∧
    Forall (λ ev, is_name_event ev = true) evs ∧
    length evs = length (granted_of used)).
  assert (∀ k0 k1, trace k1 = trace k0 → R k0 k1) as Hrefl.
  { intros k0 k1 E. exists [], []. rewrite E. split_and!; [done| |done|done].
    by rewrite app_nil_r. }
  unfold iotrace_trace_inode. destruct (d_find_alias vfs i) as [d|];
    [|intros [= <-]; by apply Hrefl].
  apply (loop_steps R).
  - intros k1 k2 k3 (u1 & e1 & Hu1 & He1 & Hf1 & Hl1)
      (u2 & e2 & Hu2 & He2 & Hf2 & Hl2).
    exists (u1 ++ u2), (e1 ++ e2). split_and!.
    + by rewrite Hu1, Hu2, app_assoc.
    + by rewrite He2, He1, app_assoc.
    + by apply Forall_app.
    + unfold granted_of in *. rewrite filter_app, !length_app. lia.
  - intros k0 i0 t1 e _. by apply Hrefl.
  - intros k0 i0 d0 t1 t2 _ Hg _.
    unfold octf_trace_get_wr_buffer in Hg.
    destruct (wr_results (trace k0)) as [|r rs] eqn:Er.
    { simpl in Hg. unfold ENOSPC in Hg. lia. }
    simpl in Hg. subst r.
    exists [0], [name_event (u64 (sid k0 + 1)) i0
                   (d_inode vfs <$> dget_parent vfs d0) (d_name vfs d0)].
    unfold after_body, octf_trace_get_wr_buffer. rewrite Er. simpl.
    split_and!; [done|done| |done].
    by apply Forall_singleton.
  - intros k0 i0 d0 t1 _ Hg.
    unfold octf_trace_get_wr_buffer in Hg.
    unfold after_body, octf_trace_get_wr_buffer.
    destruct (wr_results (trace k0)) as [|r rs] eqn:Er; simpl in *.
    { exists [], []. rewrite Er, app_nil_r. done. }
    exists [r], []. rewrite app_nil_r. split_and!; [done|done|done|].
    unfold granted_of. rewrite filter_cons_False; [done|]. done.
Qed.

(** X9. Without a monitor, or with the notification backend not
    initialised, a walk attaches no mark. *)
Theorem walk_without_monitor_adds_no_mark fuel k i k' :
  fsm (inode_tracer k) = None ∨ fsnotify_ops_inited k = false →
  iotrace_trace_inode hash_min ALL_FSNOTIFY_EVENTS add_mark_result
    sizeof_file_name vfs fuel k i = Some k' →
  marks k' = marks k.
Proof.
  intros Hno Hw.
  set (R := λ k k' : kernel,
    fsm (inode_tracer k) = None ∨ fsnotify_ops_inited k = false →
    marks k' = marks k ∧
    (fsm (inode_tracer k') = None ∨ fsnotify_ops_inited k' = false)).
  assert (∀ k0 p t, fsm (inode_tracer k0) = None ∨
                    fsnotify_ops_inited k0 = false →
    marks_after_parent (set_inode_tracer k0
      (fst (_lookup hash_min (inode_tracer k0) t))) p = marks k0) as Hm.
  { intros k0 p t H0. unfold marks_after_parent. destruct p as [p|]; [|done].
    destruct (S_ISDIR (i_mode p)); [|done]. simpl.
    rewrite lookup_fsm. destruct H0 as [-> | ->]; [done|].
    by destruct (fsm (inode_tracer k0)). }
  unfold iotrace_trace_inode in Hw. destruct (d_find_alias vfs i) as [d|];
    [|by injection Hw as <-].
  revert Hno. cut (R k k'); [intros Hr Hno; by apply Hr|].
  revert Hw. apply (loop_steps R).
  - intros k1 k2 k3 H12 H23 H1. destruct (H12 H1) as [E1 H2].
    destruct (H23 H2) as [E2 H3]. split; [congruence|done].
  - intros k0 i0 t1 e El H0. split; [done|]. simpl.
    replace t1 with (fst (_lookup hash_min (inode_tracer k0) i0))
      by by rewrite El.
    by rewrite lookup_fsm.
  - intros k0 i0 d0 t1 t2 El _ Em H0. split.
    + simpl. by apply Hm.
    + simpl. rewrite (map_fsm _ _ _ Em).
      replace t1 with (fst (_lookup hash_min (inode_tracer k0) i0))
        by by rewrite El.
      by rewrite lookup_fsm.
  - intros k0 i0 d0 t1 El _ H0. split.
    + simpl. by apply Hm.
    + simpl.
      replace t1 with (fst (_lookup hash_min (inode_tracer k0) i0))
        by by rewrite El.
      by rewrite lookup_fsm.
Qed.

(** What a mark the walk attaches looks like: it belongs to the monitor's
    group, carries every event, and sits on a directory whose attachment
    succeeded. *)
Definition walk_mark (t : iotrace_inode_tracer) (mk : fsnotify_mark) : Prop :=
  mask mk = ALL_FSNOTIFY_EVENTS ∧
  Some (mark_group mk) = group <$> fsm t ∧
  ∃ p, S_ISDIR (i_mode p) = true ∧ add_mark_result p = 0 ∧
       mark_inode mk = identity p.

Lemma marks_after_parent_grows k i p :
  marks_uniq (marks k) →
  ∃ new,
    marks_after_parent
      (set_inode_tracer k (fst (_lookup hash_min (inode_tracer k) i))) p =
      new ++ marks k ∧
    marks_uniq (new ++ marks k) ∧
    Forall (walk_mark (inode_tracer k)) new.
Proof.
  intros Hu. unfold marks_after_parent.
  assert (∃ new : list fsnotify_mark, marks k = new ++ marks k ∧
            marks_uniq (new ++ marks k) ∧
            Forall (walk_mark (inode_tracer k)) new) as Hsame
    by by exists [].
  destruct p as [p|]; [|done].
  destruct (S_ISDIR (i_mode p)) eqn:Ed; [|done].
  simpl. rewrite lookup_fsm.
  destruct (fsm (inode_tracer k)) as [m|] eqn:Em; [|done].
  destruct (fsnotify_ops_inited k); [|done].
  set (k1 := set_inode_tracer k _).
  pose proof (fs_add_mark_uniq ALL_FSNOTIFY_EVENTS add_mark_result
                k1 (group m) p Hu) as Hu1.
  destruct (fs_add_mark_grows ALL_FSNOTIFY_EVENTS add_mark_result
              k1 (group m) p) as [E|[Hr E]].
  - rewrite E. done.
  - rewrite E in Hu1 |- *.
    exists [{| mark_group := group m; mark_inode := (s_dev p, i_ino p);
               mask := ALL_FSNOTIFY_EVENTS |}].
    split_and!; [done|done|].
    apply Forall_singleton. split_and!; [done|by rewrite Em|].
    by exists p.
Qed.

(** X10. A walk only adds marks, and every mark it adds belongs to the
    group of the monitor, carries every event and sits on a directory; if no
    inode had two marks of one group before, none has afterwards. *)
Theorem walk_marks_directories_only fuel k i k' :
  marks_uniq (marks k) →
  iotrace_trace_inode hash_min ALL_FSNOTIFY_EVENTS add_mark_result
    sizeof_file_name vfs fuel k i = Some k' →
  ∃ new, marks k' = new ++ marks k ∧ marks_uniq (marks k') ∧
         Forall (walk_mark (inode_tracer k)) new.
Proof.
  intros Hu Hw.
  set (R := λ k k' : kernel, marks_uniq (marks k) →
    (∃ new, marks k' = new ++ marks k ∧ marks_uniq (marks k') ∧
            Forall (walk_mark (inode_tracer k)) new) ∧
    fsm (inode_tracer k') = fsm (inode_tracer k)).
  unfold iotrace_trace_inode in Hw. destruct (d_find_alias vfs i) as [d|].
  2:{ injection Hw as <-. by exists []. }
  revert Hu. cut (R k k'); [intros Hr Hu; by apply Hr|].
  revert Hw. apply (loop_steps R).
  - intros k1 k2 k3 H12 H23 H1.
    destruct (H12 H1) as [(n1 & E1 & U1 & F1) Ef1].
    destruct (H23 U1) as [(n2 & E2 & U2 & F2) Ef2].
    split; [|congruence].
    exists (n2 ++ n1). split_and!.
    + by rewrite E2, E1, app_assoc.
    + done.
    + apply Forall_app. split; [|done].
      eapply Forall_impl; [exact F2|].
      intros mk. unfold walk_mark. by rewrite Ef1.
  - intros k0 i0 t1 e El H0. split.
    + by exists [].
    + simpl. replace t1 with (fst (_lookup hash_min (inode_tracer k0) i0))
        by by rewrite El.
      apply lookup_fsm.
  - intros k0 i0 d0 t1 t2 El _ Em H0. split.
    + destruct (marks_after_parent_grows k0 i0
                  (d_inode vfs <$> dget_parent vfs d0) H0)
        as (new & E & U & F).
      exists new. simpl. by rewrite E.
    + simpl. rewrite (map_fsm _ _ _ Em).
      replace t1 with (fst (_lookup hash_min (inode_tracer k0) i0))
        by by rewrite El.
      apply lookup_fsm.
  - intros k0 i0 d0 t1 El _ H0. split.
    + destruct (marks_after_parent_grows k0 i0
                  (d_inode vfs <$> dget_parent vfs d0) H0)
        as (new & E & U & F).
      exists new. simpl. by rewrite E.
    + simpl.
      replace t1 with (fst (_lookup hash_min (inode_tracer k0) i0))
        by by rewrite El.
      apply lookup_fsm.
Qed.

(** One run of the loop body on a miss with room, with what it does to the
    marks, the monitor and the flag. *)
Lemma loop_insert_full fuel k i d pre rest rs :
  cache_wf (inode_tracer k) → ¬ cached (inode_tracer k) i →
  lru_list (inode_tracer k) = pre ++ rest → (length pre < n)%nat →
  (∀ x, x ∈ pre → same_identity i (entries (inode_tracer k) !!! x) = false) →
  wr_results (trace k) = 0 :: rs →
  ∃ k1 v rest',
    loop (S fuel) k i d = to_parent fuel k1 d ∧
    sid k1 = u64 (sid k + 1) ∧
    trace k1 =
      {| wr_results := rs;
         written := written (trace k) ++
           [name_event (u64 (sid k + 1)) i
              (d_inode vfs <$> dget_parent vfs d) (d_name vfs d)] |} ∧
    cache_wf (inode_tracer k1) ∧
    lru_list (inode_tracer k1) = v :: pre ++ rest' ∧
    (v ∉ pre) ∧
    entries (inode_tracer k1) =
      <[v := entry_of i]> (entries (inode_tracer k)) ∧
    holds (inode_tracer k1) v i ∧
    (∀ x j, x ∈ pre → holds (inode_tracer k) x j →
            holds (inode_tracer k1) x j) ∧
    (∀ j, identity j ≠ identity i → ¬ cached (inode_tracer k) j →
          ¬ cached (inode_tracer k1) j) ∧
    marks k1 =
      marks_after_parent
        (set_inode_tracer k (fst (_lookup hash_min (inode_tracer k) i)))
        (d_inode vfs <$> dget_parent vfs d) ∧
    fsm (inode_tracer k1) = fsm (inode_tracer k) ∧
    fsnotify_ops_inited k1 = fsnotify_ops_inited k.
Proof.
  intros Hwf Hc E Hlen Hpre Hwr.
  destruct (insert_step _ i pre rest Hwf Hc E Hlen Hpre)
    as (t1 & t2 & v & rest' & El & Em & Hwf2 & E2 & Hv & Hvn & Ee & Hf & Hh).
  assert (v < length (entries (inode_tracer k)))%nat as Hvl
    by by rewrite (wf_entries _ Hwf).
  exists (after_body k i d true t2), v, rest'. split_and!.
  - rewrite (loop_miss _ _ _ _ _ El). unfold octf_trace_get_wr_buffer.
    rewrite Hwr. simpl. by rewrite Em.
  - done.
  - simpl. unfold octf_trace_get_wr_buffer. by rewrite Hwr.
  - done.
  - done.
  - done.
  - done.
  - split; simpl.
    + apply Hh. by left.
    + by rewrite Ee, list_lookup_total_insert_eq.
  - intros x j Hx [Hxh Hxe]. simpl.
    assert (x ≠ v) as Hne by (intros ->; done).
    split.
    + apply Hh. right. split_and!; [done| |done]. by apply Hpre.
    + by rewrite Ee, list_lookup_total_insert_ne.
  - intros j Hj Hcj (x & Hx & Ex). simpl in *.
    apply Hh in Hx as [->|(Hx & _ & Hne)].
    + rewrite Ee, list_lookup_total_insert_eq in Ex by done.
      apply entry_of_identity in Ex. congruence.
    + rewrite Ee, list_lookup_total_insert_ne in Ex by done.
      apply Hcj. by exists x.
  - done.
  - done.
  - done.
Qed.

(** A mark of group [g] on inode [p]. *)
Definition marked (ms : list fsnotify_mark) (g : nat) (p : inode) : Prop :=
  ∃ mk, mk ∈ ms ∧ mark_group mk = g ∧ mark_inode mk = identity p.

Lemma fs_add_mark_marked k g p :
  add_mark_result p = 0 → marked (marks (add_mark k g p)) g p.
Proof.
  intros Hr. unfold _fs_add_mark.
  destruct (fsnotify_find_mark (marks k) p g) as [mk|] eqn:Ef.
  - unfold fsnotify_find_mark in Ef. apply find_some in Ef as [Hin Hd].
    apply bool_decide_eq_true in Hd as [Hg Hi].
    exists mk. split_and!; [|done..]. by apply list_elem_of_In.
  - rewrite Hr. simpl. eexists. split; [by left|done].
Qed.

Lemma marks_after_parent_sub k i p mk :
  mk ∈ marks k →
  mk ∈ marks_after_parent
         (set_inode_tracer k (fst (_lookup hash_min (inode_tracer k) i))) p.
Proof.
  intros Hin. unfold marks_after_parent. destruct p as [p|]; [|done].
  destruct (S_ISDIR (i_mode p)); [|done]. simpl.
  destruct (fsm _) as [mon|]; [|done].
  destruct (fsnotify_ops_inited k); [|done].
  destruct (fs_add_mark_grows ALL_FSNOTIFY_EVENTS add_mark_result
              (set_inode_tracer k
                 (fst (_lookup hash_min (inode_tracer k) i)))
              (group mon) p) as [->|[_ ->]]; [done|by right].
Qed.

Lemma marks_after_parent_marked k i p mon :
  fsm (inode_tracer k) = Some mon → fsnotify_ops_inited k = true →
  S_ISDIR (i_mode p) = true → add_mark_result p = 0 →
  marked (marks_after_parent
            (set_inode_tracer k (fst (_lookup hash_min (inode_tracer k) i)))
            (Some p)) (group mon) p.
Proof.
  intros Hf Hi Hd Hr. unfold marks_after_parent. rewrite Hd. simpl.
  rewrite lookup_fsm, Hf, Hi. by apply fs_add_mark_marked.
Qed.

(** ** Walks of any depth *)

(** The inodes from [i] at dentry [d] up to the first root, at most [m]
    parents up. *)
Fixpoint path_inodes (m : nat) (i : inode) (d : nat) : list inode :=
  i :: if is_root d then [] else
       match m, dget_parent vfs d with
       | S m', Some pd => path_inodes m' (d_inode vfs pd) pd
       | _, _ => []
       end.

(** The naming records of these inodes, numbered from [s + 1]. The parent
    in the record of a root is what [dget_parent] gives for it: the root
    itself in Linux. *)
Fixpoint path_events (m : nat) (s : Z) (i : inode) (d : nat)
  : list iotrace_event :=
  name_event (u64 (s + 1)) i (d_inode vfs <$> dget_parent vfs d)
    (d_name vfs d) ::
  if is_root d then [] else
  match m, dget_parent vfs d with
  | S m', Some pd => path_events m' (u64 (s + 1)) (d_inode vfs pd) pd
  | _, _ => []
  end.

Lemma path_inodes_unfold m i d :
  path_inodes m i d =
  i :: if is_root d then [] else
       match m, dget_parent vfs d with
       | S m', Some pd => path_inodes m' (d_inode vfs pd) pd
       | _, _ => []
       end.
Proof. by destruct m. Qed.

Lemma path_events_unfold m s i d :
  path_events m s i d =
  name_event (u64 (s + 1)) i (d_inode vfs <$> dget_parent vfs d)
    (d_name vfs d) ::
  if is_root d then [] else
  match m, dget_parent vfs d with
  | S m', Some pd => path_events m' (u64 (s + 1)) (d_inode vfs pd) pd
  | _, _ => []
  end.
Proof. by destruct m. Qed.

Lemma reaches_root_unfold m d :
  reaches_root m d =
  is_root d ||
  match m, dget_parent vfs d with
  | S m', Some pd => reaches_root m' pd
  | _, _ => false
  end.
Proof. by destruct m. Qed.

(** Below a root there is a parent to go on with. *)
Lemma reaches_root_step m d :
  reaches_root m d = true → is_root d = false →
  ∃ m' pd, m = S m' ∧ dget_parent vfs d = Some pd ∧
           reaches_root m' pd = true.
Proof.
  rewrite reaches_root_unfold. intros Hr Hd. rewrite Hd in Hr. simpl in Hr.
  destruct m as [|m']; [done|].
  destruct (dget_parent vfs d) as [pd|]; [|done]. by exists m', pd.
Qed.

(** The end of the walk, at a root the cache does not hold: its record is
    written, it is inserted, and the loop is over, after one more run of
    its body when the root is its own parent. *)
Lemma loop_names_root fuel k i d pre rest rs :
  cache_wf (inode_tracer k) →
  lru_list (inode_tracer k) = pre ++ rest →
  (length pre < n)%nat →
  (∀ x, x ∈ pre → same_identity i (entries (inode_tracer k) !!! x) = false) →
  ¬ cached (inode_tracer k) i →
  is_root d = true → d_inode vfs d = i →
  wr_results (trace k) = 0 :: rs →
  ∃ k', loop (S (S fuel)) k i d = Some k' ∧
        written (trace k') =
          written (trace k) ++
          [name_event (u64 (sid k + 1)) i (d_inode vfs <$> dget_parent vfs d)
             (d_name vfs d)] ∧
        wr_results (trace k') = rs ∧
        cache_wf (inode_tracer k') ∧
        cached (inode_tracer k') i ∧
        (∀ x j, x ∈ pre → holds (inode_tracer k) x j →
                holds (inode_tracer k') x j) ∧
        (∀ mk, mk ∈ marks k → mk ∈ marks k').
Proof.
  intros Hwf E Hlen Hpre Hunc Er Hi Hwr.
  destruct (loop_insert_full (S fuel) k i d pre rest rs Hwf Hunc E Hlen Hpre
              Hwr)
    as (k1 & v & rest' & Hl & Hsid & Htr & Hwf1 & E1 & Hv & Ee & Hh & Hk
        & _ & Hmk & _).
  destruct (to_parent_root fuel k1 i d v Er Hi Hwf1 Hh)
    as (k' & Hl' & Hs' & Ht' & Hm' & He' & Hwf' & Hc' & Hk').
  exists k'. split_and!.
  - by rewrite Hl.
  - by rewrite Ht', Htr.
  - by rewrite Ht', Htr.
  - done.
  - done.
  - intros x j Hx Hxj. apply Hk'; [by apply Hk|].
    rewrite Ee, list_lookup_total_insert_ne by (intros ->; done).
    by apply Hpre.
  - intros mk Hin. rewrite Hm', Hmk. by apply marks_after_parent_sub.
Qed.

(** The walk up a path none of whose inodes is cached: one record and one
    entry for each, the root included. *)
Lemma loop_names_path m : ∀ k i d pre rest rs,
  cache_wf (inode_tracer k) →
  lru_list (inode_tracer k) = pre ++ rest →
  (length pre + length (path_inodes m i d) ≤ n)%nat →
  (∀ x j, x ∈ pre → j ∈ path_inodes m i d →
          same_identity j (entries (inode_tracer k) !!! x) = false) →
  NoDup (identity <$> path_inodes m i d) →
  (∀ j, j ∈ path_inodes m i d → ¬ cached (inode_tracer k) j) →
  reaches_root m d = true → d_inode vfs d = i →
  wr_results (trace k) = replicate (length (path_inodes m i d)) 0 ++ rs →
  ∃ k', loop (S (S m)) k i d = Some k' ∧
        written (trace k') = written (trace k) ++ path_events m (sid k) i d ∧
        wr_results (trace k') = rs ∧
        cache_wf (inode_tracer k') ∧
        (∀ j, j ∈ path_inodes m i d → cached (inode_tracer k') j) ∧
        (∀ x j, x ∈ pre → holds (inode_tracer k) x j →
                holds (inode_tracer k') x j) ∧
        (∀ mk, mk ∈ marks k → mk ∈ marks k') ∧
        (∀ mon, fsm (inode_tracer k) = Some mon →
                fsnotify_ops_inited k = true →
                ∀ p, p ∈ tail (path_inodes m i d) →
                     S_ISDIR (i_mode p) = true → add_mark_result p = 0 →
                     marked (marks k') (group mon) p).
Proof.
  assert (∀ fuel m k i d pre rest rs,
    cache_wf (inode_tracer k) →
    lru_list (inode_tracer k) = pre ++ rest →
    (length pre + length (path_inodes m i d) ≤ n)%nat →
    (∀ x j, x ∈ pre → j ∈ path_inodes m i d →
            same_identity j (entries (inode_tracer k) !!! x) = false) →
    (∀ j, j ∈ path_inodes m i d → ¬ cached (inode_tracer k) j) →
    is_root d = true → d_inode vfs d = i →
    wr_results (trace k) = replicate (length (path_inodes m i d)) 0 ++ rs →
    ∃ k', loop (S (S fuel)) k i d = Some k' ∧
          written (trace k') = written (trace k) ++ path_events m (sid k) i d ∧
          wr_results (trace k') = rs ∧
          cache_wf (inode_tracer k') ∧
          (∀ j, j ∈ path_inodes m i d → cached (inode_tracer k') j) ∧
          (∀ x j, x ∈ pre → holds (inode_tracer k) x j →
                  holds (inode_tracer k') x j) ∧
          (∀ mk, mk ∈ marks k → mk ∈ marks k') ∧
          (∀ mon, fsm (inode_tracer k) = Some mon →
                  fsnotify_ops_inited k = true →
                  ∀ p, p ∈ tail (path_inodes m i d) →
                       S_ISDIR (i_mode p) = true → add_mark_result p = 0 →
                       marked (marks k') (group mon) p)) as Hrootcase.
  { intros fuel m0 k i d pre rest rs Hwf E Hlen Hpre Hunc Er Hi Hwr.
    rewrite path_inodes_unfold in Hlen, Hpre, Hunc, Hwr |- *.
    rewrite path_events_unfold. rewrite Er in *. simpl in Hlen, Hwr.
    destruct (loop_names_root fuel k i d pre rest rs Hwf E)
      as (k' & Hl & Hw & Hrs & Hwf' & Hc & Hk & Hsub); [lia| |  |done..|].
    { intros x Hx. apply Hpre; [done|by left]. }
    { apply Hunc. by left. }
    exists k'. split_and!; [done..| |done|done|].
    - by intros j ->%list_elem_of_singleton.
    - intros mon _ _ p Hp. by apply elem_of_nil in Hp. }
  induction m as [|m IH]; intros k i d pre rest rs Hwf E Hlen Hpre Hnd Hunc
    Hroot Hi Hwr.
  { destruct (is_root d) eqn:Er; [by apply (Hrootcase _ _ _ _ _ _ rest)|].
    by destruct (reaches_root_step _ _ Hroot Er) as (m' & pd & Em & _). }
  destruct (is_root d) eqn:Er; [by apply (Hrootcase _ _ _ _ _ _ rest)|].
  destruct (reaches_root_step _ _ Hroot Er) as (m' & pd & Em & Ep & Hr').
  injection Em as <-.
  rewrite path_inodes_unfold in Hlen, Hpre, Hnd, Hunc, Hwr |- *.
  rewrite path_events_unfold.
  rewrite Er, Ep in Hlen, Hpre, Hnd, Hunc, Hwr |- *.
  set (tl := path_inodes m (d_inode vfs pd) pd) in *.
  simpl in Hlen, Hwr. rewrite fmap_cons in Hnd.
  apply NoDup_cons in Hnd as [Hni Hnd].
  destruct (loop_insert_full (S (S m)) k i d pre rest
              (replicate (length tl) 0 ++ rs) Hwf) as
    (k1 & v & rest' & Hl & Hsid & Htr & Hwf1 & E1 & Hv & Ee & Hh & Hk
     & Hc1 & Hmk & Hfsm & Hin1).
  { apply Hunc. by left. }
  { done. }
  { lia. }
  { intros x Hx. apply Hpre; [done|by left]. }
  { done. }
  unfold to_parent in Hl. rewrite Ep in Hl. rewrite Ep in Hmk.
  assert (∀ j, j ∈ tl → identity j ≠ identity i) as Hne.
  { intros j Hj Hji. apply Hni. rewrite <- Hji.
    by apply list_elem_of_fmap_2. }
  destruct (IH k1 (d_inode vfs pd) pd (v :: pre) rest' rs)
    as (k' & Hl' & Hw' & Hr'' & Hwf' & Hc' & Hk' & Hsub' & Hmarked');
    [done|done| | |done| |done|done| |].
  { simpl. fold tl. lia. }
  { fold tl. intros x j Hx Hj. apply elem_of_cons in Hx as [->|Hx].
    - destruct Hh as [_ ->]. apply same_identity_other. by apply Hne.
    - rewrite Ee. rewrite list_lookup_total_insert_ne
        by (intros ->; done).
      apply Hpre; [done|by right]. }
  { fold tl. intros j Hj. apply Hc1; [by apply Hne|].
    apply Hunc. by right. }
  { fold tl. by rewrite Htr. }
  exists k'. split_and!.
  - by rewrite Hl.
  - rewrite Hw', Htr, Hsid, Ep. simpl. by rewrite <- app_assoc.
  - done.
  - done.
  - intros j [->|Hj]%elem_of_cons.
    + exists v. apply Hk'; [by left|done].
    + by apply Hc'.
  - intros x j Hx Hxj. apply Hk'; [by right|]. by apply Hk.
  - intros mk Hin. apply Hsub'. rewrite Hmk.
    by apply marks_after_parent_sub.
  - intros mon Hmon Hinit p Hp Hdir Hres. simpl in Hp. fold tl in Hp.
    unfold tl in Hp. rewrite path_inodes_unfold in Hp.
    apply elem_of_cons in Hp as [->|Hp].
    + destruct (marks_after_parent_marked k i (d_inode vfs pd) mon
                  Hmon Hinit Hdir Hres) as (mk & Hin & Hg & Hi').
      exists mk. split_and!; [|done..]. apply Hsub'. by rewrite Hmk.
    + apply (Hmarked' mon); [congruence|congruence| |done..].
      by rewrite path_inodes_unfold.
Qed.

(** X11. A walk of any depth: from an inode whose dentry reaches a root
    within [m] steps (in Linux the dentry that is its own parent), with no
    inode on the way held by the cache, the inodes on the way having
    different identities and being no more than the cache has entries, and
    room in the buffer for one record each, the walk writes exactly the
    naming records of the inodes on the way, the starting inode first and
    the root last, the root's record naming as its parent what the dentry
    cache gives for it; it uses exactly these reservations, and the cache
    holds every one of the inodes afterwards. [m + 2] runs of the loop body
    are enough: one for each inode and one that finds the root. *)
Theorem walk_names_every_uncached_ancestor m k i d rs :
  cache_wf (inode_tracer k) →
  d_find_alias vfs i = Some d → d_inode vfs d = i →
  reaches_root m d = true →
  (length (path_inodes m i d) ≤ n)%nat →
  NoDup (identity <$> path_inodes m i d) →
  (∀ j, j ∈ path_inodes m i d → ¬ cached (inode_tracer k) j) →
  wr_results (trace k) = replicate (length (path_inodes m i d)) 0 ++ rs →
  ∃ k', iotrace_trace_inode hash_min ALL_FSNOTIFY_EVENTS add_mark_result
          sizeof_file_name vfs (S (S m)) k i = Some k' ∧
        written (trace k') = written (trace k) ++ path_events m (sid k) i d ∧
        wr_results (trace k') = rs ∧
        cache_wf (inode_tracer k') ∧
        (∀ j, j ∈ path_inodes m i d → cached (inode_tracer k') j).
Proof.
  intros Hwf Hd Hi Hroot Hlen Hnd Hunc Hwr.
  destruct (loop_names_path m k i d [] (lru_list (inode_tracer k)) rs)
    as (k' & Hl & Hw & Hr & Hwf' & Hc & _); try done.
  { intros x j Hx. by apply elem_of_nil in Hx. }
  exists k'. unfold iotrace_trace_inode. rewrite Hd. done.
Qed.

(** X24. The walk watches the directories above what it names: under the
    same conditions, with a monitor and the backend initialised, every
    parent on the way that is a directory and takes the mark has a mark of
    the monitor's group afterwards, and no mark has been removed. *)
Theorem walk_watches_the_directories_above m k i d rs mon :
  cache_wf (inode_tracer k) →
  d_find_alias vfs i = Some d → d_inode vfs d = i →
  reaches_root m d = true →
  (length (path_inodes m i d) ≤ n)%nat →
  NoDup (identity <$> path_inodes m i d) →
  (∀ j, j ∈ path_inodes m i d → ¬ cached (inode_tracer k) j) →
  wr_results (trace k) = replicate (length (path_inodes m i d)) 0 ++ rs →
  fsm (inode_tracer k) = Some mon → fsnotify_ops_inited k = true →
  ∃ k', iotrace_trace_inode hash_min ALL_FSNOTIFY_EVENTS add_mark_result
          sizeof_file_name vfs (S (S m)) k i = Some k' ∧
        (∀ mk, mk ∈ marks k → mk ∈ marks k') ∧
        (∀ p, p ∈ tail (path_inodes m i d) →
              S_ISDIR (i_mode p) = true → add_mark_result p = 0 →
              marked (marks k') (group mon) p).
Proof.
  intros Hwf Hd Hi Hroot Hlen Hnd Hunc Hwr Hmon Hinit.
  destruct (loop_names_path m k i d [] (lru_list (inode_tracer k)) rs)
    as (k' & Hl & _ & _ & _ & _ & _ & Hsub & Hmarked); try done.
  { intros x j Hx. by apply elem_of_nil in Hx. }
  exists k'. unfold iotrace_trace_inode. rewrite Hd.
  split_and!; [done|done|]. by apply Hmarked.
Qed.

(** The walk up a path whatever the cache holds: it ends at the first hit,
    or at the root. *)
Lemma loop_caches m : ∀ k i d pre rest rs,
  cache_wf (inode_tracer k) →
  lru_list (inode_tracer k) = pre ++ rest →
  (length pre + length (path_inodes m i d) ≤ n)%nat →
  (∀ x j, x ∈ pre → j ∈ path_inodes m i d →
          same_identity j (entries (inode_tracer k) !!! x) = false) →
  NoDup (identity <$> path_inodes m i d) →
  reaches_root m d = true → d_inode vfs d = i →
  wr_results (trace k) = replicate (length (path_inodes m i d)) 0 ++ rs →
  ∃ k', loop (S (S m)) k i d = Some k' ∧
        cache_wf (inode_tracer k') ∧
        cached (inode_tracer k') i ∧
        (∀ x j, x ∈ pre → holds (inode_tracer k) x j →
                holds (inode_tracer k') x j).
Proof.
  assert (∀ fuel m k i d pre rest rs,
    cache_wf (inode_tracer k) →
    lru_list (inode_tracer k) = pre ++ rest →
    (length pre + length (path_inodes m i d) ≤ n)%nat →
    (∀ x j, x ∈ pre → j ∈ path_inodes m i d →
            same_identity j (entries (inode_tracer k) !!! x) = false) →
    ¬ cached (inode_tracer k) i →
    is_root d = true → d_inode vfs d = i →
    wr_results (trace k) = replicate (length (path_inodes m i d)) 0 ++ rs →
    ∃ k', loop (S (S fuel)) k i d = Some k' ∧
          cache_wf (inode_tracer k') ∧
          cached (inode_tracer k') i ∧
          (∀ x j, x ∈ pre → holds (inode_tracer k) x j →
                  holds (inode_tracer k') x j)) as Hrootcase.
  { intros fuel m0 k i d pre rest rs Hwf E Hlen Hpre Hunc Er Hi Hwr.
    rewrite path_inodes_unfold in Hlen, Hpre, Hwr.
    rewrite Er in *. simpl in Hlen, Hwr.
    destruct (loop_names_root fuel k i d pre rest rs Hwf E)
      as (k' & Hl & _ & _ & Hwf' & Hc & Hk & _); [lia| |done..|].
    { intros x Hx. apply Hpre; [done|by left]. }
    by exists k'. }
  induction m as [|m IH]; intros k i d pre rest rs Hwf E Hlen Hpre Hnd
    Hroot Hi Hwr;
    (destruct (_lookup hash_min (inode_tracer k) i) as [t1 [e|]] eqn:El;
     [ exists (set_inode_tracer k t1);
       rewrite (loop_hit _ _ _ _ _ _ El);
       assert (t1 = fst (_lookup hash_min (inode_tracer k) i)) as Et
         by (by rewrite El);
       split_and!;
       [ done
       | simpl; rewrite Et; by apply lookup_wf
       | exists e; by apply (lookup_hit_holds _ _ _ _ El)
       | intros x j Hx Hxj; simpl; rewrite Et;
         apply lookup_keeps_holds; [done|];
         apply Hpre; [done|rewrite path_inodes_unfold; by left] ]
     | assert (¬ cached (inode_tracer k) i) as Hunc
         by (apply (lookup_None_iff _ i Hwf); by rewrite El) ]).
  { destruct (is_root d) eqn:Er; [by apply (Hrootcase _ 0%nat _ _ _ _ rest rs)|].
    by destruct (reaches_root_step _ _ Hroot Er) as (m' & pd & Em & _). }
  destruct (is_root d) eqn:Er;
    [by apply (Hrootcase _ (S m) _ _ _ _ rest rs)|].
  destruct (reaches_root_step _ _ Hroot Er) as (m' & pd & Em & Ep & Hr').
  injection Em as <-.
  rewrite path_inodes_unfold in Hlen, Hpre, Hnd, Hwr.
  rewrite Er, Ep in Hlen, Hpre, Hnd, Hwr.
  set (tl := path_inodes m (d_inode vfs pd) pd) in *.
  simpl in Hlen, Hwr. rewrite fmap_cons in Hnd.
  apply NoDup_cons in Hnd as [Hni Hnd].
  destruct (loop_insert (S (S m)) k i d pre rest
              (replicate (length tl) 0 ++ rs) Hwf) as
    (k1 & v & rest' & Hl & Hsid & Htr & Hwf1 & E1 & Hv & Ee & Hh & Hk
     & _).
  { done. }
  { done. }
  { lia. }
  { intros x Hx. apply Hpre; [done|by left]. }
  { done. }
  unfold to_parent in Hl. rewrite Ep in Hl.
  assert (∀ j, j ∈ tl → identity j ≠ identity i) as Hne.
  { intros j Hj Hji. apply Hni. rewrite <- Hji.
    by apply list_elem_of_fmap_2. }
  destruct (IH k1 (d_inode vfs pd) pd (v :: pre) rest' rs)
    as (k' & Hl' & Hwf' & Hc' & Hk'); [done|done| | |done|done|done| |].
  { simpl. fold tl. lia. }
  { fold tl. intros x j Hx Hj. apply elem_of_cons in Hx as [->|Hx].
    - destruct Hh as [_ ->]. apply same_identity_other. by apply Hne.
    - rewrite Ee. rewrite list_lookup_total_insert_ne
        by (intros ->; done).
      apply Hpre; [done|by right]. }
  { fold tl. by rewrite Htr. }
  exists k'. split_and!.
  - by rewrite Hl.
  - done.
  - exists v. apply Hk'; [by left|done].
  - intros x j Hx Hxj. apply Hk'; [by right|]. by apply Hk.
Qed.

(** X12. Whatever the cache holds before: with room in the buffer for one
    record per inode on the way to the root (in Linux the dentry that is
    its own parent), these inodes having different identities and being no
    more than the cache has entries, the walk returns with its starting
    inode held by the cache, so that the next walk from it writes nothing,
    whatever the buffer then answers. *)
Theorem walk_caches_its_inode m k i d rs :
  cache_wf (inode_tracer k) →
  d_find_alias vfs i = Some d → d_inode vfs d = i →
  reaches_root m d = true →
  (length (path_inodes m i d) ≤ n)%nat →
  NoDup (identity <$> path_inodes m i d) →
  wr_results (trace k) = replicate (length (path_inodes m i d)) 0 ++ rs →
  ∃ k', iotrace_trace_inode hash_min ALL_FSNOTIFY_EVENTS add_mark_result
          sizeof_file_name vfs (S (S m)) k i = Some k' ∧
        cache_wf (inode_tracer k') ∧
        cached (inode_tracer k') i ∧
        ∀ fuel tr, ∃ k'',
          iotrace_trace_inode hash_min ALL_FSNOTIFY_EVENTS add_mark_result
            sizeof_file_name vfs (S fuel) (set_trace k' (sid k') tr) i
            = Some k'' ∧
          trace k'' = tr ∧ sid k'' = sid k' ∧ marks k'' = marks k'.
Proof.
  intros Hwf Hd Hi Hroot Hlen Hnd Hwr.
  destruct (loop_caches m k i d [] (lru_list (inode_tracer k)) rs)
    as (k' & Hl & Hwf' & Hc & _); try done.
  { intros x j Hx. by apply elem_of_nil in Hx. }
  exists k'. unfold iotrace_trace_inode. rewrite Hd.
  split_and!; [done..|].
  intros fuel tr.
  apply lookup_hit_iff in Hc as [e He]; [|done].
  destruct (_lookup hash_min (inode_tracer k') i) as [t1 r] eqn:El.
  simpl in He. subst r.
  exists (set_inode_tracer (set_trace k' (sid k') tr) t1).
  split; [|done].
  by apply (loop_hit fuel (set_trace k' (sid k') tr) i d t1 e).
Qed.

End CacheAndWalk.

(** * The cache with the sizes of the source *)

(** [hash_min] on a 64-bit kernel since Linux 4.7 is [hash_64]: the product
    with the golden ratio, truncated to 64 bits, shifted down to [bits]
    bits. *)
Definition GOLDEN_RATIO_64 : Z := 0x61C8864680B583EB.

Definition hash_64 (val bits : Z) : Z :=
  Z.shiftr (u64 (val * GOLDEN_RATIO_64)) (64 - bits).

Definition hash_min_64 (key : Z) : nat :=
  Z.to_nat (hash_64 key CACHE_HASH_BITS).

Lemma hash_min_64_range key :
  (hash_min_64 key < Z.to_nat HASH_SIZE_hash_table)%nat.
Proof.
  unfold hash_min_64, hash_64, u64, CACHE_HASH_BITS.
  change (Z.to_nat HASH_SIZE_hash_table) with (Z.to_nat 1024).
  rewrite Z.shiftr_div_pow2 by lia.
  pose proof (Z.mod_pos_bound (key * GOLDEN_RATIO_64) (2 ^ 64) ltac:(lia)) as H.
  assert (0 ≤ (key * GOLDEN_RATIO_64) mod 2 ^ 64 / 2 ^ (64 - 10) < 1024).
  { split; [apply Z.div_pos; lia|]. apply Z.div_lt_upper_bound; lia. }
  lia.
Qed.

(** C4. The arena has [CACHE_SIZE] entries in every state of the cache, and
    the chains never hold more than [CACHE_SIZE] of them; an insertion
    succeeds in every state, its victim being the last entry of the LRU
    list; and [CACHE_SIZE + 1] insertions of keys with different identities
    into the new cache, with no lookup in between, leave every key cached
    but the first. *)
Theorem cache_never_exceeds_CACHE_SIZE hash_min m t i k0 rest :
  (∀ key, (hash_min key < Z.to_nat HASH_SIZE_hash_table)%nat) →
  cache_reachable hash_min (Z.to_nat CACHE_SIZE)
    (Z.to_nat HASH_SIZE_hash_table) m t →
  length (k0 :: rest) = S (Z.to_nat CACHE_SIZE) →
  NoDup (identity <$> k0 :: rest) →
  (length (entries t) = Z.to_nat CACHE_SIZE ∧
   (length (live_mappings t) ≤ Z.to_nat CACHE_SIZE)%nat) ∧
  (∃ l v t',
     lru_list t = l ++ [v] ∧
     _map hash_min t i = Some t' ∧
     lru_list t' = v :: l ∧
     entries t' = <[v := entry_of i]> (entries t) ∧
     hashed t' v) ∧
  (∃ t',
     map_all hash_min (iotrace_create_inode_tracer m) (k0 :: rest) = Some t' ∧
     snd (_lookup hash_min t' k0) = None ∧
     ∀ k, k ∈ rest → is_Some (snd (_lookup hash_min t' k))).
Proof.
  intros Hrange Hreach Hlen Hnd.
  assert (0 < Z.to_nat CACHE_SIZE)%nat as Hn.
  { change CACHE_SIZE with 8192. lia. }
  pose proof (reachable_wf _ _ _ _ _ Hrange Hreach) as Hwf.
  split_and!.
  - apply (wf_entries _ _ _ Hwf).
  - by eapply wf_live_bound.
  - destruct (map_spec _ _ t i Hwf Hn)
      as (l & v & t' & E & _ & _ & Hm & _ & El & Ee & _ & Hh).
    exists l, v, t'. split_and!; [done..|]. apply Hh. by left.
  - destruct (overflow_evicts_first hash_min _ _ m k0 rest Hrange Hn Hlen Hnd)
      as (t' & Hm & _ & H0 & Hrest).
    exists t'. unfold iotrace_create_inode_tracer.
    split_and!; [exact Hm|exact H0|exact Hrest].
Qed.

(** C5. In a cache of three entries, after the insertions of A, B and C, a
    lookup of A is a hit that moves the entry of A to the head of the LRU
    list, and the insertion of D that follows evicts B: B is no longer
    found, while A, C and D are. *)
Theorem lookup_protects_from_eviction hash_min nb m A B C D :
  (∀ key, (hash_min key < nb)%nat) →
  NoDup (identity <$> [A; B; C; D]) →
  ∃ t3 t4 e t5,
    map_all hash_min (create_inode_tracer nb 3 m) [A; B; C] = Some t3 ∧
    _lookup hash_min t3 A = (t4, Some e) ∧
    head (lru_list t4) = Some e ∧ entries t4 !!! e = entry_of A ∧
    _map hash_min t4 D = Some t5 ∧
    snd (_lookup hash_min t5 B) = None ∧
    is_Some (snd (_lookup hash_min t5 A)) ∧
    is_Some (snd (_lookup hash_min t5 C)) ∧
    is_Some (snd (_lookup hash_min t5 D)).
Proof.
  intros Hrange Hnd.
  assert (identity A ≠ identity B ∧ identity A ≠ identity C ∧
          identity A ≠ identity D ∧ identity B ≠ identity C ∧
          identity B ≠ identity D ∧ identity C ≠ identity D)
    as (HAB & HAC & HAD & HBC & HBD & HCD).
  { simpl in Hnd. rewrite !NoDup_cons, !not_elem_of_cons in Hnd. tauto. }
  destruct (fresh_inserts hash_min 3 nb m [A; B; C] Hrange ltac:(simpl; lia))
    as (t3 & Hm & Hwf3 & El & Ee & Hh).
  change (lru_list t3 = [2%nat; 1%nat; 0%nat]) in El.
  change (entries t3 = [entry_of A; entry_of B; entry_of C]) in Ee.
  assert (entries t3 !!! 0%nat = entry_of A ∧ entries t3 !!! 1%nat = entry_of B ∧
          entries t3 !!! 2%nat = entry_of C) as (E0 & E1 & E2)
    by by rewrite Ee.
  assert (∀ x, (x < 3)%nat → x = 0%nat ∨ x = 1%nat ∨ x = 2%nat) as H3
    by (intros; lia).
  (* the lookup of A promotes entry 0 *)
  assert (_lookup hash_min t3 A = (_set_hot t3 0, Some 0%nat)) as HlA.
  { apply (lookup_clean_hit hash_min 3); [done|apply Hh; simpl; lia|done|].
    intros x Hx%Hh Hid. simpl in Hx.
    destruct (H3 x Hx) as [->|[->| ->]]; [done|exfalso..].
    - rewrite E1, same_identity_other in Hid; done.
    - rewrite E2, same_identity_other in Hid; done. }
  set (t4 := _set_hot t3 0).
  assert (cache_wf hash_min 3 t4) as Hwf4 by (apply wf_set_hot; [done|lia]).
  assert (lru_list t4 = [0%nat; 2%nat] ++ [1%nat]) as El4.
  { unfold t4; simpl. by rewrite El. }
  (* the insertion of D takes entry 1 *)
  set (t5 := {| hash_table := hash_add hash_min (hash_del 1 (hash_table t4)) 1 (i_ino D);
                lru_list := [1%nat; 0%nat; 2%nat];
                entries := <[1%nat := entry_of D]> (entries t4);
                fsm := fsm t4 |}).
  assert (_map hash_min t4 D = Some t5) as HmD.
  { apply (_map_victim _ _ _ [0%nat; 2%nat] 1%nat El4).
    rewrite !not_elem_of_cons, elem_of_nil. lia. }
  assert (cache_wf hash_min 3 t5) as Hwf5 by by apply (wf_map_victim _ _ _ _ _ _ Hwf4 El4).
  assert (∀ x, hashed t5 x ↔ (x < 3)%nat) as Hh5.
  { intros x.
    change (hashed t5 x) with
      (x ∈ concat (hash_add hash_min (hash_del 1 (hash_table t4)) 1 (i_ino D))).
    rewrite (map_victim_hashed _ _ _ _ _ _ _ Hwf4 El4).
    change (hashed t4 x) with (hashed t3 x). rewrite Hh. simpl.
    destruct (decide (x = 1%nat)); subst; intuition lia. }
  assert (entries t5 !!! 0%nat = entry_of A ∧ entries t5 !!! 1%nat = entry_of D ∧
          entries t5 !!! 2%nat = entry_of C) as (E0' & E1' & E2').
  { unfold t5, t4; simpl. by rewrite Ee. }
  exists t3, t4, 0%nat, t5. split_and!; [done|done|by rewrite El4|done|done|..].
  - apply (lookup_None_iff hash_min 3); [done|]. intros (x & Hx%Hh5 & Ex).
    destruct (H3 x Hx) as [->|[->| ->]].
    + rewrite E0' in Ex. apply entry_of_identity in Ex. congruence.
    + rewrite E1' in Ex. apply entry_of_identity in Ex. congruence.
    + rewrite E2' in Ex. apply entry_of_identity in Ex. congruence.
  - apply (lookup_hit_iff hash_min 3); [done|]. exists 0%nat. split; [apply Hh5; lia|done].
  - apply (lookup_hit_iff hash_min 3); [done|]. exists 2%nat. split; [apply Hh5; lia|done].
  - apply (lookup_hit_iff hash_min 3); [done|]. exists 1%nat. split; [apply Hh5; lia|done].
Qed.

(** C6, on the code: the arena has eight entries per bucket, not four,
    because [CACHE_HASH_SIZE] is twice the number of buckets that
    [DECLARE_HASHTABLE] declares for [CACHE_HASH_BITS]. *)
Theorem cache_size_is_eight_times_buckets :
  CACHE_HASH_SIZE = 2 * HASH_SIZE_hash_table ∧
  CACHE_SIZE = 8 * HASH_SIZE_hash_table ∧
  CACHE_SIZE ≠ 4 * HASH_SIZE_hash_table ∧
  ∀ m, length (entries (iotrace_create_inode_tracer m)) =
       (8 * length (hash_table (iotrace_create_inode_tracer m)))%nat.
Proof.
  split_and!; [reflexivity|reflexivity|discriminate|].
  intros m. unfold iotrace_create_inode_tracer, create_inode_tracer.
  cbn [entries hash_table]. rewrite !length_replicate.
  change CACHE_SIZE with 8192. change HASH_SIZE_hash_table with 1024. lia.
Qed.

(** * Marks and the event handler *)

Section Marks.

Variable ALL_FSNOTIFY_EVENTS : Z.
Variable add_mark_result : inode → Z.

Abbreviation add_mark := (_fs_add_mark ALL_FSNOTIFY_EVENTS add_mark_result).
Abbreviation handle_event :=
  (_fs_handle_event ALL_FSNOTIFY_EVENTS add_mark_result).

Definition new_mark (g : nat) (i : inode) : fsnotify_mark :=
  {| mark_group := g; mark_inode := (s_dev i, i_ino i);
     mask := ALL_FSNOTIFY_EVENTS |}.

Lemma find_new_mark g i ms :
  fsnotify_find_mark (new_mark g i :: ms) i g = Some (new_mark g i).
Proof.
  unfold fsnotify_find_mark. simpl. by rewrite bool_decide_eq_true_2.
Qed.

Lemma fs_add_mark_twice k g i : add_mark (add_mark k g i) g i = add_mark k g i.
Proof.
  unfold _fs_add_mark. fold (new_mark g i).
  destruct (fsnotify_find_mark (marks k) i g) eqn:Ef.
  - by rewrite Ef.
  - destruct (add_mark_result i =? 0) eqn:Er.
    + change (marks (set_marks k (new_mark g i :: marks k)))
        with (new_mark g i :: marks k).
      by rewrite find_new_mark.
    + by rewrite ?Ef, ?Er.
Qed.

(** C7. [_fs_add_mark] changes nothing when the group already has a mark on
    the inode; without one it attaches a mark for [ALL_FSNOTIFY_EVENTS],
    which the group then finds on the inode; when the attachment fails it
    changes nothing and reports nothing; and a second call after a first
    one changes nothing. *)
Theorem fs_add_mark_idempotent k g i :
  (is_Some (fsnotify_find_mark (marks k) i g) →
   _fs_add_mark ALL_FSNOTIFY_EVENTS add_mark_result k g i = k) ∧
  (fsnotify_find_mark (marks k) i g = None → add_mark_result i = 0 →
   _fs_add_mark ALL_FSNOTIFY_EVENTS add_mark_result k g i =
     set_marks k (new_mark g i :: marks k) ∧
   fsnotify_find_mark
     (marks (_fs_add_mark ALL_FSNOTIFY_EVENTS add_mark_result k g i)) i g =
     Some (new_mark g i)) ∧
  (fsnotify_find_mark (marks k) i g = None → add_mark_result i ≠ 0 →
   _fs_add_mark ALL_FSNOTIFY_EVENTS add_mark_result k g i = k) ∧
  _fs_add_mark ALL_FSNOTIFY_EVENTS add_mark_result
    (_fs_add_mark ALL_FSNOTIFY_EVENTS add_mark_result k g i) g i =
  _fs_add_mark ALL_FSNOTIFY_EVENTS add_mark_result k g i.
Proof.
  split_and!; [| | |apply fs_add_mark_twice]; unfold _fs_add_mark;
    fold (new_mark g i).
  - intros [mk ->]. done.
  - intros -> ->. simpl. split; [done|]. apply find_new_mark.
  - intros -> Hr%Z.eqb_neq. by rewrite Hr.
Qed.

(** What the event classes of a notification ask for, in the words of the
    specification: a record for a child moved from or moved to, for a child
    created and for a child that deletes itself; a watch on a child that is
    created or opened. *)
Definition has_class (mask class : Z) : bool := bits_set (Z.land mask class).

Definition event_classes (mask : Z) : list iotrace_fs_event_type :=
  (if has_class mask FS_MOVED_FROM then [iotrace_fs_event_move_from] else []) ++
  (if has_class mask FS_MOVED_TO then [iotrace_fs_event_move_to] else []) ++
  (if has_class mask FS_CREATE then [iotrace_fs_event_create] else []) ++
  (if has_class mask FS_DELETE_SELF then [iotrace_fs_event_delete] else []).

Definition installs_watch (mask : Z) : bool :=
  has_class mask FS_CREATE || has_class mask FS_OPEN.

Definition on_event (k : kernel) (g : nat) (child : inode) (mask : Z)
  : kernel :=
  fold_left (λ k ty, _trace_file_event k child ty) (event_classes mask)
    (if installs_watch mask then add_mark k g child else k).

Lemma bits_set_pow2 m b :
  0 ≤ b → bits_set (Z.land m (2 ^ b)) = Z.testbit m b.
Proof.
  intros Hb. unfold bits_set. destruct (Z.testbit m b) eqn:E.
  - apply negb_true_iff, Z.eqb_neq. intros H0.
    assert (Z.testbit (Z.land m (2 ^ b)) b = true) as Ht
      by by rewrite Z.land_spec, E, Z.pow2_bits_true.
    rewrite H0, Z.bits_0 in Ht. done.
  - apply negb_false_iff, Z.eqb_eq. apply Z.bits_inj'. intros j Hj.
    rewrite Z.land_spec, Z.bits_0, Z.pow2_bits_eqb by done.
    destruct (b =? j) eqn:Ej.
    + apply Z.eqb_eq in Ej as <-. by rewrite E.
    + apply andb_false_r.
Qed.

Lemma bits_set_create m :
  Z.testbit m 8 = true → bits_set (Z.land m IOTRACE_FSNOTIFY_EVENTS) = true.
Proof.
  intros E. unfold bits_set. apply negb_true_iff, Z.eqb_neq. intros H0.
  assert (Z.testbit (Z.land m IOTRACE_FSNOTIFY_EVENTS) 8 = true) as Ht
    by by rewrite Z.land_spec, E.
  rewrite H0, Z.bits_0 in Ht. done.
Qed.

Lemma trace_file_event_marks k c ty : marks (_trace_file_event k c ty) = marks k.
Proof.
  unfold _trace_file_event.
  destruct (octf_trace_get_wr_buffer (trace k)) as [r tr].
  by destruct (r =? 0).
Qed.

Lemma fs_add_mark_trace_comm k g c c' ty :
  add_mark (_trace_file_event k c ty) g c' =
  _trace_file_event (add_mark k g c') c ty.
Proof.
  unfold _fs_add_mark. rewrite trace_file_event_marks.
  destruct (fsnotify_find_mark (marks k) c' g); [done|].
  destruct (add_mark_result c' =? 0); [|done].
  unfold _trace_file_event. simpl.
  destruct (octf_trace_get_wr_buffer (trace k)) as [r tr].
  by destruct (r =? 0).
Qed.

(** C10. An event without data is answered with 0 and changes nothing: no
    record, no mark. *)
Theorem fs_handle_event_none k g dir mask :
  _fs_handle_event ALL_FSNOTIFY_EVENTS add_mark_result k g dir mask
    FSNOTIFY_EVENT_NONE = Some (k, 0).
Proof. reflexivity. Qed.

(** ** What the handler leaves alone, and what it writes *)

Lemma has_class_bit m b : 0 ≤ b → has_class m (2 ^ b) = Z.testbit m b.
Proof. apply bits_set_pow2. Qed.

(** The bits of the mask the handler looks at. *)
Definition handled_events : Z :=
  Z.lor FS_OPEN (Z.lor FS_MOVED_FROM (Z.lor FS_MOVED_TO
    (Z.lor FS_CREATE FS_DELETE_SELF))).

Lemma handle_event_on_event k g dir mask data child :
  data = FSNOTIFY_EVENT_PATH child ∨ data = FSNOTIFY_EVENT_INODE child →
  handle_event k g dir mask data = Some (on_event k g child mask, 0).
Proof.
  intros Hd.
  assert (handle_event k g dir mask data =
          handle_event k g dir mask (FSNOTIFY_EVENT_INODE child)) as ->
    by by destruct Hd as [-> | ->].
  unfold _fs_handle_event, on_event, event_classes, installs_watch, has_class.
  rewrite <- !Z.land_assoc.
  change (Z.land FS_MOVED_FROM IOTRACE_FSNOTIFY_EVENTS) with (2 ^ 6).
  change (Z.land FS_MOVED_TO IOTRACE_FSNOTIFY_EVENTS) with (2 ^ 7).
  change (Z.land FS_DELETE_SELF IOTRACE_FSNOTIFY_EVENTS) with (2 ^ 10).
  change FS_MOVED_FROM with (2 ^ 6). change FS_MOVED_TO with (2 ^ 7).
  change FS_DELETE_SELF with (2 ^ 10).
  change FS_CREATE with (2 ^ 8). change FS_OPEN with (2 ^ 5).
  rewrite !bits_set_pow2 by lia.
  destruct (Z.testbit mask 8) eqn:E8;
    [rewrite (bits_set_create _ E8)|];
    destruct (Z.testbit mask 6), (Z.testbit mask 7), (Z.testbit mask 10),
      (Z.testbit mask 5); simpl;
    rewrite ?fs_add_mark_trace_comm, ?fs_add_mark_twice; reflexivity.
Qed.

Lemma handled_bit m1 m2 b :
  Z.land m1 handled_events = Z.land m2 handled_events →
  Z.testbit handled_events b = true →
  Z.testbit m1 b = Z.testbit m2 b.
Proof.
  intros E Hb.
  assert (Z.testbit (Z.land m1 handled_events) b =
          Z.testbit (Z.land m2 handled_events) b) as Et by by rewrite E.
  by rewrite !Z.land_spec, Hb, !andb_true_r in Et.
Qed.

(** X13. The handler reads five bits of the mask, those of an opening, a
    move from, a move to, a creation and a self-deletion: two masks that
    agree on them are handled alike, whatever directory is watched. A
    deletion reported to the parent ([FS_DELETE]) is one of the bits it does
    not read. *)
Theorem fs_handle_event_reads_five_bits k g dir dir' m1 m2 data :
  Z.land m1 handled_events = Z.land m2 handled_events →
  _fs_handle_event ALL_FSNOTIFY_EVENTS add_mark_result k g dir m1 data =
  _fs_handle_event ALL_FSNOTIFY_EVENTS add_mark_result k g dir' m2 data.
Proof.
  intros E.
  assert (∀ b, Z.testbit handled_events b = true →
               Z.testbit m1 b = Z.testbit m2 b) as Hb
    by (intros b; by apply handled_bit).
  assert (∀ child, on_event k g child m1 = on_event k g child m2) as Ho.
  { intros child. unfold on_event, event_classes, installs_watch.
    change FS_MOVED_FROM with (2 ^ 6). change FS_MOVED_TO with (2 ^ 7).
    change FS_DELETE_SELF with (2 ^ 10).
    change FS_CREATE with (2 ^ 8). change FS_OPEN with (2 ^ 5).
    rewrite !has_class_bit by lia.
    by rewrite (Hb 5), (Hb 6), (Hb 7), (Hb 8), (Hb 10). }
  destruct data as [|child|child|ty]; [done| | |done].
  - rewrite !(handle_event_on_event _ _ _ _ _ child) by by left.
    by rewrite Ho.
  - rewrite !(handle_event_on_event _ _ _ _ _ child) by by right.
    by rewrite Ho.
Qed.

(** The record of one event of a child. *)
Definition file_event (s : Z) (c : inode) (ty : iotrace_fs_event_type)
  : iotrace_event :=
  fs_file_event
    {| fe_sid := s;
       fe_partition_id := s_dev c;
       fe_file_id := {| id := i_ino c; id_ctime := i_ctime c |};
       fs_event_type := ty |}.

(** The records of several events, numbered from [s + 1]. *)
Fixpoint file_events (s : Z) (c : inode) (tys : list iotrace_fs_event_type)
  : list iotrace_event :=
  match tys with
  | [] => []
  | ty :: tys' => file_event (u64 (s + 1)) c ty :: file_events (u64 (s + 1)) c tys'
  end.

(** The sequence number after [m] records were asked for. *)
Definition sid_after (m : nat) (s : Z) : Z := Nat.iter m (λ s, u64 (s + 1)) s.

Lemma sid_after_S m s : sid_after (S m) s = sid_after m (u64 (s + 1)).
Proof. unfold sid_after. by rewrite Nat.iter_succ_r. Qed.

Lemma trace_file_event_frame k c ty :
  inode_tracer (_trace_file_event k c ty) = inode_tracer k ∧
  fsnotify_ops_inited (_trace_file_event k c ty) = fsnotify_ops_inited k ∧
  sid (_trace_file_event k c ty) = u64 (sid k + 1).
Proof.
  unfold _trace_file_event.
  destruct (octf_trace_get_wr_buffer (trace k)) as [r tr].
  by destruct (r =? 0).
Qed.

Lemma trace_file_event_written k c ty :
  written (trace (_trace_file_event k c ty)) =
  written (trace k) ++
  match wr_results (trace k) with
  | r :: _ => if r =? 0 then [file_event (u64 (sid k + 1)) c ty] else []
  | [] => []
  end.
Proof.
  unfold _trace_file_event, octf_trace_get_wr_buffer.
  destruct (wr_results (trace k)) as [|r rs]; simpl.
  - by rewrite app_nil_r.
  - destruct (r =? 0); simpl; [done|by rewrite app_nil_r].
Qed.

Lemma trace_file_event_results k c ty :
  wr_results (trace (_trace_file_event k c ty)) = tail (wr_results (trace k)).
Proof.
  unfold _trace_file_event, octf_trace_get_wr_buffer.
  destruct (wr_results (trace k)) as [|r rs] eqn:E; simpl; [done|].
  by destruct (r =? 0).
Qed.

Lemma fold_file_event_frame c tys : ∀ k,
  let k' := fold_left (λ k ty, _trace_file_event k c ty) tys k in
  inode_tracer k' = inode_tracer k ∧
  fsnotify_ops_inited k' = fsnotify_ops_inited k ∧
  marks k' = marks k ∧
  sid k' = sid_after (length tys) (sid k) ∧
  ∃ evs, written (trace k') = written (trace k) ++ evs ∧
         (length evs ≤ length tys)%nat ∧
         Forall (λ ev, ∃ s ty, ev = file_event s c ty ∧ ty ∈ tys) evs.
Proof.
  induction tys as [|ty tys IH]; intros k; simpl.
  - split_and!; [done..|]. exists []. rewrite app_nil_r.
    split_and!; [done|done|apply Forall_nil_2].
  - destruct (IH (_trace_file_event k c ty)) as (Ht & Hi & Hm & Hs & evs & Hw
      & Hl & Hf).
    destruct (trace_file_event_frame k c ty) as (Ht1 & Hi1 & Hs1).
    split_and!.
    + by rewrite Ht.
    + by rewrite Hi.
    + by rewrite Hm, trace_file_event_marks.
    + rewrite Hs, Hs1. symmetry. apply sid_after_S.
    + rewrite Hw, trace_file_event_written, <- app_assoc.
      eexists. split; [done|]. split.
      * rewrite length_app.
        destruct (wr_results (trace k)) as [|r rs]; simpl; [lia|].
        destruct (r =? 0); simpl; lia.
      * apply Forall_app. split.
        -- destruct (wr_results (trace k)) as [|r rs]; [done|].
           destruct (r =? 0); [|done]. apply Forall_singleton.
           eexists _, ty. split; [done|by left].
        -- eapply Forall_impl; [exact Hf|].
           intros ev (s & ty' & -> & Hin). exists s, ty'.
           split; [done|by right].
Qed.

Lemma event_classes_length mask : (length (event_classes mask) ≤ 4)%nat.
Proof.
  unfold event_classes. rewrite !length_app.
  destruct (has_class mask FS_MOVED_FROM), (has_class mask FS_MOVED_TO),
    (has_class mask FS_CREATE), (has_class mask FS_DELETE_SELF); simpl; lia.
Qed.

Lemma on_event_frame k g child mask :
  inode_tracer (on_event k g child mask) = inode_tracer k ∧
  fsnotify_ops_inited (on_event k g child mask) = fsnotify_ops_inited k ∧
  (marks (on_event k g child mask) = marks k ∨
   installs_watch mask = true ∧ add_mark_result child = 0 ∧
   marks (on_event k g child mask) = new_mark g child :: marks k) ∧
  (marks_uniq (marks k) → marks_uniq (marks (on_event k g child mask))) ∧
  ∃ evs, written (trace (on_event k g child mask)) = written (trace k) ++ evs ∧
         (length evs ≤ 4)%nat ∧
         Forall (λ ev, ∃ s ty, ev = file_event s child ty) evs.
Proof.
  unfold on_event.
  set (k0 := if installs_watch mask then add_mark k g child else k).
  destruct (fold_file_event_frame child (event_classes mask) k0)
    as (Ht & Hi & Hm & _ & evs & Hw & Hl & Hf).
  assert (inode_tracer k0 = inode_tracer k ∧
          fsnotify_ops_inited k0 = fsnotify_ops_inited k ∧
          trace k0 = trace k) as (Ht0 & Hi0 & Htr0).
  { unfold k0. destruct (installs_watch mask); [|done].
    unfold _fs_add_mark. destruct (fsnotify_find_mark _ _ _); [done|].
    by destruct (add_mark_result child =? 0). }
  split_and!.
  - by rewrite Ht.
  - by rewrite Hi.
  - rewrite Hm. unfold k0. destruct (installs_watch mask) eqn:Ew; [|by left].
    destruct (fs_add_mark_grows ALL_FSNOTIFY_EVENTS add_mark_result
                k g child) as [E|[Hr E]]; [by left|].
    by right.
  - intros Hu. rewrite Hm. unfold k0. destruct (installs_watch mask); [|done].
    by apply fs_add_mark_uniq.
  - exists evs. rewrite Hw, Htr0. split; [done|]. split.
    + pose proof (event_classes_length mask). lia.
    + eapply Forall_impl; [exact Hf|].
      intros ev (s & ty & -> & _). by exists s, ty.
Qed.

(** X14. The handler never touches the cache: whatever the event, the
    tracer's cache and the backend's flag are as before, the result is 0,
    at most one mark is added, on the child and only for a creation or an
    opening, no inode gets a second mark of the group, and what is appended
    to the trace are at most four records of events of the child. *)
Theorem fs_handle_event_spares_the_cache k g dir mask data k' r :
  _fs_handle_event ALL_FSNOTIFY_EVENTS add_mark_result k g dir mask data =
    Some (k', r) →
  r = 0 ∧
  inode_tracer k' = inode_tracer k ∧
  fsnotify_ops_inited k' = fsnotify_ops_inited k ∧
  (marks k' = marks k ∨
   ∃ child, (data = FSNOTIFY_EVENT_PATH child ∨
             data = FSNOTIFY_EVENT_INODE child) ∧
            installs_watch mask = true ∧ add_mark_result child = 0 ∧
            marks k' = new_mark g child :: marks k) ∧
  (marks_uniq (marks k) → marks_uniq (marks k')) ∧
  ∃ evs, written (trace k') = written (trace k) ++ evs ∧
         (length evs ≤ 4)%nat ∧
         Forall (λ ev, ∃ child s ty,
                   (data = FSNOTIFY_EVENT_PATH child ∨
                    data = FSNOTIFY_EVENT_INODE child) ∧
                   ev = file_event s child ty) evs.
Proof.
  destruct data as [|child|child|ty].
  - intros [= <- <-]. split_and!; [done|done|done|by left|done|].
    exists []. rewrite app_nil_r.
    split_and!; [done|simpl; lia|apply Forall_nil_2].
  - rewrite (handle_event_on_event _ _ _ _ _ child) by by left.
    intros [= <- <-].
    destruct (on_event_frame k g child mask)
      as (Ht & Hi & Hm & Hu & evs & Hw & Hl & Hf).
    split_and!; [done|done|done| |done|].
    + destruct Hm as [Hm|(? & ? & Hm)]; [by left|].
      right. exists child. split_and!; [by left|done..].
    + exists evs. split_and!; [done|done|].
      eapply Forall_impl; [exact Hf|].
      intros ev (s & ty & ->). exists child, s, ty. split; [by left|done].
  - rewrite (handle_event_on_event _ _ _ _ _ child) by by right.
    intros [= <- <-].
    destruct (on_event_frame k g child mask)
      as (Ht & Hi & Hm & Hu & evs & Hw & Hl & Hf).
    split_and!; [done|done|done| |done|].
    + destruct Hm as [Hm|(? & ? & Hm)]; [by left|].
      right. exists child. split_and!; [by right|done..].
    + exists evs. split_and!; [done|done|].
      eapply Forall_impl; [exact Hf|].
      intros ev (s & ty & ->). exists child, s, ty. split; [by right|done].
  - done.
Qed.

Lemma fold_file_event_room c tys : ∀ k rs,
  wr_results (trace k) = replicate (length tys) 0 ++ rs →
  let k' := fold_left (λ k ty, _trace_file_event k c ty) tys k in
  written (trace k') = written (trace k) ++ file_events (sid k) c tys ∧
  wr_results (trace k') = rs.
Proof.
  induction tys as [|ty tys IH]; intros k rs Hr; simpl.
  - by rewrite app_nil_r.
  - simpl in Hr.
    destruct (IH (_trace_file_event k c ty) rs) as [Hw Hrs].
    { by rewrite trace_file_event_results, Hr. }
    destruct (trace_file_event_frame k c ty) as (_ & _ & Hs).
    split; [|done].
    rewrite Hw, trace_file_event_written, Hr, Hs. simpl.
    by rewrite <- app_assoc.
Qed.

Lemma fold_file_event_full c tys : ∀ k,
  wr_results (trace k) = [] →
  trace (fold_left (λ k ty, _trace_file_event k c ty) tys k) = trace k.
Proof.
  induction tys as [|ty tys IH]; intros k Hr; simpl; [done|].
  assert (trace (_trace_file_event k c ty) = trace k) as E.
  { unfold _trace_file_event, octf_trace_get_wr_buffer. rewrite Hr. simpl.
    destruct (trace k). simpl in *. by subst. }
  rewrite IH; [done|]. by rewrite E.
Qed.

(** X15. With room in the buffer for each of them, the handler writes
    exactly one record per event class of the mask, about the child, in the
    order move from, move to, creation, deletion, with sequence numbers that
    follow one another; with a full buffer it writes none, and the sequence
    numbers are taken all the same. *)
Theorem fs_handle_event_records k g dir mask child data :
  data = FSNOTIFY_EVENT_PATH child ∨ data = FSNOTIFY_EVENT_INODE child →
  ∃ k', _fs_handle_event ALL_FSNOTIFY_EVENTS add_mark_result k g dir mask
          data = Some (k', 0) ∧
        sid k' = sid_after (length (event_classes mask)) (sid k) ∧
        (∀ rs, wr_results (trace k) =
                 replicate (length (event_classes mask)) 0 ++ rs →
               written (trace k') =
                 written (trace k) ++
                 file_events (sid k) child (event_classes mask) ∧
               wr_results (trace k') = rs) ∧
        (wr_results (trace k) = [] → trace k' = trace k).
Proof.
  intros Hd. rewrite (handle_event_on_event _ _ _ _ _ child Hd).
  eexists. split; [done|]. unfold on_event.
  set (k0 := if installs_watch mask then add_mark k g child else k).
  assert (sid k0 = sid k ∧ trace k0 = trace k) as (Hs0 & Htr0).
  { unfold k0. destruct (installs_watch mask); [|done].
    unfold _fs_add_mark. destruct (fsnotify_find_mark _ _ _); [done|].
    by destruct (add_mark_result child =? 0). }
  split_and!.
  - destruct (fold_file_event_frame child (event_classes mask) k0)
      as (_ & _ & _ & Hs & _).
    by rewrite Hs, Hs0.
  - intros rs Hr. rewrite <- Htr0, <- Hs0.
    apply fold_file_event_room. by rewrite Htr0.
  - intros Hr. rewrite <- Htr0. apply fold_file_event_full. by rewrite Htr0.
Qed.

(** ** The handler, class by class *)

(** The records of the events [tys] of child [c] when the buffer answers
    [rs] to their reservations: every event takes a sequence number, and a
    reservation that is refused loses the record. *)
Fixpoint granted_file_events (rs : list Z) (s : Z) (c : inode)
    (tys : list iotrace_fs_event_type) {struct tys} : list iotrace_event :=
  match tys with
  | [] => []
  | ty :: tys' =>
      match rs with
      | r :: rs' =>
          (if r =? 0 then [file_event (u64 (s + 1)) c ty] else []) ++
          granted_file_events rs' (u64 (s + 1)) c tys'
      | [] => []
      end
  end.

Lemma fold_file_event_exact c tys : ∀ k,
  let k' := fold_left (λ k ty, _trace_file_event k c ty) tys k in
  written (trace k') =
    written (trace k) ++
    granted_file_events (wr_results (trace k)) (sid k) c tys ∧
  wr_results (trace k') = drop (length tys) (wr_results (trace k)).
Proof.
  induction tys as [|ty tys IH]; intros k; simpl.
  - by rewrite app_nil_r, drop_0.
  - destruct (IH (_trace_file_event k c ty)) as [Hw Hr].
    destruct (trace_file_event_frame k c ty) as (_ & _ & Hs).
    rewrite Hw, Hr, trace_file_event_written, trace_file_event_results, Hs.
    destruct (wr_results (trace k)) as [|r rs]; simpl.
    + rewrite drop_nil. split; [|done].
      destruct tys; simpl; by rewrite !app_nil_r.
    + by rewrite <- app_assoc.
Qed.

(** C8. With the child of the event at hand, the handler returns 0 and does
    what the event classes of the mask ask for, and nothing else. The
    classes are read off the bits of the mask. A child moved from, moved
    to, created or deleting itself gets the record of that event, in this
    order, each with the next sequence number, the child's device, number
    and ctime; a record is written when its reservation is granted and lost
    when it is refused. A child created or opened gets the watch: a mark of
    the group for [ALL_FSNOTIFY_EVENTS], unless the group has one on it or
    the attachment fails. An opening alone is no class with a record. The
    cache and the backend's flag stay as they are. *)
Theorem fs_handle_event_follows_classes k g dir mask child data :
  data = FSNOTIFY_EVENT_PATH child ∨ data = FSNOTIFY_EVENT_INODE child →
  ∃ k',
    _fs_handle_event ALL_FSNOTIFY_EVENTS add_mark_result k g dir mask data =
      Some (k', 0) ∧
    event_classes mask =
      (if Z.testbit mask (Z.log2 FS_MOVED_FROM)
       then [iotrace_fs_event_move_from] else []) ++
      (if Z.testbit mask (Z.log2 FS_MOVED_TO)
       then [iotrace_fs_event_move_to] else []) ++
      (if Z.testbit mask (Z.log2 FS_CREATE)
       then [iotrace_fs_event_create] else []) ++
      (if Z.testbit mask (Z.log2 FS_DELETE_SELF)
       then [iotrace_fs_event_delete] else []) ∧
    installs_watch mask =
      Z.testbit mask (Z.log2 FS_CREATE) || Z.testbit mask (Z.log2 FS_OPEN) ∧
    written (trace k') =
      written (trace k) ++
      granted_file_events (wr_results (trace k)) (sid k) child
        (event_classes mask) ∧
    wr_results (trace k') =
      drop (length (event_classes mask)) (wr_results (trace k)) ∧
    sid k' = sid_after (length (event_classes mask)) (sid k) ∧
    marks k' =
      (if installs_watch mask then
         match fsnotify_find_mark (marks k) child g with
         | Some _ => marks k
         | None =>
             if add_mark_result child =? 0
             then new_mark g child :: marks k
             else marks k
         end
       else marks k) ∧
    inode_tracer k' = inode_tracer k ∧
    fsnotify_ops_inited k' = fsnotify_ops_inited k.
Proof.
  intros Hd. rewrite (handle_event_on_event _ _ _ _ _ child Hd).
  eexists. split; [done|].
  destruct (on_event_frame k g child mask) as (Ht & Hi & _).
  unfold on_event.
  set (k0 := if installs_watch mask then add_mark k g child else k).
  assert (sid k0 = sid k ∧ trace k0 = trace k ∧
          marks k0 =
            if installs_watch mask then
              match fsnotify_find_mark (marks k) child g with
              | Some _ => marks k
              | None =>
                  if add_mark_result child =? 0
                  then new_mark g child :: marks k
                  else marks k
              end
            else marks k) as (Hs0 & Htr0 & Hm0).
  { unfold k0. destruct (installs_watch mask); [|done].
    unfold _fs_add_mark. fold (new_mark g child).
    destruct (fsnotify_find_mark _ _ _); [done|].
    by destruct (add_mark_result child =? 0). }
  destruct (fold_file_event_frame child (event_classes mask) k0)
    as (_ & _ & Hm & Hs & _).
  destruct (fold_file_event_exact child (event_classes mask) k0) as [Hw Hr].
  split_and!.
  - unfold event_classes.
    change (Z.log2 FS_MOVED_FROM) with 6. change (Z.log2 FS_MOVED_TO) with 7.
    change (Z.log2 FS_CREATE) with 8. change (Z.log2 FS_DELETE_SELF) with 10.
    change FS_MOVED_FROM with (2 ^ 6). change FS_MOVED_TO with (2 ^ 7).
    change FS_DELETE_SELF with (2 ^ 10). change FS_CREATE with (2 ^ 8).
    by rewrite !has_class_bit by lia.
  - unfold installs_watch.
    change (Z.log2 FS_CREATE) with 8. change (Z.log2 FS_OPEN) with 5.
    change FS_CREATE with (2 ^ 8). change FS_OPEN with (2 ^ 5).
    by rewrite !has_class_bit by lia.
  - by rewrite Hw, Htr0, Hs0.
  - by rewrite Hr, Htr0.
  - by rewrite Hs, Hs0.
  - by rewrite Hm, Hm0.
  - done.
  - done.
Qed.

End Marks.

(** * Preemption in the event handler *)

(** [_trace_file_event] with the preemption counter of the running task
    beside the state: [get_cpu] disables preemption, [put_cpu] enables it
    again. *)
Definition _trace_file_event_cpu (s : Z * kernel) (i : inode)
    (eventType : iotrace_fs_event_type) : Z * kernel :=
  let '(preempt_count, k) := s in
  let preempt_count := preempt_count + 1 in          (* get_cpu() *)
  let sid' := u64 (sid k + 1) in
  let '(result, tr) := octf_trace_get_wr_buffer (trace k) in
  if result =? 0 then
    let ev := {| fe_sid := sid';
                 fe_partition_id := s_dev i;
                 fe_file_id := {| id := i_ino i; id_ctime := i_ctime i |};
                 fs_event_type := eventType |} in
    (preempt_count - 1,                              (* put_cpu() *)
     set_trace k sid' (snd (octf_trace_commit_wr_buffer tr (fs_file_event ev))))
  else (preempt_count, set_trace k sid' tr).

Section Preemption.

Variable ALL_FSNOTIFY_EVENTS : Z.
Variable add_mark_result : inode → Z.

Definition _fs_add_mark_cpu (s : Z * kernel) (g : nat) (i : inode)
  : Z * kernel :=
  (fst s, _fs_add_mark ALL_FSNOTIFY_EVENTS add_mark_result (snd s) g i).

Definition _fs_handle_event_cpu (s : Z * kernel) (g : nat) (dir : inode)
    (mask : Z) (data : fsnotify_data) : option (Z * kernel * Z) :=
  match data with
  | FSNOTIFY_EVENT_NONE => Some (s, 0)
  | FSNOTIFY_EVENT_unknown _ => None
  | FSNOTIFY_EVENT_PATH child_inode | FSNOTIFY_EVENT_INODE child_inode =>
      let s1 :=
        if bits_set (Z.land (Z.land mask FS_MOVED_FROM) IOTRACE_FSNOTIFY_EVENTS)
        then _trace_file_event_cpu s child_inode iotrace_fs_event_move_from
        else s in
      let s2 :=
        if bits_set (Z.land (Z.land mask FS_MOVED_TO) IOTRACE_FSNOTIFY_EVENTS)
        then _trace_file_event_cpu s1 child_inode iotrace_fs_event_move_to
        else s1 in
      let s3 :=
        if bits_set (Z.land mask FS_CREATE) then
          let s' := _fs_add_mark_cpu s2 g child_inode in
          if bits_set (Z.land mask IOTRACE_FSNOTIFY_EVENTS)
          then _trace_file_event_cpu s' child_inode iotrace_fs_event_create
          else s'
        else s2 in
      let s4 :=
        if bits_set (Z.land (Z.land mask FS_DELETE_SELF) IOTRACE_FSNOTIFY_EVENTS)
        then _trace_file_event_cpu s3 child_inode iotrace_fs_event_delete
        else s3 in
      let s5 :=
        if bits_set (Z.land mask FS_OPEN)
        then _fs_add_mark_cpu s4 g child_inode
        else s4 in
      Some (s5, 0)
  end.

(** The counter and the records written, together. *)
Definition preempt_and_written (s : Z * kernel) : Z :=
  fst s + Z.of_nat (length (written (trace (snd s)))).

Lemma trace_file_event_cpu_snd s c ty :
  snd (_trace_file_event_cpu s c ty) = _trace_file_event (snd s) c ty.
Proof.
  destruct s as [pc k]. unfold _trace_file_event_cpu, _trace_file_event. simpl.
  destruct (octf_trace_get_wr_buffer (trace k)) as [r tr].
  by destruct (r =? 0).
Qed.

Lemma trace_file_event_cpu_count s c ty :
  preempt_and_written (_trace_file_event_cpu s c ty) =
  preempt_and_written s + 1.
Proof.
  destruct s as [pc k].
  unfold preempt_and_written, _trace_file_event_cpu, octf_trace_get_wr_buffer.
  simpl. destruct (wr_results (trace k)) as [|r rs]; simpl; [lia|].
  destruct (r =? 0); simpl; [|lia]. rewrite length_app. simpl. lia.
Qed.

Lemma fs_add_mark_cpu_snd s g c :
  snd (_fs_add_mark_cpu s g c) =
  _fs_add_mark ALL_FSNOTIFY_EVENTS add_mark_result (snd s) g c.
Proof. done. Qed.

Lemma fs_add_mark_cpu_count s g c :
  preempt_and_written (_fs_add_mark_cpu s g c) = preempt_and_written s.
Proof.
  unfold preempt_and_written, _fs_add_mark_cpu, _fs_add_mark. simpl.
  destruct (fsnotify_find_mark _ _ _); [done|].
  by destruct (add_mark_result c =? 0).
Qed.

Lemma handle_event_cpu_spec pc k g dir mask child data :
  data = FSNOTIFY_EVENT_PATH child ∨ data = FSNOTIFY_EVENT_INODE child →
  ∃ s', _fs_handle_event_cpu (pc, k) g dir mask data = Some (s', 0) ∧
        _fs_handle_event ALL_FSNOTIFY_EVENTS add_mark_result k g dir mask data
          = Some (snd s', 0) ∧
        preempt_and_written s' =
          preempt_and_written (pc, k) +
          Z.of_nat (length (event_classes mask)).
Proof.
  intros Hd.
  assert (_fs_handle_event_cpu (pc, k) g dir mask data =
          _fs_handle_event_cpu (pc, k) g dir mask (FSNOTIFY_EVENT_INODE child)
          ∧ _fs_handle_event ALL_FSNOTIFY_EVENTS add_mark_result k g dir mask
              data =
            _fs_handle_event ALL_FSNOTIFY_EVENTS add_mark_result k g dir mask
              (FSNOTIFY_EVENT_INODE child)) as [-> ->]
    by by destruct Hd as [-> | ->].
  unfold _fs_handle_event_cpu, _fs_handle_event, event_classes, has_class.
  rewrite <- !Z.land_assoc.
  change (Z.land FS_MOVED_FROM IOTRACE_FSNOTIFY_EVENTS) with (2 ^ 6).
  change (Z.land FS_MOVED_TO IOTRACE_FSNOTIFY_EVENTS) with (2 ^ 7).
  change (Z.land FS_DELETE_SELF IOTRACE_FSNOTIFY_EVENTS) with (2 ^ 10).
  change FS_MOVED_FROM with (2 ^ 6). change FS_MOVED_TO with (2 ^ 7).
  change FS_DELETE_SELF with (2 ^ 10).
  change FS_CREATE with (2 ^ 8). change FS_OPEN with (2 ^ 5).
  rewrite !bits_set_pow2 by lia.
  eexists. split; [done|].
  destruct (Z.testbit mask 8) eqn:E8;
    [rewrite (bits_set_create _ E8)|];
    destruct (Z.testbit mask 6), (Z.testbit mask 7), (Z.testbit mask 10),
      (Z.testbit mask 5); cbv beta iota zeta;
    rewrite ?fs_add_mark_cpu_snd, ?trace_file_event_cpu_snd,
      ?fs_add_mark_cpu_snd, ?trace_file_event_cpu_snd,
      ?fs_add_mark_cpu_snd, ?trace_file_event_cpu_snd,
      ?fs_add_mark_cpu_count, ?trace_file_event_cpu_count,
      ?fs_add_mark_cpu_count, ?trace_file_event_cpu_count,
      ?fs_add_mark_cpu_count, ?trace_file_event_cpu_count;
    (split; [reflexivity|simpl length; lia]).
Qed.

(** X22. A record that finds the buffer full leaves preemption disabled:
    [_trace_file_event] returns without [put_cpu]. When the handler
    returns, the preemption counter is above the one on entry by the number
    of records of the event that were not written; it is back where it was
    only if every record got its buffer, and with a buffer that has nothing
    to give it is up by one for every event class of the mask. What the
    handler does to the state is what [_fs_handle_event] above does. *)
Theorem fs_handle_event_leaves_preemption_disabled pc k g dir mask child
    data :
  data = FSNOTIFY_EVENT_PATH child ∨ data = FSNOTIFY_EVENT_INODE child →
  ∃ pc' k',
    _fs_handle_event_cpu (pc, k) g dir mask data = Some (pc', k', 0) ∧
    _fs_handle_event ALL_FSNOTIFY_EVENTS add_mark_result k g dir mask data =
      Some (k', 0) ∧
    pc' = pc + Z.of_nat (length (event_classes mask)) -
          (Z.of_nat (length (written (trace k'))) -
           Z.of_nat (length (written (trace k)))) ∧
    pc ≤ pc' ∧
    (wr_results (trace k) = [] →
     pc' = pc + Z.of_nat (length (event_classes mask))).
Proof.
  intros Hd.
  destruct (handle_event_cpu_spec pc k g dir mask child data Hd)
    as ([pc' k'] & Hc & Hh & Hq).
  unfold preempt_and_written in Hq. simpl in *.
  exists pc', k'. split_and!; [done|done|lia| |].
  - rewrite (handle_event_on_event _ _ _ _ _ _ _ child Hd) in Hh.
    injection Hh as Hk.
    destruct (on_event_frame ALL_FSNOTIFY_EVENTS add_mark_result k g child
                mask) as (_ & _ & _ & _ & evs & Hw & _ & Hf).
    unfold on_event in Hk, Hw.
    set (k0 := if installs_watch mask
               then _fs_add_mark ALL_FSNOTIFY_EVENTS add_mark_result k g child
               else k) in *.
    destruct (fold_file_event_frame child (event_classes mask) k0)
      as (_ & _ & _ & _ & evs' & Hw' & Hl' & _).
    assert (trace k0 = trace k) as Htr0.
    { unfold k0. destruct (installs_watch mask); [|done].
      unfold _fs_add_mark. destruct (fsnotify_find_mark _ _ _); [done|].
      by destruct (add_mark_result child =? 0). }
    rewrite Hk, Htr0 in Hw'. rewrite Hw', length_app in Hq. lia.
  - intros Hr.
    rewrite (handle_event_on_event _ _ _ _ _ _ _ child Hd) in Hh.
    injection Hh as Hk. unfold on_event in Hk.
    set (k0 := if installs_watch mask
               then _fs_add_mark ALL_FSNOTIFY_EVENTS add_mark_result k g child
               else k) in *.
    assert (trace k0 = trace k) as Htr0.
    { unfold k0. destruct (installs_watch mask); [|done].
      unfold _fs_add_mark. destruct (fsnotify_find_mark _ _ _); [done|].
      by destruct (add_mark_result child =? 0). }
    pose proof (fold_file_event_full child (event_classes mask) k0) as Hfull.
    rewrite Hk, Htr0 in Hfull. rewrite (Hfull Hr) in Hq. lia.
Qed.

End Preemption.

(** * The naming record *)

Lemma substring_length n : ∀ s,
  String.length (String.substring 0 n s) = Nat.min (String.length s) n.
Proof.
  induction n as [|n IH]; intros [|c s]; simpl; [done|lia|done|].
  by rewrite IH.
Qed.

Lemma substring_prefix n : ∀ s,
  String.prefix (String.substring 0 n s) s = true.
Proof.
  induction n as [|n IH]; intros [|c s]; simpl; [done..|].
  destruct (Ascii.ascii_dec c c); [apply IH|done].
Qed.

Lemma substring_whole n : ∀ s,
  (String.length s ≤ n)%nat → String.substring 0 n s = s.
Proof.
  induction n as [|n IH]; intros [|c s]; simpl; [done|lia|done|].
  intros H. rewrite IH; [done|lia].
Qed.

Lemma substring_min n : ∀ s,
  String.substring 0 (Nat.min (String.length s) n) s = String.substring 0 n s.
Proof.
  induction n as [|n IH]; intros [|c s]; simpl; [done|done|done|].
  by rewrite IH.
Qed.

(** X16. [_trace_filename] always takes a sequence number and touches
    neither the cache nor the marks. It returns 0 exactly when the
    reservation is granted; it then appends one naming record that carries
    this sequence number and the identifiers given, and whose name is the
    dentry's name cut to what the record can hold with its final NUL: the
    whole name when it is shorter than the field. When the reservation
    fails, the failure is returned and nothing is written. *)
Theorem trace_filename_record sizeof_file_name k part_id file_id parent_id
    ctime parentctime dname :
  let r := fst (_trace_filename sizeof_file_name k part_id file_id parent_id
                  ctime parentctime dname) in
  let k' := snd (_trace_filename sizeof_file_name k part_id file_id parent_id
                   ctime parentctime dname) in
  sid k' = u64 (sid k + 1) ∧
  inode_tracer k' = inode_tracer k ∧ marks k' = marks k ∧
  wr_results (trace k') = tail (wr_results (trace k)) ∧
  (r = 0 ↔ head (wr_results (trace k)) = Some 0) ∧
  (r ≠ 0 → written (trace k') = written (trace k)) ∧
  (r = 0 →
   ∃ ev, written (trace k') = written (trace k) ++ [fs_file_name ev] ∧
         fn_sid ev = u64 (sid k + 1) ∧
         fn_partition_id ev = part_id ∧
         fn_file_id ev = {| id := file_id; id_ctime := ctime |} ∧
         file_parent_id ev = {| id := parent_id; id_ctime := parentctime |} ∧
         String.length (file_name ev) =
           Nat.min (String.length dname) (sizeof_file_name - 1) ∧
         String.prefix (file_name ev) dname = true ∧
         ((String.length dname < sizeof_file_name)%nat →
          file_name ev = dname)).
Proof.
  cbv zeta. unfold _trace_filename, octf_trace_get_wr_buffer.
  destruct (wr_results (trace k)) as [|r0 rs] eqn:Er; simpl.
  - rewrite ?Er. unfold ENOSPC. split_and!; try done.
  - destruct (r0 =? 0) eqn:E0; simpl.
    + apply Z.eqb_eq in E0 as ->.
      split_and!; try done.
      intros _. eexists. split; [done|]. simpl.
      split_and!; try done.
      * by rewrite substring_min, substring_length.
      * apply substring_prefix.
      * intros Hl. rewrite substring_min. apply substring_whole. lia.
    + apply Z.eqb_neq in E0.
      split_and!; try done.
      split; [done|]. by intros [= ->].
Qed.

(** * The check of the kernel release *)

(** [strnlen] and [strncmp] of the kernel's [lib/string.c], on strings
    without the final NUL. *)
Definition strnlen (s : string) (count : nat) : nat :=
  Nat.min (String.length s) count.

Fixpoint strncmp (cs ct : string) (count : nat) : Z :=
  match count with
  | O => 0
  | S count' =>
      match cs, ct with
      | EmptyString, EmptyString => 0
      | EmptyString, String _ _ => -1
      | String _ _, EmptyString => 1
      | String c1 cs', String c2 ct' =>
          if Ascii.eqb c1 c2 then strncmp cs' ct' count'
          else if (Ascii.nat_of_ascii c1 <? Ascii.nat_of_ascii c2)%nat
               then -1 else 1
      end
  end.

(** [UTS_RELEASE] is the release the module was built for, a string
    literal, so that [sizeof(UTS_RELEASE) - 1] is its length; [release] is
    what the array [init_utsname()->release] of [sizeof_release] bytes holds
    up to its first NUL. *)
Definition _fsm_is_compatible_kernel (UTS_RELEASE release : string)
    (sizeof_release : nat) : bool :=
  let len := strnlen release sizeof_release in
  if negb (len =? String.length UTS_RELEASE)%nat then false
  else strncmp UTS_RELEASE release len =? 0.

Lemma strncmp_0 count : ∀ cs ct,
  strncmp cs ct count = 0 ↔
  String.substring 0 count cs = String.substring 0 count ct.
Proof.
  induction count as [|count IH]; intros [|c1 cs] [|c2 ct]; simpl;
    try done.
  destruct (Ascii.eqb c1 c2) eqn:E.
  - apply Ascii.eqb_eq in E as ->. rewrite IH. split; [by intros ->|].
    by intros [= ->].
  - apply Ascii.eqb_neq in E. split.
    + by destruct (_ <? _)%nat.
    + by intros [= -> _].
Qed.

(** X17. The kernel is taken as compatible exactly when the release the
    module was built for is the running kernel's release, compared as whole
    strings: a release that only begins like the other is refused. *)
Theorem fsm_is_compatible_kernel_iff UTS_RELEASE release sizeof_release :
  (_fsm_is_compatible_kernel UTS_RELEASE release sizeof_release = true ↔
   UTS_RELEASE = String.substring 0 sizeof_release release) ∧
  ((String.length release < sizeof_release)%nat →
   (_fsm_is_compatible_kernel UTS_RELEASE release sizeof_release = true ↔
    UTS_RELEASE = release)).
Proof.
  assert (_fsm_is_compatible_kernel UTS_RELEASE release sizeof_release = true ↔
          UTS_RELEASE = String.substring 0 sizeof_release release) as H.
  { unfold _fsm_is_compatible_kernel, strnlen.
    destruct (Nat.min (String.length release) sizeof_release =?
              String.length UTS_RELEASE)%nat eqn:El; simpl.
    - apply Nat.eqb_eq in El. rewrite Z.eqb_eq, strncmp_0, El.
      rewrite (substring_whole _ UTS_RELEASE) by done.
      by rewrite <- El, substring_min.
    - apply Nat.eqb_neq in El. split; [done|]. intros ->.
      by rewrite substring_length in El. }
  split; [done|]. intros Hl. rewrite H, substring_whole; [done|lia].
Qed.

(** * The monitor and the life of a tracer *)

Definition ENOMEM : Z := 12.

(** The calls the tracer makes to the notification backend about groups,
    with the group; for [alloc_group], with what it returned ([None] is an
    error pointer or null). *)
Inductive backend_call :=
  | fsnotify_alloc_group (result : option nat)
  | fsnotify_get_group (g : nat)
  | fsnotify_put_group (g : nat)
  | fsnotify_destroy_group (g : nat).

(** What the life of a tracer works on. [inode_traces] are the slots
    [state->inode_traces] of the online cpus: [None] is a null slot,
    [Some fsm] a tracer with its [fsm] pointer, [Some None] a tracer whose
    [fsm] is null. [monitors] are the [fs_monitor] objects allocated and not
    freed, by address. The reference counter is [refcount_t] away from its
    saturation. *)
Record fs_monitors := {
  inode_traces : list (option (option nat));
  monitors : gmap nat fs_monitor;
  ops_resolved : bool;               (* fsnotify_ops.get_group != NULL *)
  ops_inited : bool;                 (* fsnotify_ops.inited *)
  backend_calls : list backend_call  (* oldest first *)
}.

Definition set_slot (w : fs_monitors) (cpu : nat) (s : option (option nat))
  : fs_monitors :=
  {| inode_traces := <[cpu := s]> (inode_traces w);
     monitors := monitors w;
     ops_resolved := ops_resolved w;
     ops_inited := ops_inited w;
     backend_calls := backend_calls w |}.

Definition set_monitors (w : fs_monitors) (ms : gmap nat fs_monitor)
    (c : backend_call) : fs_monitors :=
  {| inode_traces := inode_traces w;
     monitors := ms;
     ops_resolved := ops_resolved w;
     ops_inited := ops_inited w;
     backend_calls := backend_calls w ++ [c] |}.

Definition set_ops (w : fs_monitors) (resolved inited : bool) : fs_monitors :=
  {| inode_traces := inode_traces w;
     monitors := monitors w;
     ops_resolved := resolved;
     ops_inited := inited;
     backend_calls := backend_calls w |}.

(** What the allocators answer during one [iotrace_create_inode_tracer]. The
    source checks [vzalloc_node] and the group; it uses the two [kzalloc]
    results unchecked. *)
Record allocations := {
  vzalloc_node : bool;
  kzalloc_fsm : bool;
  alloc_group : option nat;
  kzalloc_priv : bool
}.

(** [None] is the dereference of a pointer to no monitor. *)
Definition _fs_monitor_get (w : fs_monitors) (fsm : nat) : option fs_monitors :=
  m ← monitors w !! fsm;
  Some (set_monitors w
          (<[fsm := {| refcnt := refcnt m + 1; group := group m |}]>
             (monitors w))
          (fsnotify_get_group (group m))).

Definition _fs_monitor_put (w : fs_monitors) (fsm : option nat)
  : option fs_monitors :=
  match fsm with
  | None => Some w
  | Some p =>
      m ← monitors w !! p;
      if refcnt m - 1 =? 0 then
        Some (set_monitors w (delete p (monitors w))
                (fsnotify_destroy_group (group m)))
      else
        Some (set_monitors w
                (<[p := {| refcnt := refcnt m - 1; group := group m |}]>
                   (monitors w))
                (fsnotify_put_group (group m)))
  end.

(** The loop of [_fsm_try_get] over the slots that are left. *)
Fixpoint _fsm_try_get_from (w : fs_monitors)
    (slots : list (option (option nat)))
  : option (fs_monitors * option nat) :=
  match slots with
  | [] => Some (w, None)
  | None :: rest => _fsm_try_get_from w rest
  | Some None :: rest => _fsm_try_get_from w rest
  | Some (Some fsm) :: _ =>
      w' ← _fs_monitor_get w fsm; Some (w', Some fsm)
  end.

Definition _fsm_try_get (w : fs_monitors) : option (fs_monitors * option nat) :=
  _fsm_try_get_from w (inode_traces w).

Section Monitor.

(** The release the module was built for, the release of the running
    kernel and the size of the array that holds it. *)
Variable UTS_RELEASE release : string.
Variable sizeof_release : nat.

(** Whether [kallsyms_lookup_name] finds every one of the eight symbols. *)
Variable symbols_found : bool.

(** The result is the world and what [inode_tracer->fsm] is afterwards; the
    tracer comes zeroed from [vzalloc_node]. [None] is the use of a null
    pointer that [kzalloc] returned, or of a pointer to no monitor. A group
    the backend has just allocated has no private data, so [BUG_ON] does not
    fire. *)
Definition _fsm_init (a : allocations) (w : fs_monitors)
  : option (fs_monitors * option nat) :=
  if negb (_fsm_is_compatible_kernel UTS_RELEASE release sizeof_release)
  then Some (w, None)
  else if negb (ops_resolved w) && negb symbols_found
  then Some (set_ops w false false, None)
  else
    let w1 := set_ops w true (ops_inited w) in
    '(w2, found) ← _fsm_try_get w1;
    match found with
    | Some fsm => Some (w2, Some fsm)
    | None =>
        if negb (kzalloc_fsm a) then None
        else
          let fsm := fresh (dom (monitors w2)) in
          match alloc_group a with
          | None =>
              Some (set_monitors w2 (monitors w2) (fsnotify_alloc_group None),
                    None)
          | Some g =>
              if negb (kzalloc_priv a) then None
              else
                Some (set_ops
                        (set_monitors w2
                           (<[fsm := {| refcnt := 1; group := g |}]>
                              (monitors w2))
                           (fsnotify_alloc_group (Some g)))
                        true true,
                      Some fsm)
          end
    end.

(** [iotrace_create_inode_tracer] with the slot of [cpu] as [_inode_tracer];
    the cache of the tracer it stores is [iotrace_create_inode_tracer]
    above. *)
Definition iotrace_create_inode_tracer_at (a : allocations) (w : fs_monitors)
    (cpu : nat) : option (fs_monitors * Z) :=
  let w0 := set_slot w cpu None in
  if negb (vzalloc_node a) then Some (w0, - ENOMEM)
  else
    '(w1, fsm) ← _fsm_init a w0;
    Some (set_slot w1 cpu (Some fsm), 0).

End Monitor.

(** A [cpu] without slot stands for a null [iotrace_inode]. *)
Definition iotrace_destroy_inode_tracer (w : fs_monitors) (cpu : nat)
  : option fs_monitors :=
  match inode_traces w !! cpu with
  | Some (Some fsm) =>
      w1 ← _fs_monitor_put w fsm; Some (set_slot w1 cpu None)
  | _ => Some w
  end.

(** ** One monitor, counted by its tracers *)

(** The tracers that hold the monitor at [p]. *)
Definition holders (w : fs_monitors) (p : nat) : nat :=
  length (filter (λ s, s = Some (Some p)) (inode_traces w)).

(** The reference counter of a monitor is the number of tracers that hold
    it, and is not zero; no tracer holds a pointer to a freed monitor; there
    is one monitor at most; and where there is one the backend's functions
    are resolved and its flag is set. *)
Record monitors_ok (w : fs_monitors) : Prop := {
  ok_refcnt : ∀ p m, monitors w !! p = Some m →
                     refcnt m = Z.of_nat (holders w p) ∧ (0 < holders w p)%nat;
  ok_live : ∀ p, Some (Some p) ∈ inode_traces w → is_Some (monitors w !! p);
  ok_single : ∀ p q, is_Some (monitors w !! p) → is_Some (monitors w !! q) →
                     p = q;
  ok_inited : ∀ p, is_Some (monitors w !! p) →
                   ops_resolved w = true ∧ ops_inited w = true
}.

Lemma filter_insert_length {A} (P : A → Prop) `{!∀ x, Decision (P x)}
    (l : list A) i x y :
  l !! i = Some y →
  (length (filter P (<[i:=x]> l)) + (if decide (P y) then 1 else 0) =
   length (filter P l) + (if decide (P x) then 1 else 0))%nat.
Proof.
  revert i. induction l as [|a l IH]; intros [|i]; simpl; try done.
  - intros [= ->]. rewrite !filter_cons.
    destruct (decide (P x)), (decide (P y)); simpl; lia.
  - intros Hl. rewrite !filter_cons. specialize (IH i Hl).
    destruct (decide (P a)); simpl; lia.
Qed.

Lemma filter_length_pos {A} (P : A → Prop) `{!∀ x, Decision (P x)}
    (l : list A) :
  (0 < length (filter P l))%nat ↔ ∃ x, x ∈ l ∧ P x.
Proof.
  split.
  - destruct (filter P l) as [|x l'] eqn:E; simpl; [lia|]. intros _.
    assert (x ∈ filter P l) as Hx by (rewrite E; by left).
    apply list_elem_of_filter in Hx as [? ?]. by exists x.
  - intros (x & Hx & HP).
    assert (x ∈ filter P l) as Hf by by apply list_elem_of_filter.
    destruct (filter P l); [by apply elem_of_nil in Hf|simpl; lia].
Qed.

Lemma holders_pos w p :
  (0 < holders w p)%nat ↔ Some (Some p) ∈ inode_traces w.
Proof.
  unfold holders. rewrite filter_length_pos. split.
  - by intros (x & Hx & ->).
  - intros H. by exists (Some (Some p)).
Qed.

Lemma holders_set_slot w cpu s y p :
  inode_traces w !! cpu = Some y →
  (holders (set_slot w cpu s) p +
     (if decide (y = Some (Some p)) then 1 else 0) =
   holders w p + (if decide (s = Some (Some p)) then 1 else 0))%nat.
Proof.
  intros Hy. unfold holders. simpl.
  exact (filter_insert_length (λ s, s = Some (Some p))
           (inode_traces w) cpu s y Hy).
Qed.

Lemma elem_of_set_slot w cpu s x :
  x ∈ inode_traces (set_slot w cpu s) → x = s ∨ x ∈ inode_traces w.
Proof.
  simpl. intros [j Hj]%list_elem_of_lookup_1.
  apply list_lookup_insert_Some in Hj as [(_ & -> & _)|[_ Hj]]; [by left|].
  right. by eapply list_elem_of_lookup_2.
Qed.

Lemma set_slot_id w cpu s :
  inode_traces w !! cpu = Some s → set_slot w cpu s = w.
Proof.
  intros H. destruct w. unfold set_slot. simpl in *. f_equal.
  by apply list_insert_id.
Qed.

Lemma fsm_try_get_from_spec w slots :
  (∀ p, Some (Some p) ∈ slots → is_Some (monitors w !! p)) →
  ((∀ p, Some (Some p) ∉ slots) ∧ _fsm_try_get_from w slots = Some (w, None)) ∨
  ∃ p m, Some (Some p) ∈ slots ∧ monitors w !! p = Some m ∧
         _fsm_try_get_from w slots =
         Some (set_monitors w
                 (<[p := {| refcnt := refcnt m + 1; group := group m |}]>
                    (monitors w))
                 (fsnotify_get_group (group m)), Some p).
Proof.
  induction slots as [|s slots IH]; intros Hlive.
  - left. split; [|done]. intros p Hp. by apply elem_of_nil in Hp.
  - destruct s as [[p|]|]; simpl.
    + right. destruct (Hlive p) as [m Hm]; [by left|].
      exists p, m. split_and!; [by left|done|].
      unfold _fs_monitor_get. by rewrite Hm.
    + destruct IH as [[Hno E]|(p & m & Hp & Hm & E)].
      * intros p Hp. apply Hlive. by right.
      * left. split; [|done]. intros p [?|?]%elem_of_cons; [done|].
        by eapply Hno.
      * right. exists p, m. split_and!; [by right|done..].
    + destruct IH as [[Hno E]|(p & m & Hp & Hm & E)].
      * intros p Hp. apply Hlive. by right.
      * left. split; [|done]. intros p [?|?]%elem_of_cons; [done|].
        by eapply Hno.
      * right. exists p, m. split_and!; [by right|done..].
Qed.

Lemma holders_slots w w' p :
  inode_traces w' = inode_traces w → holders w' p = holders w p.
Proof. unfold holders. by intros ->. Qed.

Lemma no_holder_no_monitor w :
  monitors_ok w → (∀ p, Some (Some p) ∉ inode_traces w) →
  ∀ p, monitors w !! p = None.
Proof.
  intros Hok Hno p. destruct (monitors w !! p) as [m|] eqn:E; [|done].
  destruct (ok_refcnt _ Hok p m E) as [_ Hpos].
  apply holders_pos in Hpos. by apply Hno in Hpos.
Qed.

(** A tracer without monitor takes a null slot. *)
Lemma ok_no_monitor w w' cpu s :
  monitors_ok w → inode_traces w !! cpu = Some s →
  (∀ p, s ≠ Some (Some p)) →
  inode_traces w' = <[cpu := Some None]> (inode_traces w) →
  monitors w' = monitors w →
  (∀ p, is_Some (monitors w !! p) →
        ops_resolved w' = true ∧ ops_inited w' = true) →
  monitors_ok w'.
Proof.
  intros Hok Hslot Hs Hi Hm Hf.
  assert (∀ p, holders w' p = holders w p) as Hh.
  { intros p. unfold holders. rewrite Hi.
    pose proof (filter_insert_length (λ s, s = Some (Some p))
                  (inode_traces w) cpu (Some None) s Hslot) as H.
    simpl in H. destruct (decide (s = Some (Some p))) as [E|_].
    { by apply Hs in E. }
    destruct (decide (Some None = Some (Some p))); [done|]. lia. }
  split.
  - intros p m. rewrite Hm, Hh. apply (ok_refcnt _ Hok).
  - intros p Hp. rewrite Hm. apply (ok_live _ Hok).
    rewrite Hi in Hp. apply list_elem_of_lookup_1 in Hp as [j Hj].
    apply list_lookup_insert_Some in Hj as [(_ & [=] & _)|[_ Hj]].
    by eapply list_elem_of_lookup_2.
  - rewrite Hm. apply (ok_single _ Hok).
  - intros p. rewrite Hm. apply Hf.
Qed.

(** A tracer that shares the monitor at [p] takes a null slot. *)
Lemma ok_shared w w' cpu p m :
  monitors_ok w → inode_traces w !! cpu = Some None →
  monitors w !! p = Some m →
  inode_traces w' = <[cpu := Some (Some p)]> (inode_traces w) →
  monitors w' =
    <[p := {| refcnt := refcnt m + 1; group := group m |}]> (monitors w) →
  ops_resolved w' = true → ops_inited w' = ops_inited w →
  monitors_ok w'.
Proof.
  intros Hok Hslot Hp Hi Hm Hr Hin.
  assert (holders w' p = S (holders w p)) as Hh.
  { unfold holders. rewrite Hi.
    pose proof (filter_insert_length (λ s, s = Some (Some p))
                  (inode_traces w) cpu (Some (Some p)) None Hslot) as H.
    simpl in H. destruct (decide (None = Some (Some p))); [done|].
    destruct (decide (Some (Some p) = Some (Some p))); [|done]. lia. }
  assert (∀ q, is_Some (monitors w' !! q) → q = p) as Hq.
  { intros q. rewrite Hm, lookup_insert_is_Some. intros [->|[_ Hq]]; [done|].
    by apply (ok_single _ Hok). }
  destruct (ok_refcnt _ Hok p m Hp) as [Hc Hpos].
  split.
  - intros q m' Hq'. assert (q = p) as -> by by apply Hq.
    rewrite Hm, lookup_insert_eq in Hq'. injection Hq' as <-. simpl.
    rewrite Hh. lia.
  - intros q Hq'. rewrite Hm, lookup_insert_is_Some.
    rewrite Hi in Hq'. apply list_elem_of_lookup_1 in Hq' as [j Hj].
    apply list_lookup_insert_Some in Hj as [(_ & [= ->] & _)|[_ Hj]];
      [by left|].
    destruct (decide (p = q)) as [->|Hne]; [by left|]. right.
    split; [done|]. apply (ok_live _ Hok). by eapply list_elem_of_lookup_2.
  - intros q1 q2 H1 H2. by rewrite (Hq q1 H1), (Hq q2 H2).
  - intros q _. split; [done|]. rewrite Hin.
    by apply (ok_inited _ Hok p).
Qed.

(** A tracer with a new monitor at [p] takes a null slot, when no tracer
    holds a monitor. *)
Lemma ok_new w w' cpu p g :
  monitors_ok w → inode_traces w !! cpu = Some None →
  (∀ q, Some (Some q) ∉ inode_traces w) →
  inode_traces w' = <[cpu := Some (Some p)]> (inode_traces w) →
  monitors w' = <[p := {| refcnt := 1; group := g |}]> (monitors w) →
  ops_resolved w' = true → ops_inited w' = true →
  monitors_ok w'.
Proof.
  intros Hok Hslot Hno Hi Hm Hr Hin.
  pose proof (no_holder_no_monitor _ Hok Hno) as Hnone.
  assert (holders w' p = 1%nat) as Hh.
  { unfold holders. rewrite Hi.
    pose proof (filter_insert_length (λ s, s = Some (Some p))
                  (inode_traces w) cpu (Some (Some p)) None Hslot) as H.
    simpl in H. destruct (decide (None = Some (Some p))); [done|].
    destruct (decide (Some (Some p) = Some (Some p))); [|done].
    assert (length (filter (λ s, s = Some (Some p)) (inode_traces w)) = 0%nat)
      as H0.
    { destruct (filter _ (inode_traces w)) as [|x l] eqn:E; [done|].
      assert (x ∈ filter (λ s, s = Some (Some p)) (inode_traces w)) as Hx
        by (rewrite E; by left).
      apply list_elem_of_filter in Hx as [-> Hx]. by apply Hno in Hx. }
    lia. }
  assert (∀ q, is_Some (monitors w' !! q) → q = p) as Hq.
  { intros q. rewrite Hm, lookup_insert_is_Some. intros [->|[_ Hq]]; [done|].
    rewrite Hnone in Hq. by destruct Hq. }
  split.
  - intros q m' Hq'. assert (q = p) as -> by by apply Hq.
    rewrite Hm, lookup_insert_eq in Hq'. injection Hq' as <-. simpl.
    rewrite Hh. lia.
  - intros q Hq'. rewrite Hm, lookup_insert_is_Some.
    rewrite Hi in Hq'. apply list_elem_of_lookup_1 in Hq' as [j Hj].
    apply list_lookup_insert_Some in Hj as [(_ & [= ->] & _)|[_ Hj]];
      [by left|].
    exfalso. eapply Hno. by eapply list_elem_of_lookup_2.
  - intros q1 q2 H1 H2. by rewrite (Hq q1 H1), (Hq q2 H2).
  - done.
Qed.

Section MonitorLife.

Variable UTS_RELEASE release : string.
Variable sizeof_release : nat.
Variable symbols_found : bool.

Abbreviation compatible :=
  (_fsm_is_compatible_kernel UTS_RELEASE release sizeof_release).
Abbreviation fsm_init :=
  (_fsm_init UTS_RELEASE release sizeof_release symbols_found).
Abbreviation create_at :=
  (iotrace_create_inode_tracer_at UTS_RELEASE release sizeof_release
     symbols_found).

Lemma set_ops_id w : set_ops w (ops_resolved w) (ops_inited w) = w.
Proof. by destruct w. Qed.

Lemma fsm_init_ok a w cpu w1 fsm :
  monitors_ok w → inode_traces w !! cpu = Some None →
  fsm_init a w = Some (w1, fsm) →
  monitors_ok (set_slot w1 cpu (Some fsm)).
Proof.
  intros Hok Hslot. unfold _fsm_init.
  destruct (negb compatible).
  { intros [= <- <-]. by eapply (ok_no_monitor w _ cpu None);
      [| | | | |apply (ok_inited _ Hok)]. }
  destruct (negb (ops_resolved w) && negb symbols_found) eqn:Es.
  { intros [= <- <-].
    apply andb_true_iff in Es as [Er%negb_true_iff _].
    eapply (ok_no_monitor w _ cpu None); [done..|].
    intros p Hp. apply (ok_inited _ Hok) in Hp as [Hp _]. congruence. }
  set (w0 := set_ops w true (ops_inited w)).
  unfold _fsm_try_get.
  destruct (fsm_try_get_from_spec w0 (inode_traces w0))
    as [[Hno ->]|(p & m & Hp & Hm & ->)].
  { apply (ok_live _ Hok). }
  - simpl. destruct (kzalloc_fsm a); simpl; [|done].
    destruct (alloc_group a) as [g|].
    + destruct (kzalloc_priv a); simpl; [|done].
      intros [= <- <-]. by eapply (ok_new w _ cpu).
    + intros [= <- <-].
      eapply (ok_no_monitor w _ cpu None); [done..|].
      intros p Hp. split; [done|]. by apply (ok_inited _ Hok p).
  - simpl. intros [= <- <-]. by eapply (ok_shared w _ cpu p m).
Qed.

Lemma create_ok a w cpu w' r :
  monitors_ok w → inode_traces w !! cpu = Some None →
  create_at a w cpu = Some (w', r) → monitors_ok w'.
Proof.
  intros Hok Hslot. unfold iotrace_create_inode_tracer_at.
  rewrite (set_slot_id _ _ _ Hslot).
  destruct (vzalloc_node a); simpl; [|by intros [= <- <-]].
  destruct (fsm_init a w) as [[w1 fsm]|] eqn:Ei; [|done]. simpl.
  intros [= <- <-]. by eapply fsm_init_ok.
Qed.

(** X18. Creating a tracer in a null slot keeps the reference counter of the
    monitor equal to the number of tracers that hold it, leaves no tracer
    with a pointer to a freed monitor, never makes a second monitor, and
    leaves the backend resolved and its flag set wherever a monitor exists.
    The result is 0, or [-ENOMEM] when [vzalloc_node] fails, in which case
    nothing has changed; and the call returns whenever the two [kzalloc]
    succeed. *)
Theorem create_keeps_one_counted_monitor a w cpu :
  monitors_ok w → inode_traces w !! cpu = Some None →
  (kzalloc_fsm a = true → kzalloc_priv a = true →
   is_Some (iotrace_create_inode_tracer_at UTS_RELEASE release sizeof_release
              symbols_found a w cpu)) ∧
  ∀ w' r,
    iotrace_create_inode_tracer_at UTS_RELEASE release sizeof_release
      symbols_found a w cpu = Some (w', r) →
    monitors_ok w' ∧
    (if vzalloc_node a
     then r = 0 ∧ ∃ fsm, inode_traces w' = <[cpu := Some fsm]> (inode_traces w)
     else r = - ENOMEM ∧ w' = w).
Proof.
  intros Hok Hslot. unfold iotrace_create_inode_tracer_at.
  rewrite (set_slot_id _ _ _ Hslot). split.
  - intros Hk1 Hk2. destruct (vzalloc_node a); simpl; [|done].
    unfold _fsm_init. destruct (negb compatible); [done|].
    destruct (negb (ops_resolved w) && negb symbols_found); [done|].
    unfold _fsm_try_get.
    destruct (fsm_try_get_from_spec (set_ops w true (ops_inited w))
                (inode_traces w)) as [[_ E]|(p & m & _ & _ & E)].
    { apply (ok_live _ Hok). }
    + simpl. rewrite E. simpl. rewrite Hk1. simpl.
      destruct (alloc_group a); [|done]. by rewrite Hk2.
    + simpl. rewrite E. done.
  - intros w' r. destruct (vzalloc_node a); simpl.
    + destruct (fsm_init a w) as [[w1 fsm]|] eqn:Ei; [|done]. simpl.
      intros [= <- <-]. split; [by eapply fsm_init_ok|].
      split; [done|]. exists fsm. simpl. f_equal.
      revert Ei. unfold _fsm_init.
      destruct (negb compatible); [by intros [= <- <-]|].
      destruct (negb (ops_resolved w) && negb symbols_found);
        [by intros [= <- <-]|].
      unfold _fsm_try_get.
      destruct (fsm_try_get_from_spec (set_ops w true (ops_inited w))
                  (inode_traces w)) as [[_ E]|(p & m & _ & _ & E)].
      { apply (ok_live _ Hok). }
      * simpl. rewrite E. simpl. destruct (kzalloc_fsm a); [|done]. simpl.
        destruct (alloc_group a); [|by intros [= <- <-]].
        destruct (kzalloc_priv a); [|done]. by intros [= <- <-].
      * simpl. rewrite E. by intros [= <- <-].
    + by intros [= <- <-].
Qed.

Lemma monitors_empty w :
  monitors_ok w → (∀ p, Some (Some p) ∉ inode_traces w) → monitors w = ∅.
Proof.
  intros Hok Hno. apply map_empty. by apply no_holder_no_monitor.
Qed.

(** X19. Which monitor a new tracer gets. On a kernel of another release,
    or when the backend's symbols are not found, it gets none and no
    monitor or group is touched. When a tracer holds a monitor already, the
    new one gets the same, with one reference and one [get_group] more.
    When none does, a monitor is made with one reference and a new group,
    and the backend's flag is set; if the group cannot be allocated the
    tracer gets none; and if [kzalloc] fails the null pointer is used. *)
Theorem create_gives_the_monitor a w cpu :
  monitors_ok w → inode_traces w !! cpu = Some None →
  vzalloc_node a = true →
  (_fsm_is_compatible_kernel UTS_RELEASE release sizeof_release = false →
   iotrace_create_inode_tracer_at UTS_RELEASE release sizeof_release
     symbols_found a w cpu = Some (set_slot w cpu (Some None), 0)) ∧
  (_fsm_is_compatible_kernel UTS_RELEASE release sizeof_release = true →
   ops_resolved w = false → symbols_found = false →
   iotrace_create_inode_tracer_at UTS_RELEASE release sizeof_release
     symbols_found a w cpu =
   Some (set_slot (set_ops w false false) cpu (Some None), 0)) ∧
  (_fsm_is_compatible_kernel UTS_RELEASE release sizeof_release = true →
   ∀ p m, Some (Some p) ∈ inode_traces w → monitors w !! p = Some m →
   iotrace_create_inode_tracer_at UTS_RELEASE release sizeof_release
     symbols_found a w cpu =
   Some (set_slot
           (set_monitors w
              (<[p := {| refcnt := refcnt m + 1; group := group m |}]>
                 (monitors w))
              (fsnotify_get_group (group m)))
           cpu (Some (Some p)), 0)) ∧
  (_fsm_is_compatible_kernel UTS_RELEASE release sizeof_release = true →
   (∀ p, Some (Some p) ∉ inode_traces w) →
   ops_resolved w = true ∨ symbols_found = true →
   (kzalloc_fsm a = false →
    iotrace_create_inode_tracer_at UTS_RELEASE release sizeof_release
      symbols_found a w cpu = None) ∧
   (kzalloc_fsm a = true → alloc_group a = None →
    ∃ w', iotrace_create_inode_tracer_at UTS_RELEASE release sizeof_release
            symbols_found a w cpu = Some (w', 0) ∧
          inode_traces w' = <[cpu := Some None]> (inode_traces w) ∧
          monitors w' = ∅ ∧ ops_inited w' = ops_inited w ∧
          backend_calls w' = backend_calls w ++ [fsnotify_alloc_group None]) ∧
   (kzalloc_fsm a = true → kzalloc_priv a = true →
    ∀ g, alloc_group a = Some g →
    ∃ w' p, iotrace_create_inode_tracer_at UTS_RELEASE release sizeof_release
              symbols_found a w cpu = Some (w', 0) ∧
            inode_traces w' = <[cpu := Some (Some p)]> (inode_traces w) ∧
            monitors w' = {[ p := {| refcnt := 1; group := g |} ]} ∧
            ops_resolved w' = true ∧ ops_inited w' = true ∧
            backend_calls w' =
              backend_calls w ++ [fsnotify_alloc_group (Some g)])).
Proof.
  intros Hok Hslot Hv. unfold iotrace_create_inode_tracer_at.
  rewrite (set_slot_id _ _ _ Hslot), Hv. simpl. unfold _fsm_init.
  split_and!.
  - intros ->. done.
  - intros -> -> ->. done.
  - intros -> p m Hp Hm. simpl.
    destruct (ok_inited _ Hok p) as [Hr _]; [by eexists|].
    rewrite Hr. simpl. rewrite <- Hr at 1. rewrite set_ops_id.
    unfold _fsm_try_get.
    destruct (fsm_try_get_from_spec w (inode_traces w))
      as [[Hno _]|(p' & m' & Hp' & Hm' & ->)].
    { apply (ok_live _ Hok). }
    { by apply Hno in Hp. }
    assert (p' = p) as -> by (apply (ok_single _ Hok); by eexists).
    assert (m' = m) as -> by congruence.
    done.
  - intros -> Hno Hres. simpl.
    assert (negb (ops_resolved w) && negb symbols_found = false) as ->.
    { destruct Hres as [-> | ->]; [done|apply andb_false_r]. }
    pose proof (monitors_empty _ Hok Hno) as Hempty.
    unfold _fsm_try_get.
    destruct (fsm_try_get_from_spec (set_ops w true (ops_inited w))
                (inode_traces w)) as [[_ E]|(p & m & Hp & _)].
    { apply (ok_live _ Hok). }
    2:{ by apply Hno in Hp. }
    simpl. rewrite E. simpl. split_and!.
    + intros ->. done.
    + intros -> ->. simpl. eexists. split; [done|]. simpl.
      by rewrite Hempty.
    + intros -> Hk g ->. simpl. rewrite Hk. simpl.
      eexists _, _. split; [done|]. simpl.
      split_and!; [done| |done..].
      by rewrite Hempty, insert_empty.
Qed.

End MonitorLife.

Lemma destroy_holder w cpu p :
  monitors_ok w → inode_traces w !! cpu = Some (Some (Some p)) →
  ∃ m, monitors w !! p = Some m ∧
       refcnt m = Z.of_nat (holders w p) ∧
       holders (set_slot w cpu None) p = (holders w p - 1)%nat ∧
       (0 < holders w p)%nat ∧
       iotrace_destroy_inode_tracer w cpu =
       Some (set_slot
               (if decide (holders w p = 1%nat)
                then set_monitors w (delete p (monitors w))
                       (fsnotify_destroy_group (group m))
                else set_monitors w
                       (<[p := {| refcnt := refcnt m - 1; group := group m |}]>
                          (monitors w))
                       (fsnotify_put_group (group m)))
               cpu None).
Proof.
  intros Hok Hslot.
  destruct (ok_live _ Hok p) as [m Hm]; [by eapply list_elem_of_lookup_2|].
  destruct (ok_refcnt _ Hok p m Hm) as [Hc Hpos].
  exists m. split_and!; [done|done| |done|].
  - pose proof (holders_set_slot w cpu None _ p Hslot) as H.
    destruct (decide (Some (Some p) = Some (Some p))); [|done].
    destruct (decide (None = Some (Some p))); [done|]. lia.
  - unfold iotrace_destroy_inode_tracer. rewrite Hslot. simpl. rewrite Hm.
    simpl. destruct (decide (holders w p = 1%nat)) as [E|E].
    + rewrite Hc, E. done.
    + destruct (refcnt m - 1 =? 0) eqn:E0; [|done].
      apply Z.eqb_eq in E0. lia.
Qed.

Lemma delete_only w p :
  monitors_ok w → is_Some (monitors w !! p) → delete p (monitors w) = ∅.
Proof.
  intros Hok Hp. apply map_empty. intros q.
  destruct (decide (p = q)) as [->|Hne]; [apply lookup_delete_eq|].
  rewrite lookup_delete_ne by done.
  destruct (monitors w !! q) as [m|] eqn:E; [|done].
  destruct Hne. apply (ok_single _ Hok); [done|by eexists].
Qed.

Lemma ok_released w w' cpu p m :
  monitors_ok w → inode_traces w !! cpu = Some (Some (Some p)) →
  monitors w !! p = Some m →
  inode_traces w' = <[cpu := None]> (inode_traces w) →
  monitors w' =
    (if decide (holders w p = 1%nat) then delete p (monitors w)
     else <[p := {| refcnt := refcnt m - 1; group := group m |}]>
            (monitors w)) →
  ops_resolved w' = ops_resolved w → ops_inited w' = ops_inited w →
  monitors_ok w'.
Proof.
  intros Hok Hslot Hm Hi Hms Hr Hin.
  destruct (ok_refcnt _ Hok p m Hm) as [Hc Hpos].
  assert (holders w' p = (holders w p - 1)%nat) as Hh.
  { unfold holders. rewrite Hi.
    pose proof (filter_insert_length (λ s, s = Some (Some p))
                  (inode_traces w) cpu None _ Hslot) as H.
    simpl in H. destruct (decide (Some (Some p) = Some (Some p))); [|done].
    destruct (decide (None = Some (Some p))); [done|].
    unfold holders in *. lia. }
  assert (∀ q, is_Some (monitors w' !! q) → q = p ∧ holders w p ≠ 1%nat)
    as Hq.
  { intros q. rewrite Hms. destruct (decide (holders w p = 1%nat)).
    - rewrite delete_only; [|done|by eexists]. rewrite lookup_empty.
      by intros [? ?].
    - rewrite lookup_insert_is_Some. intros [->|[_ Hq]]; [done|].
      split; [|done]. apply (ok_single _ Hok); [done|by eexists]. }
  split.
  - intros q m' Hq'. destruct (Hq q) as [-> Hne]; [by eexists|].
    rewrite Hms in Hq'. destruct (decide (holders w p = 1%nat)); [done|].
    rewrite lookup_insert_eq in Hq'. injection Hq' as <-. simpl.
    rewrite Hh. lia.
  - intros q Hq'. rewrite Hi in Hq'.
    apply list_elem_of_lookup_1 in Hq' as [j Hj].
    apply list_lookup_insert_Some in Hj as [(_ & [=] & _)|[Hne Hj]].
    assert (q = p) as ->.
    { apply (ok_single _ Hok); [|by eexists].
      apply (ok_live _ Hok). by eapply list_elem_of_lookup_2. }
    (* two different slots hold [p] *)
    assert (holders w p ≠ 1%nat) as Hne1.
    { intros E1. assert (0 < holders w' p)%nat as H0; [|lia].
      unfold holders. rewrite Hi. apply filter_length_pos.
      exists (Some (Some p)). split; [|done].
      apply list_elem_of_lookup_2 with j.
      by rewrite list_lookup_insert_ne. }
    rewrite Hms. destruct (decide (holders w p = 1%nat)); [done|].
    rewrite lookup_insert_eq. by eexists.
  - intros q1 q2 H1 H2.
    destruct (Hq q1 H1) as [-> _]. by destruct (Hq q2 H2) as [-> _].
  - intros q Hq'. rewrite Hr, Hin. destruct (Hq q Hq') as [-> _].
    apply (ok_inited _ Hok p). by eexists.
Qed.

Lemma destroy_spec w cpu :
  monitors_ok w →
  ∃ w', iotrace_destroy_inode_tracer w cpu = Some w' ∧
        monitors_ok w' ∧
        inode_traces w' = <[cpu := None]> (inode_traces w) ∧
        (∀ p, inode_traces w !! cpu = Some (Some (Some p)) →
              ∃ m, monitors w !! p = Some m ∧
                   if decide (holders w p = 1%nat)
                   then monitors w' = ∅ ∧
                        backend_calls w' =
                          backend_calls w ++
                          [fsnotify_destroy_group (group m)]
                   else monitors w' =
                          <[p := {| refcnt := refcnt m - 1;
                                    group := group m |}]> (monitors w) ∧
                        backend_calls w' =
                          backend_calls w ++ [fsnotify_put_group (group m)]) ∧
        ((∀ p, inode_traces w !! cpu ≠ Some (Some (Some p))) →
         monitors w' = monitors w ∧ backend_calls w' = backend_calls w).
Proof.
  intros Hok.
  destruct (inode_traces w !! cpu) as [[[p|]|]|] eqn:Hslot.
  - destruct (destroy_holder w cpu p Hok Hslot)
      as (m & Hm & Hc & Hh & Hpos & Hd).
    eexists. split; [exact Hd|]. split_and!.
    + eapply (ok_released w _ cpu p m Hok Hslot Hm); simpl;
        by destruct (decide (holders w p = 1%nat)).
    + simpl. by destruct (decide (holders w p = 1%nat)).
    + intros p' [= <-]. exists m. split; [done|].
      destruct (decide (holders w p = 1%nat)); simpl; [|done].
      split; [|done]. apply delete_only; [done|by eexists].
    + intros Hno. by destruct (Hno p).
  - exists (set_slot w cpu None).
    assert (iotrace_destroy_inode_tracer w cpu = Some (set_slot w cpu None))
      as Hd by (unfold iotrace_destroy_inode_tracer; by rewrite Hslot).
    split; [done|]. split_and!.
    + assert (∀ p, holders (set_slot w cpu None) p = holders w p) as Hh.
      { intros p. pose proof (holders_set_slot w cpu None _ p Hslot) as H.
        destruct (decide (Some None = Some (Some p))); [done|].
        destruct (decide (None = Some (Some p))); [done|]. lia. }
      split; simpl.
      * intros p m. rewrite Hh. apply (ok_refcnt _ Hok).
      * intros p Hp. apply (ok_live _ Hok).
        apply list_elem_of_lookup_1 in Hp as [j Hj].
        apply list_lookup_insert_Some in Hj as [(_ & [=] & _)|[_ Hj]].
        by eapply list_elem_of_lookup_2.
      * apply (ok_single _ Hok).
      * apply (ok_inited _ Hok).
    + done.
    + intros p [=].
    + done.
  - exists w.
    assert (iotrace_destroy_inode_tracer w cpu = Some w)
      as Hd by (unfold iotrace_destroy_inode_tracer; by rewrite Hslot).
    split_and!; [done|done| | |done].
    + symmetry. by apply list_insert_id.
    + intros p [=].
  - exists w.
    assert (iotrace_destroy_inode_tracer w cpu = Some w)
      as Hd by (unfold iotrace_destroy_inode_tracer; by rewrite Hslot).
    split_and!; [done|done| | |done].
    + symmetry. apply list_insert_ge. by apply lookup_ge_None.
    + intros p [=].
Qed.

(** X20. Destroying a tracer releases exactly its reference: the slot is
    null afterwards; when the tracer was the last to hold the monitor, the
    monitor is freed and its group destroyed, otherwise the counter goes
    down by one and [put_group] is called; a tracer without monitor, a null
    slot and a null pointer touch no monitor and no group. The counter stays
    the number of tracers that hold the monitor, and destroying the same
    slot once more changes nothing. *)
Theorem destroy_releases_one_reference w cpu :
  monitors_ok w →
  ∃ w', iotrace_destroy_inode_tracer w cpu = Some w' ∧
        monitors_ok w' ∧
        inode_traces w' = <[cpu := None]> (inode_traces w) ∧
        iotrace_destroy_inode_tracer w' cpu = Some w' ∧
        (∀ p, inode_traces w !! cpu = Some (Some (Some p)) →
              ∃ m, monitors w !! p = Some m ∧
                   if decide (holders w p = 1%nat)
                   then monitors w' = ∅ ∧
                        backend_calls w' =
                          backend_calls w ++
                          [fsnotify_destroy_group (group m)]
                   else monitors w' =
                          <[p := {| refcnt := refcnt m - 1;
                                    group := group m |}]> (monitors w) ∧
                        backend_calls w' =
                          backend_calls w ++ [fsnotify_put_group (group m)]) ∧
        ((∀ p, inode_traces w !! cpu ≠ Some (Some (Some p))) →
         monitors w' = monitors w ∧ backend_calls w' = backend_calls w).
Proof.
  intros Hok.
  destruct (destroy_spec w cpu Hok) as (w' & Hd & Hok' & Hi & Hheld & Hfree).
  exists w'. split_and!; [done|done|done| |done|done].
  unfold iotrace_destroy_inode_tracer. rewrite Hi.
  destruct (decide (cpu < length (inode_traces w))%nat) as [Hlt|Hge].
  - by rewrite list_lookup_insert_eq.
  - rewrite lookup_ge_None_2; [done|]. rewrite length_insert. lia.
Qed.

(** The tracers destroyed one after the other. *)
Fixpoint destroy_each (w : fs_monitors) (cpus : list nat)
  : option fs_monitors :=
  match cpus with
  | [] => Some w
  | cpu :: cpus' =>
      w' ← iotrace_destroy_inode_tracer w cpu; destroy_each w' cpus'
  end.

Lemma holders_released w w1 cpu p :
  inode_traces w1 = <[cpu := None]> (inode_traces w) →
  holders w1 p =
  (holders w p -
   (if decide (inode_traces w !! cpu = Some (Some (Some p))) then 1 else 0))%nat.
Proof.
  intros Hi. unfold holders. rewrite Hi.
  destruct (inode_traces w !! cpu) as [y|] eqn:Hslot.
  - pose proof (filter_insert_length (λ s, s = Some (Some p))
                  (inode_traces w) cpu None y Hslot) as H.
    simpl in H. destruct (decide (None = Some (Some p))); [done|].
    destruct (decide (y = Some (Some p))) as [->|Hy].
    + destruct (decide (Some (Some (Some p)) = Some (Some (Some p))));
        [lia|done].
    + destruct (decide (Some y = Some (Some (Some p)))) as [[= ->]|_];
        [done|lia].
  - rewrite list_insert_ge by by apply lookup_ge_None.
    destruct (decide (None = Some (Some (Some p)))); [done|lia].
Qed.

(** What the backend has been asked since [w], for the monitor at [p]:
    either the monitor is gone, after the [put_group] of every holder but
    the last and one [destroy_group]; or it is still there, after one
    [put_group] for every holder less. *)
Definition released (w w' : fs_monitors) (p : nat) (m : fs_monitor) : Prop :=
  (monitors w' = ∅ ∧
   backend_calls w' =
     backend_calls w ++
     replicate (holders w p - 1) (fsnotify_put_group (group m)) ++
     [fsnotify_destroy_group (group m)]) ∨
  (∃ m', monitors w' !! p = Some m' ∧ group m' = group m ∧
         (holders w' p ≤ holders w p)%nat ∧
         backend_calls w' =
           backend_calls w ++
           replicate (holders w p - holders w' p)
             (fsnotify_put_group (group m))).

Lemma destroy_each_spec cpus : ∀ w,
  monitors_ok w →
  ∃ w', destroy_each w cpus = Some w' ∧ monitors_ok w' ∧
        length (inode_traces w') = length (inode_traces w) ∧
        (∀ j, j ∈ cpus → (j < length (inode_traces w))%nat →
              inode_traces w' !! j = Some None) ∧
        (monitors w = ∅ →
         monitors w' = ∅ ∧ backend_calls w' = backend_calls w) ∧
        (∀ p m, monitors w !! p = Some m → released w w' p m).
Proof.
  induction cpus as [|cpu cpus IH]; intros w Hok.
  - exists w. split_and!; [done..| | |].
    + intros j Hj. by apply elem_of_nil in Hj.
    + done.
    + intros p m Hm. right. exists m. split_and!; [done..|].
      by rewrite Nat.sub_diag, app_nil_r.
  - destruct (destroy_spec w cpu Hok)
      as (w1 & Hd & Hok1 & Hi1 & Hheld & Hfree).
    destruct (IH w1 Hok1) as (w' & Hd' & Hok' & Hlen & Hnull & Hempty & Hrel).
    exists w'. simpl. rewrite Hd. simpl. split_and!; [done|done| | | |].
    + by rewrite Hlen, Hi1, length_insert.
    + intros j Hj Hjl.
      destruct (decide (j ∈ cpus)) as [Hin|Hnin].
      { apply Hnull; [done|]. by rewrite Hi1, length_insert. }
      apply elem_of_cons in Hj as [->|Hj]; [|done].
      (* the slot nulled by the first call stays null *)
      assert (∀ cs w2 w3, destroy_each w2 cs = Some w3 →
                inode_traces w2 !! cpu = Some None →
                inode_traces w3 !! cpu = Some None) as Hstay.
      { clear. induction cs as [|c cs IHc]; intros w2 w3; simpl.
        - by intros [= <-].
        - destruct (iotrace_destroy_inode_tracer w2 c) as [w4|] eqn:E;
            [|done]. simpl. intros H3 H2. apply (IHc w4 w3 H3).
          unfold iotrace_destroy_inode_tracer in E.
          destruct (inode_traces w2 !! c) as [[fsm|]|] eqn:Ec.
          + destruct (_fs_monitor_put w2 fsm) as [w5|] eqn:E5; [|done].
            simpl in E. injection E as <-. simpl.
            assert (inode_traces w5 = inode_traces w2) as ->.
            { unfold _fs_monitor_put in E5. destruct fsm as [q|].
              - destruct (monitors w2 !! q); [|done]. simpl in E5.
                destruct (_ =? _); by injection E5 as <-.
              - by injection E5 as <-. }
            destruct (decide (c = cpu)) as [->|Hne].
            * rewrite list_lookup_insert_eq; [done|].
              by eapply lookup_lt_Some.
            * by rewrite list_lookup_insert_ne.
          + by injection E as <-.
          + by injection E as <-. }
      apply (Hstay cpus w1 w' Hd').
      rewrite Hi1, list_lookup_insert_eq; done.
    + intros Hm0.
      destruct Hfree as [Hm1 Hc1].
      { intros p Hp. pose proof (ok_live _ Hok p) as [m Hm].
        { by eapply list_elem_of_lookup_2. }
        by rewrite Hm0, lookup_empty in Hm. }
      destruct Hempty as [Hm' Hc']; [by rewrite Hm1|].
      split; [done|]. by rewrite Hc', Hc1.
    + intros p m Hm.
      pose proof (holders_released w w1 cpu p Hi1) as Hh1.
      destruct (decide (inode_traces w !! cpu = Some (Some (Some p))))
        as [Hslot|Hslot].
      * destruct (Hheld p Hslot) as (m0 & Hm0 & Hcase).
        assert (m0 = m) as -> by congruence.
        destruct (ok_refcnt _ Hok p m Hm) as [_ Hpos].
        destruct (decide (holders w p = 1%nat)) as [E1|E1].
        -- destruct Hcase as [Hms1 Hc1].
           destruct Hempty as [Hm' Hc']; [done|].
           left. split; [done|]. rewrite Hc', Hc1, E1. done.
        -- destruct Hcase as [Hms1 Hc1].
           destruct (Hrel p {| refcnt := refcnt m - 1; group := group m |})
             as [[Hm' Hc']|(m' & Hm' & Hg & Hle & Hc')].
           { by rewrite Hms1, lookup_insert_eq. }
           ++ left. split; [done|]. rewrite Hc', Hc1, Hh1. simpl.
              rewrite <- !app_assoc. f_equal.
              replace (holders w p - 1)%nat
                with (S (holders w p - 1 - 1)) at 2 by lia.
              done.
           ++ right. exists m'. split_and!; [done|done|lia|].
              rewrite Hc', Hc1, Hh1. simpl. rewrite <- app_assoc. f_equal.
              replace (holders w p - holders w' p)%nat
                with (S (holders w p - 1 - holders w' p)) by lia.
              done.
      * destruct Hfree as [Hm1 Hc1].
        { intros q Hq. apply Hslot. rewrite Hq. do 3 f_equal.
          apply (ok_single _ Hok); [|by eexists].
          apply (ok_live _ Hok). by eapply list_elem_of_lookup_2. }
        destruct (Hrel p m) as [[Hm' Hc']|(m' & Hm' & Hg & Hle & Hc')].
        { by rewrite Hm1. }
        -- left. split; [done|]. rewrite Hc', Hc1, Hh1.
           by rewrite Nat.sub_0_r.
        -- right. exists m'. split_and!; [done|done|lia|].
           rewrite Hc', Hc1, Hh1. by rewrite Nat.sub_0_r.
Qed.

(** X21. When every tracer has been destroyed, in whatever order and however
    often, no monitor is left and every slot is null; the group of the
    monitor there was has been given back by one [put_group] for each
    holder but the last and then destroyed, once; and without a monitor the
    backend has not been called. *)
Theorem destroy_every_tracer_frees_the_monitor w cpus :
  monitors_ok w →
  (∀ cpu, (cpu < length (inode_traces w))%nat → cpu ∈ cpus) →
  ∃ w', destroy_each w cpus = Some w' ∧
        monitors w' = ∅ ∧
        inode_traces w' = replicate (length (inode_traces w)) None ∧
        (∀ p m, monitors w !! p = Some m →
                backend_calls w' =
                  backend_calls w ++
                  replicate (holders w p - 1) (fsnotify_put_group (group m)) ++
                  [fsnotify_destroy_group (group m)]) ∧
        (monitors w = ∅ → backend_calls w' = backend_calls w).
Proof.
  intros Hok Hall.
  destruct (destroy_each_spec cpus w Hok)
    as (w' & Hd & Hok' & Hlen & Hnull & Hempty & Hrel).
  assert (inode_traces w' = replicate (length (inode_traces w)) None) as Hi.
  { apply list_eq. intros j.
    destruct (decide (j < length (inode_traces w))%nat) as [Hj|Hj].
    - rewrite Hnull; [|by apply Hall|done].
      symmetry. by apply lookup_replicate_2.
    - rewrite !lookup_ge_None_2; [done| |lia].
      rewrite length_replicate. lia. }
  assert (monitors w' = ∅) as Hm'.
  { apply monitors_empty; [done|]. intros p Hp. rewrite Hi in Hp.
    by apply elem_of_replicate in Hp as [? _]. }
  exists w'. split_and!; [done..| |].
  - intros p m Hm. destruct (Hrel p m Hm) as [[_ Hc]|(m' & Hm1 & _)]; [done|].
    by rewrite Hm', lookup_empty in Hm1.
  - intros Hm0. by apply Hempty.
Qed.

(** * A file two levels below the root *)

Definition root_inode : inode :=
  {| i_ino := 2; s_dev := 0x801; i_mode := 0x41ED;
     i_ctime := {| tv_sec := 1000; tv_nsec := 0 |} |}.

Definition home_inode : inode :=
  {| i_ino := 12; s_dev := 0x801; i_mode := 0x41ED;
     i_ctime := {| tv_sec := 2000; tv_nsec := 0 |} |}.

Definition notes_inode : inode :=
  {| i_ino := 13; s_dev := 0x801; i_mode := 0x81A4;
     i_ctime := {| tv_sec := 3000; tv_nsec := 500 |} |}.

(** Dentry 0 is the root, dentry 1 is [home], dentry 2 is [home/notes]. The
    root has no parent here. *)
Definition example_vfs : dcache :=
  {| d_find_alias := λ i,
       if i_ino i =? 13 then Some 2%nat
       else if i_ino i =? 12 then Some 1%nat
       else if i_ino i =? 2 then Some 0%nat
       else None;
     dget_parent := λ d,
       match d with
       | 2%nat => Some 1%nat
       | 1%nat => Some 0%nat
       | _ => None
       end;
     d_inode := λ d,
       match d with
       | 0%nat => root_inode
       | 1%nat => home_inode
       | _ => notes_inode
       end;
     d_name := λ d,
       match d with
       | 0%nat => "/"%string
       | 1%nat => "home"%string
       | _ => "notes"%string
       end |}.

(** The same file system as Linux presents it: the root dentry is its own
    parent, and [dget_parent] finds a parent for every dentry. *)
Definition linux_vfs : dcache :=
  {| d_find_alias := d_find_alias example_vfs;
     dget_parent := λ d,
       match d with
       | 2%nat => Some 1%nat
       | _ => Some 0%nat
       end;
     d_inode := d_inode example_vfs;
     d_name := d_name example_vfs |}.

Definition example_fsm : fs_monitor := {| refcnt := 1; group := 0 |}.

(** A new tracer with the monitor set up, a trace buffer whose coming
    reservations get [results], and no mark yet. *)
Definition example_kernel (results : list Z) : kernel :=
  {| sid := 0;
     trace := {| wr_results := results; written := [] |};
     inode_tracer := iotrace_create_inode_tracer (Some example_fsm);
     marks := [];
     fsnotify_ops_inited := true |}.

Definition example_walk (k : kernel) : option kernel :=
  iotrace_trace_inode hash_min_64 0xFFFFFFFF (λ _, 0) 64 example_vfs 3 k
    notes_inode.

(** The walk from [notes] in Linux, with four runs of the loop body. *)
Definition linux_walk (k : kernel) : option kernel :=
  iotrace_trace_inode hash_min_64 0xFFFFFFFF (λ _, 0) 64 linux_vfs 4 k
    notes_inode.

Definition example_name_event (s : Z) (this parent : iotrace_event_file_id)
    (name : string) : iotrace_event :=
  fs_file_name {| fn_sid := s; fn_partition_id := 0x801; fn_file_id := this;
                  file_parent_id := parent; file_name := name |}.

Definition id_of (i : inode) : iotrace_event_file_id :=
  {| id := i_ino i; id_ctime := i_ctime i |}.

Definition no_parent_id : iotrace_event_file_id :=
  {| id := 0; id_ctime := zero_timespec |}.

(** C1 fails as stated: with [notes], [home] and the root all uncached and
    room in the buffer, the walk from [notes] writes three records, the third
    one naming the root, under itself, and the root is cached afterwards (a
    lookup finds it in entry 2). Three runs of the loop body do not end the
    walk: the fourth finds the root. *)
Lemma walk_from_notes_names_the_root :
  written ∘ trace <$> linux_walk (example_kernel [0; 0; 0]) =
    Some [example_name_event 1 (id_of notes_inode) (id_of home_inode) "notes";
          example_name_event 2 (id_of home_inode) (id_of root_inode) "home";
          example_name_event 3 (id_of root_inode) (id_of root_inode) "/"] ∧
  (λ k, snd (_lookup hash_min_64 (inode_tracer k) root_inode)) <$>
    linux_walk (example_kernel [0; 0; 0]) = Some (Some 2%nat) ∧
  iotrace_trace_inode hash_min_64 0xFFFFFFFF (λ _, 0) 64 linux_vfs 3
    (example_kernel [0; 0; 0]) notes_inode = None.
Proof. split_and!; vm_compute; reflexivity. Qed.

(** C2 fails as stated: when the reservation for the record of [notes]
    fails and the next ones succeed, the walk goes on: it writes the
    records of [home] and of the root and caches [home] (in entry 0). *)
Lemma walk_goes_on_after_failed_emission :
  fst (octf_trace_get_wr_buffer (trace (example_kernel [-28; 0; 0]))) = -28 ∧
  written ∘ trace <$> example_walk (example_kernel [-28; 0; 0]) =
    Some [example_name_event 2 (id_of home_inode) (id_of root_inode) "home";
          example_name_event 3 (id_of root_inode) no_parent_id "/"] ∧
  (λ k, snd (_lookup hash_min_64 (inode_tracer k) home_inode)) <$>
    example_walk (example_kernel [-28; 0; 0]) = Some (Some 0%nat) ∧
  (λ k, snd (_lookup hash_min_64 (inode_tracer k) notes_inode)) <$>
    example_walk (example_kernel [-28; 0; 0]) = Some None.
Proof. split_and!; vm_compute; reflexivity. Qed.

(** ** The theorems on this file system *)

Lemma create_not_cached nb n m i : ¬ cached (create_inode_tracer nb n m) i.
Proof.
  intros (x & Hx & _). unfold hashed, live_mappings in Hx.
  unfold create_inode_tracer in Hx. cbn [hash_table] in Hx.
  rewrite concat_replicate_nil in Hx. by apply elem_of_nil in Hx.
Qed.

Lemma example_wf m :
  cache_wf hash_min_64 (Z.to_nat CACHE_SIZE) (iotrace_create_inode_tracer m).
Proof. apply wf_create, hash_min_64_range. Qed.

Lemma CACHE_SIZE_ge_3 : (3 ≤ Z.to_nat CACHE_SIZE)%nat.
Proof. change CACHE_SIZE with 8192. lia. Qed.

(** The theorem of C1 on the walk from [notes] in the new tracer. *)
Lemma walk_emits_root_too_witness :
  ∃ k' vO vP vG,
    linux_walk (example_kernel [0; 0; 0]) = Some k' ∧
    written (trace k') =
      written (trace (example_kernel [0; 0; 0])) ++
      [name_event 64 (u64 (sid (example_kernel [0; 0; 0]) + 1)) notes_inode
         (Some home_inode) (d_name linux_vfs 2);
       name_event 64 (u64 (u64 (sid (example_kernel [0; 0; 0]) + 1) + 1))
         home_inode (Some root_inode) (d_name linux_vfs 1);
       name_event 64
         (u64 (u64 (u64 (sid (example_kernel [0; 0; 0]) + 1) + 1) + 1))
         root_inode
         (match dget_parent linux_vfs 0 with
          | Some _ => Some root_inode
          | None => None
          end)
         (d_name linux_vfs 0)] ∧
    wr_results (trace k') = [] ∧
    vO ≠ vP ∧ vO ≠ vG ∧ vP ≠ vG ∧
    entries (inode_tracer k') =
      <[vG := entry_of root_inode]>
        (<[vP := entry_of home_inode]>
           (<[vO := entry_of notes_inode]>
              (entries (inode_tracer (example_kernel [0; 0; 0]))))) ∧
    cached (inode_tracer k') notes_inode ∧
    cached (inode_tracer k') home_inode ∧
    cached (inode_tracer k') root_inode ∧
    ∀ fuel', (1 ≤ fuel')%nat →
      ∃ k'', iotrace_trace_inode hash_min_64 0xFFFFFFFF (λ _, 0) 64
               linux_vfs fuel' k' notes_inode = Some k'' ∧
             written (trace k'') = written (trace k').
Proof.
  apply (walk_emits_root_too hash_min_64 (Z.to_nat CACHE_SIZE) 0xFFFFFFFF
           (λ _, 0) 64 linux_vfs (example_kernel [0; 0; 0])
           notes_inode home_inode root_inode 2 1 0 [] 4).
  - apply example_wf.
  - apply CACHE_SIZE_ge_3.
  - reflexivity.
  - reflexivity.
  - reflexivity.
  - reflexivity.
  - reflexivity.
  - reflexivity.
  - discriminate.
  - discriminate.
  - discriminate.
  - apply create_not_cached.
  - apply create_not_cached.
  - apply create_not_cached.
  - reflexivity.
  - lia.
Defined.

(** The theorem of C2 on the walk from [notes] when the first reservation
    fails with [-ENOSPC]. *)
Lemma failed_emission_skips_insert_witness :
  ∃ k1,
    inode_tracer k1 = iotrace_create_inode_tracer (Some example_fsm) ∧
    written (trace k1) = written (trace (example_kernel [-28; 0; 0])) ∧
    trace_inode_loop hash_min_64 0xFFFFFFFF (λ _, 0) 64 example_vfs 3
      (example_kernel [-28; 0; 0]) notes_inode 2 =
    match dget_parent example_vfs 2 with
    | Some pd =>
        trace_inode_loop hash_min_64 0xFFFFFFFF (λ _, 0) 64 example_vfs 2
          k1 (d_inode example_vfs pd) pd
    | None => Some k1
    end.
Proof.
  apply (failed_emission_skips_insert hash_min_64 0xFFFFFFFF (λ _, 0) 64
           example_vfs 2 (example_kernel [-28; 0; 0]) notes_inode 2
           (iotrace_create_inode_tracer (Some example_fsm))).
  - apply lookup_clean_miss. intros x Hx. exfalso.
    unfold hashed, live_mappings in Hx.
    change (x ∈ concat (replicate (Z.to_nat HASH_SIZE_hash_table) (@nil nat))) in Hx.
    rewrite concat_replicate_nil in Hx. apply elem_of_nil in Hx. exact Hx.
  - discriminate.
Defined.

(** [home] is cached, then its inode number is given to a new file. *)
Definition home_cached : iotrace_inode_tracer :=
  default (iotrace_create_inode_tracer None)
    (_map hash_min_64 (iotrace_create_inode_tracer None) home_inode).

Definition home_reused : inode :=
  {| i_ino := 12; s_dev := 0x801; i_mode := 0x81A4;
     i_ctime := {| tv_sec := 4000; tv_nsec := 0 |} |}.

Lemma home_cached_spec :
  cache_wf hash_min_64 (Z.to_nat CACHE_SIZE) home_cached ∧
  cache_uniq home_cached ∧
  hashed home_cached 0 ∧
  entries home_cached !!! 0%nat = entry_of home_inode.
Proof.
  pose proof (example_wf None) as Hwf0.
  destruct (fresh_inserts hash_min_64 (Z.to_nat CACHE_SIZE)
              (Z.to_nat HASH_SIZE_hash_table) None [home_inode]
              hash_min_64_range) as (t & Hm & Hwf & _ & Ee & Hh).
  { pose proof CACHE_SIZE_ge_3. cbn [length]. lia. }
  assert (_map hash_min_64 (iotrace_create_inode_tracer None) home_inode = Some t)
    as Hmap.
  { rewrite map_all_one in Hm. exact Hm. }
  assert (home_cached = t) as -> by (unfold home_cached; by rewrite Hmap).
  split_and!.
  - exact Hwf.
  - apply (uniq_map_after_miss hash_min_64 (Z.to_nat CACHE_SIZE)
             (iotrace_create_inode_tracer None) home_inode
             (iotrace_create_inode_tracer None) t).
    + exact Hwf0.
    + pose proof CACHE_SIZE_ge_3. lia.
    + apply uniq_create.
    + apply lookup_clean_miss. intros x Hx. exfalso.
      unfold hashed, live_mappings, iotrace_create_inode_tracer,
        create_inode_tracer in Hx. cbn [hash_table] in Hx.
      rewrite concat_replicate_nil in Hx. apply elem_of_nil in Hx. exact Hx.
    + exact Hmap.
  - apply Hh. cbn [length]. lia.
  - rewrite Ee. reflexivity.
Qed.

(** The theorem of C3 on the reused inode number. *)
Lemma stale_entry_is_reused_witness :
  ∃ t1 t2,
    _lookup hash_min_64 home_cached home_reused = (t1, None) ∧
    hash_table t1 = hash_del 0 (hash_table home_cached) ∧
    ¬ hashed t1 0 ∧
    lru_list t1 = list_del 0 (lru_list home_cached) ++ [0%nat] ∧
    _map hash_min_64 t1 home_reused = Some t2 ∧
    lru_list t2 = 0%nat :: list_del 0 (lru_list home_cached) ∧
    entries t2 = <[0%nat := entry_of home_reused]> (entries home_cached) ∧
    holds t2 0 home_reused ∧
    (∀ x, x ≠ 0%nat → (hashed t2 x ↔ hashed home_cached x)).
Proof.
  destruct home_cached_spec as (Hwf & Hu & Hh & He).
  apply (stale_entry_is_reused hash_min_64 (Z.to_nat CACHE_SIZE) home_cached
           home_reused 0 Hwf Hu Hh).
  - rewrite He. reflexivity.
  - rewrite He. reflexivity.
Defined.

(** The theorem of C9 on the walk from [notes] in Linux with a trace buffer
    that is full throughout: a hundred runs of the loop body do not end
    it. *)
Lemma walk_goes_on_while_the_sink_is_full_witness :
  iotrace_trace_inode hash_min_64 0xFFFFFFFF (λ _, 0) 64 linux_vfs 100
    (example_kernel []) notes_inode = None.
Proof.
  apply (walk_goes_on_while_the_sink_is_full hash_min_64
           (Z.to_nat CACHE_SIZE) 0xFFFFFFFF (λ _, 0) 64 linux_vfs 100
           (example_kernel []) notes_inode 2).
  - apply example_wf.
  - reflexivity.
  - intros [|[|[|d']]]; eexists; reflexivity.
  - apply create_not_cached.
  - intros d'. apply create_not_cached.
  - apply Forall_nil_2.
Defined.

(** ** More keys than entries *)

Definition numbered_inode (z : Z) : inode :=
  {| i_ino := z; s_dev := 0x801; i_mode := 0x81A4;
     i_ctime := {| tv_sec := z; tv_nsec := 0 |} |}.

Global Instance numbered_identity_inj : Inj (=) (=) (identity ∘ numbered_inode).
Proof. intros a b [= ->]. done. Qed.

(** The theorem of C4 on the new cache and the keys numbered 0 to 8192. *)
Lemma cache_never_exceeds_CACHE_SIZE_witness :
  (length (entries (iotrace_create_inode_tracer None)) = Z.to_nat CACHE_SIZE ∧
   (length (live_mappings (iotrace_create_inode_tracer None))
    ≤ Z.to_nat CACHE_SIZE)%nat) ∧
  (∃ l v t',
     lru_list (iotrace_create_inode_tracer None) = l ++ [v] ∧
     _map hash_min_64 (iotrace_create_inode_tracer None) notes_inode = Some t' ∧
     lru_list t' = v :: l ∧
     entries t' =
       <[v := entry_of notes_inode]>
         (entries (iotrace_create_inode_tracer None)) ∧
     hashed t' v) ∧
  (∃ t',
     map_all hash_min_64 (iotrace_create_inode_tracer None)
       (numbered_inode 0 :: (numbered_inode <$> seqZ 1 8192)) = Some t' ∧
     snd (_lookup hash_min_64 t' (numbered_inode 0)) = None ∧
     ∀ k, k ∈ numbered_inode <$> seqZ 1 8192 →
          is_Some (snd (_lookup hash_min_64 t' k))).
Proof.
  apply (cache_never_exceeds_CACHE_SIZE hash_min_64 None
           (iotrace_create_inode_tracer None) notes_inode
           (numbered_inode 0) (numbered_inode <$> seqZ 1 8192)).
  - apply hash_min_64_range.
  - apply reach_create.
  - cbn [length]. rewrite length_fmap, length_seqZ. reflexivity.
  - change (numbered_inode 0 :: (numbered_inode <$> seqZ 1 8192))
      with (numbered_inode <$> 0 :: seqZ 1 8192).
    rewrite <- list_fmap_compose.
    apply (NoDup_fmap_2 _), NoDup_cons. split.
    + rewrite elem_of_seqZ. lia.
    + apply NoDup_seqZ.
Defined.

(** The theorem of C5 on the keys numbered 1 to 4. *)
Lemma lookup_protects_from_eviction_witness :
  ∃ t3 t4 e t5,
    map_all hash_min_64
      (create_inode_tracer (Z.to_nat HASH_SIZE_hash_table) 3 None)
      [numbered_inode 1; numbered_inode 2; numbered_inode 3] = Some t3 ∧
    _lookup hash_min_64 t3 (numbered_inode 1) = (t4, Some e) ∧
    head (lru_list t4) = Some e ∧
    entries t4 !!! e = entry_of (numbered_inode 1) ∧
    _map hash_min_64 t4 (numbered_inode 4) = Some t5 ∧
    snd (_lookup hash_min_64 t5 (numbered_inode 2)) = None ∧
    is_Some (snd (_lookup hash_min_64 t5 (numbered_inode 1))) ∧
    is_Some (snd (_lookup hash_min_64 t5 (numbered_inode 3))) ∧
    is_Some (snd (_lookup hash_min_64 t5 (numbered_inode 4))).
Proof.
  apply (lookup_protects_from_eviction hash_min_64
           (Z.to_nat HASH_SIZE_hash_table) None
           (numbered_inode 1) (numbered_inode 2) (numbered_inode 3)
           (numbered_inode 4)).
  - apply hash_min_64_range.
  - change ([numbered_inode 1; numbered_inode 2; numbered_inode 3;
             numbered_inode 4])
      with (numbered_inode <$> seqZ 1 4).
    rewrite <- list_fmap_compose.
    apply (NoDup_fmap_2 _), NoDup_seqZ.
Defined.

(** * Small runs *)

(** A cache of three entries and four buckets, the bucket of a key being
    its remainder modulo 4. *)
Definition hash_mod_4 (key : Z) : nat := Z.to_nat (key mod 4).

Definition small_cache : iotrace_inode_tracer := create_inode_tracer 4 3 None.

Definition after_three : option iotrace_inode_tracer :=
  map_all hash_mod_4 small_cache
    [numbered_inode 1; numbered_inode 2; numbered_inode 3].

Example small_cache_lru : lru_list small_cache = [2; 1; 0]%nat.
Proof. reflexivity. Qed.

Example after_three_lru : lru_list <$> after_three = Some [2; 1; 0]%nat.
Proof. reflexivity. Qed.

Example after_three_hash_table :
  hash_table <$> after_three = Some [[]; [0]; [1]; [2]]%nat.
Proof. reflexivity. Qed.

(** The lookup of the first key moves its entry to the head of the LRU
    list; the next insertion takes entry 1, which held the second key. *)
Example lookup_then_insert :
  (t3 ← after_three;
   let '(t4, hit) := _lookup hash_mod_4 t3 (numbered_inode 1) in
   t5 ← _map hash_mod_4 t4 (numbered_inode 4);
   Some (hit, lru_list t4, lru_list t5, inode_id <$> entries t5,
         hash_table t5)) =
  Some (Some 0%nat, [0; 2; 1]%nat, [1; 0; 2]%nat, [1; 4; 3],
        [[1]; [0]; []; [2]]%nat).
Proof. reflexivity. Qed.

(** The second key comes back with another ctime: its entry leaves the
    chain and goes to the end of the LRU list, and the insertion takes it. *)
Example reused_inode_number :
  let reused :=
    {| i_ino := 2; s_dev := 0x801; i_mode := 0x81A4;
       i_ctime := {| tv_sec := 77; tv_nsec := 0 |} |} in
  (t3 ← after_three;
   let '(t4, hit) := _lookup hash_mod_4 t3 reused in
   t5 ← _map hash_mod_4 t4 reused;
   Some (hit, lru_list t4, hash_table t4, lru_list t5, hash_table t5,
         ctime <$> entries t5 !! 1%nat)) =
  Some (None, [2; 0; 1]%nat, [[]; [0]; []; [2]]%nat,
        [1; 2; 0]%nat, [[]; [0]; [1]; [2]]%nat,
        Some {| tv_sec := 77; tv_nsec := 0 |}).
Proof. reflexivity. Qed.

(** A child is created in a watched directory (the mask has [FS_CREATE]
    and [FS_EVENT_ON_CHILD], 0x08000000): one mark, one record. *)
Example child_created :
  (λ r, (marks (fst r), written (trace (fst r)), snd r)) <$>
  _fs_handle_event 0xFFFFFFFF (λ _, 0)
    {| sid := 41; trace := {| wr_results := [0]; written := [] |};
       inode_tracer := small_cache; marks := [];
       fsnotify_ops_inited := true |}
    0 home_inode (Z.lor FS_CREATE 0x08000000)
    (FSNOTIFY_EVENT_INODE notes_inode) =
  Some ([{| mark_group := 0; mark_inode := (0x801, 13); mask := 0xFFFFFFFF |}],
        [fs_file_event
           {| fe_sid := 42; fe_partition_id := 0x801;
              fe_file_id := id_of notes_inode;
              fs_event_type := iotrace_fs_event_create |}],
        0).
Proof. reflexivity. Qed.

(** * The further theorems on examples *)

Lemma hash_mod_4_range key : (hash_mod_4 key < 4)%nat.
Proof. unfold hash_mod_4. pose proof (Z.mod_pos_bound key 4). lia. Qed.

Lemma small_wf m : cache_wf hash_mod_4 3 (create_inode_tracer 4 3 m).
Proof. apply wf_create, hash_mod_4_range. Qed.

(** The small cache with the keys 1, 2 and 3. *)
Definition three_keys : iotrace_inode_tracer := default small_cache after_three.

Lemma three_keys_wf : cache_wf hash_mod_4 3 three_keys.
Proof.
  destruct (fresh_inserts hash_mod_4 3 4 None
              [numbered_inode 1; numbered_inode 2; numbered_inode 3]
              hash_mod_4_range) as (t & Hm & Hwf & _); [simpl; lia|].
  assert (three_keys = t) as ->; [|done].
  unfold three_keys, after_three, small_cache. by rewrite Hm.
Qed.

(** The second key with another ctime. *)
Definition second_reused : inode :=
  {| i_ino := 2; s_dev := 0x801; i_mode := 0x81A4;
     i_ctime := {| tv_sec := 77; tv_nsec := 0 |} |}.

(** A kernel with the small cache. *)
Definition small_kernel (m : option fs_monitor) (results : list Z) : kernel :=
  {| sid := 0;
     trace := {| wr_results := results; written := [] |};
     inode_tracer := create_inode_tracer 4 3 m;
     marks := [];
     fsnotify_ops_inited := true |}.

Definition small_walk (k : kernel) : option kernel :=
  iotrace_trace_inode hash_mod_4 0xFFFFFFFF (λ _, 0) 64 example_vfs 3 k
    notes_inode.

(** The walk from [notes] with room for two records, with the monitor and
    without. *)
Definition after_small_walk : kernel :=
  default (small_kernel (Some example_fsm) [0; 0])
    (small_walk (small_kernel (Some example_fsm) [0; 0])).

Definition after_unwatched_walk : kernel :=
  default (small_kernel None [0; 0]) (small_walk (small_kernel None [0; 0])).

Lemma small_walk_eq :
  small_walk (small_kernel (Some example_fsm) [0; 0]) = Some after_small_walk.
Proof. reflexivity. Qed.

Lemma unwatched_walk_eq :
  small_walk (small_kernel None [0; 0]) = Some after_unwatched_walk.
Proof. reflexivity. Qed.

Example after_small_walk_trace :
  (wr_results (trace after_small_walk),
   length (written (trace after_small_walk)),
   mark_inode <$> marks after_small_walk,
   marks after_unwatched_walk) =
  ([], 2%nat, [(0x801, 2); (0x801, 12)], []).
Proof. reflexivity. Qed.

(** The theorem of X1 on the cache that holds [home]. *)
Lemma lookup_hits_exactly_the_cached_witness :
  (is_Some (snd (_lookup hash_min_64 home_cached home_inode)) ↔
   cached home_cached home_inode) ∧
  (∀ t' e, _lookup hash_min_64 home_cached home_inode = (t', Some e) →
     holds home_cached e home_inode ∧ holds t' e home_inode ∧
     head (lru_list t') = Some e).
Proof.
  apply (lookup_hits_exactly_the_cached hash_min_64 (Z.to_nat CACHE_SIZE)
           home_cached home_inode).
  exact (proj1 home_cached_spec).
Defined.

(** The theorem of X2 on the new cache. *)
Lemma insert_then_lookup_hits_witness :
  ∃ t', _map hash_min_64 (iotrace_create_inode_tracer None) notes_inode =
          Some t' ∧
        cache_wf hash_min_64 (Z.to_nat CACHE_SIZE) t' ∧
        is_Some (snd (_lookup hash_min_64 t' notes_inode)).
Proof.
  apply (insert_then_lookup_hits hash_min_64 (Z.to_nat CACHE_SIZE)
           (iotrace_create_inode_tracer None) notes_inode).
  - apply example_wf.
  - pose proof CACHE_SIZE_ge_3. lia.
Defined.

(** The theorem of X3 on the lookup of the reused inode number. *)
Lemma lookup_spares_other_identities_witness :
  entries (fst (_lookup hash_min_64 home_cached home_reused)) =
    entries home_cached ∧
  lru_list (fst (_lookup hash_min_64 home_cached home_reused)) ≡ₚ
    lru_list home_cached ∧
  (∀ x, hashed (fst (_lookup hash_min_64 home_cached home_reused)) x →
        hashed home_cached x) ∧
  (∀ x, hashed home_cached x →
        same_identity home_reused (entries home_cached !!! x) = false →
        hashed (fst (_lookup hash_min_64 home_cached home_reused)) x).
Proof.
  apply (lookup_spares_other_identities hash_min_64 (Z.to_nat CACHE_SIZE)
           home_cached home_reused).
  exact (proj1 home_cached_spec).
Defined.

(** The theorem of X4 on the small cache, where the second key comes back
    with another ctime and entry 0 holds the first key. *)
Lemma miss_leaves_no_entry_of_identity_witness :
  same_identity second_reused
    (entries (fst (_lookup hash_mod_4 three_keys second_reused)) !!! 0%nat)
  = false.
Proof.
  apply (miss_leaves_no_entry_of_identity hash_mod_4 3 three_keys
           second_reused 0).
  - apply three_keys_wf.
  - reflexivity.
  - vm_compute. constructor.
Defined.

(** The theorem of X5 on the new cache. *)
Lemma insert_spares_all_but_the_victim_witness :
  ∃ v t',
    last (lru_list (iotrace_create_inode_tracer None)) = Some v ∧
    _map hash_min_64 (iotrace_create_inode_tracer None) notes_inode =
      Some t' ∧
    holds t' v notes_inode ∧
    (∀ x, x ≠ v →
          (hashed t' x ↔ hashed (iotrace_create_inode_tracer None) x) ∧
          entries t' !!! x =
            entries (iotrace_create_inode_tracer None) !!! x) ∧
    (length (live_mappings t')
     ≤ S (length (live_mappings (iotrace_create_inode_tracer None))))%nat.
Proof.
  apply (insert_spares_all_but_the_victim hash_min_64 (Z.to_nat CACHE_SIZE)
           (iotrace_create_inode_tracer None) notes_inode).
  - apply example_wf.
  - pose proof CACHE_SIZE_ge_3. lia.
Defined.

(** The theorem of X6 on the walk from [notes] in the small cache. *)
Lemma walk_keeps_the_cache_well_formed_witness :
  cache_wf hash_mod_4 3 (inode_tracer after_small_walk) ∧
  cache_uniq (inode_tracer after_small_walk) ∧
  length (entries (inode_tracer after_small_walk)) =
    length (entries (inode_tracer (small_kernel (Some example_fsm) [0; 0]))) ∧
  fsm (inode_tracer after_small_walk) =
    fsm (inode_tracer (small_kernel (Some example_fsm) [0; 0])) ∧
  fsnotify_ops_inited after_small_walk =
    fsnotify_ops_inited (small_kernel (Some example_fsm) [0; 0]).
Proof.
  apply (walk_keeps_the_cache_well_formed hash_mod_4 3 0xFFFFFFFF (λ _, 0) 64
           example_vfs 3 (small_kernel (Some example_fsm) [0; 0]) notes_inode
           after_small_walk).
  - lia.
  - apply small_wf.
  - apply uniq_create.
  - exact small_walk_eq.
Defined.

(** A kernel whose cache holds [home]. *)
Definition home_kernel : kernel :=
  set_inode_tracer (example_kernel [0]) home_cached.

(** The theorem of X7 on the walk from [home] in the cache that holds it. *)
Lemma walk_on_cached_inode_writes_nothing_witness :
  ∃ k', iotrace_trace_inode hash_min_64 0xFFFFFFFF (λ _, 0) 64 example_vfs 1
          home_kernel home_inode = Some k' ∧
        trace k' = trace home_kernel ∧
        sid k' = sid home_kernel ∧
        marks k' = marks home_kernel ∧
        entries (inode_tracer k') = entries (inode_tracer home_kernel) ∧
        cached (inode_tracer k') home_inode ∧
        (is_Some (d_find_alias example_vfs home_inode) →
         ∃ e, head (lru_list (inode_tracer k')) = Some e ∧
              holds (inode_tracer k') e home_inode).
Proof.
  apply (walk_on_cached_inode_writes_nothing hash_min_64
           (Z.to_nat CACHE_SIZE) 0xFFFFFFFF (λ _, 0) 64 example_vfs 0
           home_kernel home_inode).
  - exact (proj1 home_cached_spec).
  - exists 0%nat. split.
    + exact (proj1 (proj2 (proj2 home_cached_spec))).
    + exact (proj2 (proj2 (proj2 home_cached_spec))).
Defined.

(** The theorem of X8 on the walk from [notes] in the small cache. *)
Lemma walk_appends_naming_records_only_witness :
  ∃ used evs,
    wr_results (trace (small_kernel (Some example_fsm) [0; 0])) =
      used ++ wr_results (trace after_small_walk) ∧
    written (trace after_small_walk) =
      written (trace (small_kernel (Some example_fsm) [0; 0])) ++ evs ∧
    Forall (λ ev, is_name_event ev = true) evs ∧
    length evs = length (granted_of used).
Proof.
  apply (walk_appends_naming_records_only hash_mod_4 0xFFFFFFFF (λ _, 0) 64
           example_vfs 3 (small_kernel (Some example_fsm) [0; 0]) notes_inode
           after_small_walk).
  exact small_walk_eq.
Defined.

(** The theorem of X9 on the walk from [notes] in a tracer without
    monitor. *)
Lemma walk_without_monitor_adds_no_mark_witness :
  marks after_unwatched_walk = marks (small_kernel None [0; 0]).
Proof.
  apply (walk_without_monitor_adds_no_mark hash_mod_4 0xFFFFFFFF (λ _, 0) 64
           example_vfs 3 (small_kernel None [0; 0]) notes_inode
           after_unwatched_walk).
  - left. reflexivity.
  - exact unwatched_walk_eq.
Defined.

(** The theorem of X10 on the walk from [notes] in the small cache. *)
Lemma walk_marks_directories_only_witness :
  ∃ new,
    marks after_small_walk =
      new ++ marks (small_kernel (Some example_fsm) [0; 0]) ∧
    marks_uniq (marks after_small_walk) ∧
    Forall (walk_mark 0xFFFFFFFF (λ _, 0)
              (inode_tracer (small_kernel (Some example_fsm) [0; 0]))) new.
Proof.
  apply (walk_marks_directories_only hash_mod_4 0xFFFFFFFF (λ _, 0) 64
           example_vfs 3 (small_kernel (Some example_fsm) [0; 0]) notes_inode
           after_small_walk).
  - apply NoDup_nil_2.
  - exact small_walk_eq.
Defined.

Lemma linux_path :
  path_inodes linux_vfs 2 notes_inode 2 =
  [notes_inode; home_inode; root_inode].
Proof. reflexivity. Qed.

Lemma linux_path_NoDup :
  NoDup (identity <$> path_inodes linux_vfs 2 notes_inode 2).
Proof.
  rewrite linux_path.
  change (NoDup [(0x801, 13); (0x801, 12); (0x801, 2)]).
  apply NoDup_cons. split.
  { intros [H|[H|H%elem_of_nil]%elem_of_cons]%elem_of_cons; [done..]. }
  apply NoDup_cons. split.
  { intros [H|H%elem_of_nil]%elem_of_cons; [done..]. }
  apply NoDup_singleton.
Qed.

(** The theorem of X11 on the walk from [notes] in the new tracer, in
    Linux. *)
Lemma walk_names_every_uncached_ancestor_witness :
  ∃ k', linux_walk (example_kernel [0; 0; 0; -28]) = Some k' ∧
        written (trace k') =
          written (trace (example_kernel [0; 0; 0; -28])) ++
          path_events 64 linux_vfs 2 (sid (example_kernel [0; 0; 0; -28]))
            notes_inode 2 ∧
        wr_results (trace k') = [-28] ∧
        cache_wf hash_min_64 (Z.to_nat CACHE_SIZE) (inode_tracer k') ∧
        (∀ j, j ∈ path_inodes linux_vfs 2 notes_inode 2 →
              cached (inode_tracer k') j).
Proof.
  apply (walk_names_every_uncached_ancestor hash_min_64 (Z.to_nat CACHE_SIZE)
           0xFFFFFFFF (λ _, 0) 64 linux_vfs 2
           (example_kernel [0; 0; 0; -28]) notes_inode 2 [-28]).
  - apply example_wf.
  - reflexivity.
  - reflexivity.
  - reflexivity.
  - rewrite linux_path. apply CACHE_SIZE_ge_3.
  - apply linux_path_NoDup.
  - intros j _. apply create_not_cached.
  - reflexivity.
Defined.

(** The theorem of X12 on the walk from [notes] in the cache that holds
    [home], in Linux. *)
Lemma walk_caches_its_inode_witness :
  ∃ k', linux_walk (set_inode_tracer (example_kernel [0; 0; 0]) home_cached)
          = Some k' ∧
        cache_wf hash_min_64 (Z.to_nat CACHE_SIZE) (inode_tracer k') ∧
        cached (inode_tracer k') notes_inode ∧
        ∀ fuel tr, ∃ k'',
          iotrace_trace_inode hash_min_64 0xFFFFFFFF (λ _, 0) 64 linux_vfs
            (S fuel) (set_trace k' (sid k') tr) notes_inode = Some k'' ∧
          trace k'' = tr ∧ sid k'' = sid k' ∧ marks k'' = marks k'.
Proof.
  apply (walk_caches_its_inode hash_min_64 (Z.to_nat CACHE_SIZE)
           0xFFFFFFFF (λ _, 0) 64 linux_vfs 2
           (set_inode_tracer (example_kernel [0; 0; 0]) home_cached)
           notes_inode 2 []).
  - exact (proj1 home_cached_spec).
  - reflexivity.
  - reflexivity.
  - reflexivity.
  - rewrite linux_path. apply CACHE_SIZE_ge_3.
  - apply linux_path_NoDup.
  - reflexivity.
Defined.

(** The theorem of X24 on the walk from [notes] in the new tracer, in
    Linux. *)
Lemma walk_watches_the_directories_above_witness :
  ∃ k', linux_walk (example_kernel [0; 0; 0]) = Some k' ∧
        (∀ mk, mk ∈ marks (example_kernel [0; 0; 0]) → mk ∈ marks k') ∧
        (∀ p, p ∈ tail (path_inodes linux_vfs 2 notes_inode 2) →
              S_ISDIR (i_mode p) = true → (λ _ : inode, 0) p = 0 →
              marked (marks k') (group example_fsm) p).
Proof.
  apply (walk_watches_the_directories_above hash_min_64 (Z.to_nat CACHE_SIZE)
           0xFFFFFFFF (λ _, 0) 64 linux_vfs 2
           (example_kernel [0; 0; 0]) notes_inode 2 [] example_fsm).
  - apply example_wf.
  - reflexivity.
  - reflexivity.
  - reflexivity.
  - rewrite linux_path. apply CACHE_SIZE_ge_3.
  - apply linux_path_NoDup.
  - intros j _. apply create_not_cached.
  - reflexivity.
  - reflexivity.
  - reflexivity.
Defined.

(** The theorem of X13 on a creation reported together with a deletion to
    the parent. *)
Lemma fs_handle_event_reads_five_bits_witness :
  _fs_handle_event 0xFFFFFFFF (λ _, 0) (small_kernel (Some example_fsm) [0])
    0 home_inode (Z.lor FS_CREATE FS_DELETE)
    (FSNOTIFY_EVENT_INODE notes_inode) =
  _fs_handle_event 0xFFFFFFFF (λ _, 0) (small_kernel (Some example_fsm) [0])
    0 root_inode FS_CREATE (FSNOTIFY_EVENT_INODE notes_inode).
Proof.
  apply (fs_handle_event_reads_five_bits 0xFFFFFFFF (λ _, 0)
           (small_kernel (Some example_fsm) [0]) 0 home_inode root_inode
           (Z.lor FS_CREATE FS_DELETE) FS_CREATE
           (FSNOTIFY_EVENT_INODE notes_inode)).
  reflexivity.
Defined.

(** The child [notes] is created and opened in the watched [home]. *)
Definition after_child_created : kernel :=
  default (small_kernel (Some example_fsm) [0])
    (fst <$> _fs_handle_event 0xFFFFFFFF (λ _, 0)
               (small_kernel (Some example_fsm) [0]) 0 home_inode
               (Z.lor FS_CREATE FS_OPEN) (FSNOTIFY_EVENT_INODE notes_inode)).

(** The theorem of X14 on this event. *)
Lemma fs_handle_event_spares_the_cache_witness :
  0 = 0 ∧
  inode_tracer after_child_created =
    inode_tracer (small_kernel (Some example_fsm) [0]) ∧
  fsnotify_ops_inited after_child_created =
    fsnotify_ops_inited (small_kernel (Some example_fsm) [0]) ∧
  (marks after_child_created = marks (small_kernel (Some example_fsm) [0]) ∨
   ∃ child, (FSNOTIFY_EVENT_INODE notes_inode = FSNOTIFY_EVENT_PATH child ∨
             FSNOTIFY_EVENT_INODE notes_inode = FSNOTIFY_EVENT_INODE child) ∧
            installs_watch (Z.lor FS_CREATE FS_OPEN) = true ∧
            (λ _ : inode, 0) child = 0 ∧
            marks after_child_created =
              new_mark 0xFFFFFFFF 0 child ::
              marks (small_kernel (Some example_fsm) [0])) ∧
  (marks_uniq (marks (small_kernel (Some example_fsm) [0])) →
   marks_uniq (marks after_child_created)) ∧
  ∃ evs, written (trace after_child_created) =
           written (trace (small_kernel (Some example_fsm) [0])) ++ evs ∧
         (length evs ≤ 4)%nat ∧
         Forall (λ ev, ∃ child s ty,
                   (FSNOTIFY_EVENT_INODE notes_inode =
                      FSNOTIFY_EVENT_PATH child ∨
                    FSNOTIFY_EVENT_INODE notes_inode =
                      FSNOTIFY_EVENT_INODE child) ∧
                   ev = file_event s child ty) evs.
Proof.
  apply (fs_handle_event_spares_the_cache 0xFFFFFFFF (λ _, 0)
           (small_kernel (Some example_fsm) [0]) 0 home_inode
           (Z.lor FS_CREATE FS_OPEN) (FSNOTIFY_EVENT_INODE notes_inode)
           after_child_created 0).
  reflexivity.
Defined.

(** The theorem of X15 on a child moved into [home]. *)
Lemma fs_handle_event_records_witness :
  ∃ k', _fs_handle_event 0xFFFFFFFF (λ _, 0)
          (small_kernel (Some example_fsm) [0]) 0 home_inode FS_MOVED_TO
          (FSNOTIFY_EVENT_INODE notes_inode) = Some (k', 0) ∧
        sid k' = sid_after (length (event_classes FS_MOVED_TO))
                   (sid (small_kernel (Some example_fsm) [0])) ∧
        (∀ rs, wr_results (trace (small_kernel (Some example_fsm) [0])) =
                 replicate (length (event_classes FS_MOVED_TO)) 0 ++ rs →
               written (trace k') =
                 written (trace (small_kernel (Some example_fsm) [0])) ++
                 file_events (sid (small_kernel (Some example_fsm) [0]))
                   notes_inode (event_classes FS_MOVED_TO) ∧
               wr_results (trace k') = rs) ∧
        (wr_results (trace (small_kernel (Some example_fsm) [0])) = [] →
         trace k' = trace (small_kernel (Some example_fsm) [0])).
Proof.
  apply (fs_handle_event_records 0xFFFFFFFF (λ _, 0)
           (small_kernel (Some example_fsm) [0]) 0 home_inode FS_MOVED_TO
           notes_inode (FSNOTIFY_EVENT_INODE notes_inode)).
  right. reflexivity.
Defined.

(** The theorem of C8 on the child [notes] created and opened in the
    watched [home]. *)
Lemma fs_handle_event_follows_classes_witness :
  ∃ k',
    _fs_handle_event 0xFFFFFFFF (λ _, 0)
      (small_kernel (Some example_fsm) [0]) 0 home_inode
      (Z.lor FS_CREATE FS_OPEN) (FSNOTIFY_EVENT_INODE notes_inode) =
      Some (k', 0) ∧
    event_classes (Z.lor FS_CREATE FS_OPEN) =
      (if Z.testbit (Z.lor FS_CREATE FS_OPEN) (Z.log2 FS_MOVED_FROM)
       then [iotrace_fs_event_move_from] else []) ++
      (if Z.testbit (Z.lor FS_CREATE FS_OPEN) (Z.log2 FS_MOVED_TO)
       then [iotrace_fs_event_move_to] else []) ++
      (if Z.testbit (Z.lor FS_CREATE FS_OPEN) (Z.log2 FS_CREATE)
       then [iotrace_fs_event_create] else []) ++
      (if Z.testbit (Z.lor FS_CREATE FS_OPEN) (Z.log2 FS_DELETE_SELF)
       then [iotrace_fs_event_delete] else []) ∧
    installs_watch (Z.lor FS_CREATE FS_OPEN) =
      Z.testbit (Z.lor FS_CREATE FS_OPEN) (Z.log2 FS_CREATE) ||
      Z.testbit (Z.lor FS_CREATE FS_OPEN) (Z.log2 FS_OPEN) ∧
    written (trace k') =
      written (trace (small_kernel (Some example_fsm) [0])) ++
      granted_file_events
        (wr_results (trace (small_kernel (Some example_fsm) [0])))
        (sid (small_kernel (Some example_fsm) [0])) notes_inode
        (event_classes (Z.lor FS_CREATE FS_OPEN)) ∧
    wr_results (trace k') =
      drop (length (event_classes (Z.lor FS_CREATE FS_OPEN)))
        (wr_results (trace (small_kernel (Some example_fsm) [0]))) ∧
    sid k' = sid_after (length (event_classes (Z.lor FS_CREATE FS_OPEN)))
               (sid (small_kernel (Some example_fsm) [0])) ∧
    marks k' =
      (if installs_watch (Z.lor FS_CREATE FS_OPEN) then
         match fsnotify_find_mark
                 (marks (small_kernel (Some example_fsm) [0])) notes_inode 0
         with
         | Some _ => marks (small_kernel (Some example_fsm) [0])
         | None =>
             if (λ _ : inode, 0) notes_inode =? 0
             then new_mark 0xFFFFFFFF 0 notes_inode ::
                  marks (small_kernel (Some example_fsm) [0])
             else marks (small_kernel (Some example_fsm) [0])
         end
       else marks (small_kernel (Some example_fsm) [0])) ∧
    inode_tracer k' = inode_tracer (small_kernel (Some example_fsm) [0]) ∧
    fsnotify_ops_inited k' =
      fsnotify_ops_inited (small_kernel (Some example_fsm) [0]).
Proof.
  apply (fs_handle_event_follows_classes 0xFFFFFFFF (λ _, 0)
           (small_kernel (Some example_fsm) [0]) 0 home_inode
           (Z.lor FS_CREATE FS_OPEN) notes_inode
           (FSNOTIFY_EVENT_INODE notes_inode)).
  right. reflexivity.
Defined.

(** ** Two cpus and one monitor *)

(** The slots of [n] cpus before any tracer is created. *)
Definition no_tracers (n : nat) : fs_monitors :=
  {| inode_traces := replicate n None;
     monitors := ∅;
     ops_resolved := false;
     ops_inited := false;
     backend_calls := [] |}.

Lemma no_tracers_ok n : monitors_ok (no_tracers n).
Proof.
  split; simpl.
  - intros p m Hm. by rewrite lookup_empty in Hm.
  - intros p Hp. by apply elem_of_replicate in Hp as [? _].
  - intros p q [m Hm]. by rewrite lookup_empty in Hm.
  - intros p [m Hm]. by rewrite lookup_empty in Hm.
Qed.

(** Every allocation succeeds, and the group is number 7. *)
Definition all_granted : allocations :=
  {| vzalloc_node := true; kzalloc_fsm := true; alloc_group := Some 7%nat;
     kzalloc_priv := true |}.

Definition example_create (w : fs_monitors) (cpu : nat)
  : option (fs_monitors * Z) :=
  iotrace_create_inode_tracer_at "5.4.0-42-generic" "5.4.0-42-generic" 65
    true all_granted w cpu.

Definition one_tracer : fs_monitors :=
  default (no_tracers 2) (fst <$> example_create (no_tracers 2) 0).

Definition two_tracers : fs_monitors :=
  default one_tracer (fst <$> example_create one_tracer 1).

Lemma one_tracer_eq : example_create (no_tracers 2) 0 = Some (one_tracer, 0).
Proof. vm_compute. reflexivity. Qed.

Lemma two_tracers_eq : example_create one_tracer 1 = Some (two_tracers, 0).
Proof. vm_compute. reflexivity. Qed.

Lemma one_tracer_ok : monitors_ok one_tracer.
Proof.
  apply (create_ok "5.4.0-42-generic" "5.4.0-42-generic" 65 true all_granted
           (no_tracers 2) 0 one_tracer 0 (no_tracers_ok 2) eq_refl
           one_tracer_eq).
Qed.

Lemma two_tracers_ok : monitors_ok two_tracers.
Proof.
  apply (create_ok "5.4.0-42-generic" "5.4.0-42-generic" 65 true all_granted
           one_tracer 1 two_tracers 0 one_tracer_ok eq_refl two_tracers_eq).
Qed.

(** Two tracers are created and destroyed: the second shares the monitor of
    the first, and the group is given back once and destroyed once. *)
Example two_tracers_life :
  (inode_traces two_tracers,
   map_to_list (monitors two_tracers),
   ops_inited two_tracers,
   (λ w, (inode_traces w, map_to_list (monitors w), backend_calls w)) <$>
     destroy_each two_tracers [0; 1]%nat) =
  ([Some (Some 0%nat); Some (Some 0%nat)],
   [(0%nat, {| refcnt := 2; group := 7 |})],
   true,
   Some ([None; None], [],
         [fsnotify_alloc_group (Some 7%nat); fsnotify_get_group 7;
          fsnotify_put_group 7; fsnotify_destroy_group 7])).
Proof. vm_compute. reflexivity. Qed.

(** A kernel of another release: the tracer is created without monitor. *)
Example other_release :
  (λ r, (inode_traces (fst r), map_to_list (monitors (fst r)),
         backend_calls (fst r), snd r)) <$>
  iotrace_create_inode_tracer_at "5.4.0-42-generic" "5.4.0-42" 65
    true all_granted (no_tracers 2) 1 =
  Some ([None; Some None], [], [], 0).
Proof. vm_compute. reflexivity. Qed.

(** The theorem of X18 on the first tracer. *)
Lemma create_keeps_one_counted_monitor_witness :
  (kzalloc_fsm all_granted = true → kzalloc_priv all_granted = true →
   is_Some (example_create (no_tracers 2) 0)) ∧
  ∀ w' r,
    example_create (no_tracers 2) 0 = Some (w', r) →
    monitors_ok w' ∧
    (if vzalloc_node all_granted
     then r = 0 ∧
          ∃ fsm, inode_traces w' =
                   <[0%nat := Some fsm]> (inode_traces (no_tracers 2))
     else r = - ENOMEM ∧ w' = no_tracers 2).
Proof.
  apply (create_keeps_one_counted_monitor "5.4.0-42-generic"
           "5.4.0-42-generic" 65 true all_granted (no_tracers 2) 0).
  - apply no_tracers_ok.
  - reflexivity.
Defined.

(** The theorem of X19 on the second tracer. *)
Lemma create_gives_the_monitor_witness :
  example_create one_tracer 1 =
  Some (set_slot
          (set_monitors one_tracer
             (<[0%nat := {| refcnt := 1 + 1; group := 7 |}]>
                (monitors one_tracer))
             (fsnotify_get_group 7))
          1 (Some (Some 0%nat)), 0).
Proof.
  refine (proj1 (proj2 (proj2
            (create_gives_the_monitor "5.4.0-42-generic" "5.4.0-42-generic"
               65 true all_granted one_tracer 1 one_tracer_ok eq_refl
               eq_refl))) _ 0%nat {| refcnt := 1; group := 7 |} _ _).
  - vm_compute. reflexivity.
  - vm_compute. apply elem_of_cons. left. reflexivity.
  - vm_compute. reflexivity.
Defined.

(** The theorem of X20 on the first of the two tracers. *)
Lemma destroy_releases_one_reference_witness :
  ∃ w', iotrace_destroy_inode_tracer two_tracers 0 = Some w' ∧
        monitors_ok w' ∧
        inode_traces w' = <[0%nat := None]> (inode_traces two_tracers) ∧
        iotrace_destroy_inode_tracer w' 0 = Some w' ∧
        (∀ p, inode_traces two_tracers !! 0%nat = Some (Some (Some p)) →
              ∃ m, monitors two_tracers !! p = Some m ∧
                   if decide (holders two_tracers p = 1%nat)
                   then monitors w' = ∅ ∧
                        backend_calls w' =
                          backend_calls two_tracers ++
                          [fsnotify_destroy_group (group m)]
                   else monitors w' =
                          <[p := {| refcnt := refcnt m - 1;
                                    group := group m |}]>
                            (monitors two_tracers) ∧
                        backend_calls w' =
                          backend_calls two_tracers ++
                          [fsnotify_put_group (group m)]) ∧
        ((∀ p, inode_traces two_tracers !! 0%nat ≠ Some (Some (Some p))) →
         monitors w' = monitors two_tracers ∧
         backend_calls w' = backend_calls two_tracers).
Proof.
  apply (destroy_releases_one_reference two_tracers 0).
  apply two_tracers_ok.
Defined.

(** The theorem of X21 on the two tracers. *)
Lemma destroy_every_tracer_frees_the_monitor_witness :
  ∃ w', destroy_each two_tracers [1; 0; 1]%nat = Some w' ∧
        monitors w' = ∅ ∧
        inode_traces w' = replicate (length (inode_traces two_tracers)) None ∧
        (∀ p m, monitors two_tracers !! p = Some m →
                backend_calls w' =
                  backend_calls two_tracers ++
                  replicate (holders two_tracers p - 1)
                    (fsnotify_put_group (group m)) ++
                  [fsnotify_destroy_group (group m)]) ∧
        (monitors two_tracers = ∅ →
         backend_calls w' = backend_calls two_tracers).
Proof.
  apply (destroy_every_tracer_frees_the_monitor two_tracers [1; 0; 1]%nat).
  - apply two_tracers_ok.
  - intros cpu Hc.
    change (length (inode_traces two_tracers)) with 2%nat in Hc.
    destruct cpu as [|[|cpu]]; [| |lia].
    + apply elem_of_cons. right. apply elem_of_cons. left. reflexivity.
    + apply elem_of_cons. left. reflexivity.
Defined.

(** ** A record lost, preemption left disabled *)

(** A child is created while the buffer is full: the mark is attached, no
    record is written, and the preemption counter is left at 1. *)
Example full_buffer_leaves_preemption_disabled :
  (λ r, (fst (fst r), marks (snd (fst r)), written (trace (snd (fst r))),
         sid (snd (fst r)))) <$>
  _fs_handle_event_cpu 0xFFFFFFFF (λ _, 0)
    (0, small_kernel (Some example_fsm) []) 0 home_inode FS_CREATE
    (FSNOTIFY_EVENT_INODE notes_inode) =
  Some (1, [{| mark_group := 0; mark_inode := (0x801, 13);
               mask := 0xFFFFFFFF |}], [], 1).
Proof. reflexivity. Qed.

(** The theorem of X22 on this event. *)
Lemma fs_handle_event_leaves_preemption_disabled_witness :
  ∃ pc' k',
    _fs_handle_event_cpu 0xFFFFFFFF (λ _, 0)
      (0, small_kernel (Some example_fsm) []) 0 home_inode FS_CREATE
      (FSNOTIFY_EVENT_INODE notes_inode) = Some (pc', k', 0) ∧
    _fs_handle_event 0xFFFFFFFF (λ _, 0) (small_kernel (Some example_fsm) [])
      0 home_inode FS_CREATE (FSNOTIFY_EVENT_INODE notes_inode) =
      Some (k', 0) ∧
    pc' = 0 + Z.of_nat (length (event_classes FS_CREATE)) -
          (Z.of_nat (length (written (trace k'))) -
           Z.of_nat (length (written
                               (trace (small_kernel (Some example_fsm) []))))) ∧
    0 ≤ pc' ∧
    (wr_results (trace (small_kernel (Some example_fsm) [])) = [] →
     pc' = 0 + Z.of_nat (length (event_classes FS_CREATE))).
Proof.
  apply (fs_handle_event_leaves_preemption_disabled 0xFFFFFFFF (λ _, 0) 0
           (small_kernel (Some example_fsm) []) 0 home_inode FS_CREATE
           notes_inode (FSNOTIFY_EVENT_INODE notes_inode)).
  right. reflexivity.
Defined.
